(** * couloir: the relay core

    A shallow embedding of the relay of the couloir HTTP tunnel:

    - [Relay] embeds [src/relay.js]: the registry ([hosts], [clients],
      [keyToHost], [couloirCounter]), the control handlers [onCouloirOpen] and
      [onCouloirJoin], the client preface reader [onSocketClientData], the
      pairing engine [bindNextSockets] and the teardown [closeCouloirIfEmpty].
    - [RelaySocket] embeds the [RelaySocket] class (the socket class of
      [src/relay/]): [proxy] and the three branches of [#listen].
    - [Http] embeds [src/http.js]: the head parsers, [serializeReqHead] and
      [pipeHttpRequest].

    Conventions.  A JS object used as a dictionary is a [gmap] of its own
    properties; where a key that comes from the network is looked up
    ([hosts[host]] in [onSocketClientData], [keyToHost[key]] in
    [onCouloirJoin]) the members of [Object.prototype] are part of the model.
    A [Buffer] and the string decoded from it are both a [string]: one
    [ascii] per byte, so the model speaks about ASCII text, and a statement
    that depends on the decoded text says [Js.isAscii].  The JS objects that
    are shared by reference (the relay sockets stored in [hosts] and [clients])
    live in a store indexed by their [id]; the arrays hold ids. *)

From Stdlib Require Import String Ascii DecimalString ZArith Lia.
From stdpp Require Import gmap strings list fin_maps.

#[local] Open Scope Z_scope.
#[local] Open Scope nat_scope.
#[local] Arguments String.append !_ _ /.

(** ** JavaScript string and buffer primitives *)

Module Js.

Definition CR : ascii := "013"%char.
Definition LF : ascii := "010"%char.
Definition CRLF : string := String CR (String LF "").
Definition CRLFCRLF : string := CRLF +:+ CRLF.

(** [s.endsWith(suffix)]: some suffix of [s] is [suffix]. *)
Fixpoint endsWith (s suffix : string) : bool :=
  String.eqb s suffix ||
  match s with
  | EmptyString => false
  | String _ r => endsWith r suffix
  end.

(** [s.startsWith(p)]. *)
Definition startsWith (s p : string) : bool := String.prefix p s.

(** Template-literal conversion of a non-negative counter. *)
Definition numberToString (n : nat) : string :=
  NilEmpty.string_of_uint (Nat.to_uint n).

(** [buf.indexOf(needle)] scanning from offset [i]; [-1] when absent. *)
Fixpoint indexOfFrom (needle buf : string) (i : Z) : Z :=
  if startsWith buf needle then i
  else match buf with
       | EmptyString => (-1)%Z
       | String _ r => indexOfFrom needle r (i + 1)%Z
       end.

Definition indexOf (buf needle : string) : Z := indexOfFrom needle buf 0%Z.

(** [buf.subarray(0, n)] *)
Definition subarray0 (buf : string) (n : Z) : string :=
  String.substring 0 (Z.to_nat n) buf.

(** Characters the regular-expression atom [.] refuses, in the ASCII range.
    The atom also refuses U+2028 and U+2029, which a decoded head holds only
    where its bytes are not ASCII: a statement about what a regular
    expression matches in a head says [isAscii] further down, or holds
    either way. *)
Definition isLineTerminator (c : ascii) : bool :=
  Ascii.eqb c CR || Ascii.eqb c LF.

Fixpoint noLineTerminator (s : string) : bool :=
  match s with
  | EmptyString => true
  | String c r => negb (isLineTerminator c) && noLineTerminator r
  end.

(** The greedy [.+] / [.*]: the longest run without a line terminator, and
    what follows it. *)
Fixpoint dotRun (s : string) : string * string :=
  match s with
  | EmptyString => (EmptyString, EmptyString)
  | String c r =>
      if isLineTerminator c then (EmptyString, s)
      else let '(run, rest) := dotRun r in (String c run, rest)
  end.

Fixpoint dropChars (n : nat) (s : string) : string :=
  match n, s with
  | S n', String _ r => dropChars n' r
  | _, _ => s
  end.

(** Is [needle] a substring of [s]? *)
Fixpoint includes (s needle : string) : bool :=
  startsWith s needle ||
  match s with
  | EmptyString => false
  | String _ r => includes r needle
  end.

(** Bytes that are ASCII text: [toString()] decodes them to the characters
    of the same codes, and none of them makes a line terminator other than
    CR and LF. *)
Fixpoint isAscii (s : string) : bool :=
  match s with
  | EmptyString => true
  | String c r => (N_of_ascii c <? 128)%N && isAscii r
  end.

(** The properties of [Object.prototype], which a lookup [o[key]] on an
    object literal finds when [o] has no property [key] of its own. *)
Definition prototypeKeys : list string :=
  ["constructor"; "__defineGetter__"; "__defineSetter__"; "hasOwnProperty";
   "__lookupGetter__"; "__lookupSetter__"; "isPrototypeOf";
   "propertyIsEnumerable"; "toString"; "valueOf"; "__proto__";
   "toLocaleString"].

Definition isPrototypeKey (k : string) : bool :=
  bool_decide (k ∈ prototypeKeys).

End Js.

(** ** Results of handlers

    A handler either completes, or throws the [TypeError] JavaScript raises
    when a method is called on [undefined].  [OutOfFuel] is the artefact of
    the fuel that bounds the recursion of the pairing engine. *)

Inductive Result (A : Type) : Type :=
  | Ok (a : A)
  | TypeError
  | OutOfFuel.
Arguments Ok {A} a.
Arguments TypeError {A}.
Arguments OutOfFuel {A}.

#[global] Instance Result_ret : MRet Result := @Ok.
#[global] Instance Result_bind : MBind Result := λ A B k r,
  match r with
  | Ok a => k a
  | TypeError => TypeError
  | OutOfFuel => OutOfFuel
  end.

Definition defined {A} (o : option A) : Result A :=
  match o with
  | Some a => Ok a
  | None => TypeError
  end.

(** ** The relay of [src/relay.js]

    [protocol.js], [certs.js] and [logger.js] are not part of the sources at
    hand.  The protocol layer decodes control messages and calls
    [onCouloirOpen] or [onCouloirJoin] with the payload and [sendResponse]:
    here such a call is an event of the relay, and a response is recorded on
    the socket it is sent on.  Certificates and logging play no part. *)

Module Relay.

Inductive SocketType := TYPE_HOST | TYPE_CLIENT.

#[global] Instance SocketType_eq_dec : EqDecision SocketType.
Proof. solve_decision. Defined.

(** Payload of an [ACK] produced by [sendResponse]. *)
Inductive Payload :=
  | Opened (key host : string)      (* { key, host } *)
  | Joined                          (* {} *)
  | Error (error : string).         (* { error } *)

(** What the relay puts on a socket, in order. *)
Inductive Out :=
  | Response (payload : Payload)    (* sendResponse(payload) *)
  | Write (data : string)           (* socket.write(data), also through a pipe *)
  | End.                            (* socket.end(), also through a pipe *)

(** A [relaySocket] object together with the node socket it wraps: [onData]
    tells whether [onSocketClientData] is still attached to ["data"], [pipes]
    lists the destinations of [socket.pipe(...)], [sent] is everything the
    relay sent on the socket. *)
Record RelaySocket := mkRelaySocket {
  id : nat;
  host : option string;
  requestBuffer : string;
  type : SocketType;
  busy : bool;
  onData : bool;
  pipes : list nat;
  sent : list Out;
}.

Record State := mkState {
  couloirCounter : nat;
  hosts : gmap string (list nat);
  clients : gmap string (list nat);
  keyToHost : gmap string string;
  socketCounter : nat;
  sockets : gmap nat RelaySocket;
}.

Definition initial : State := mkState 0 ∅ ∅ ∅ 0 ∅.

(** Field updates. *)
Definition setHost (h : option string) (s : RelaySocket) : RelaySocket :=
  mkRelaySocket (id s) h (requestBuffer s) (type s) (busy s) (onData s) (pipes s) (sent s).
Definition setRequestBuffer (b : string) (s : RelaySocket) : RelaySocket :=
  mkRelaySocket (id s) (host s) b (type s) (busy s) (onData s) (pipes s) (sent s).
Definition setType (t : SocketType) (s : RelaySocket) : RelaySocket :=
  mkRelaySocket (id s) (host s) (requestBuffer s) t (busy s) (onData s) (pipes s) (sent s).
Definition setBusy (b : bool) (s : RelaySocket) : RelaySocket :=
  mkRelaySocket (id s) (host s) (requestBuffer s) (type s) b (onData s) (pipes s) (sent s).
Definition setOnData (b : bool) (s : RelaySocket) : RelaySocket :=
  mkRelaySocket (id s) (host s) (requestBuffer s) (type s) (busy s) b (pipes s) (sent s).
Definition addPipe (dst : nat) (s : RelaySocket) : RelaySocket :=
  mkRelaySocket (id s) (host s) (requestBuffer s) (type s) (busy s) (onData s) (pipes s ++ [dst]) (sent s).
Definition send (o : Out) (s : RelaySocket) : RelaySocket :=
  mkRelaySocket (id s) (host s) (requestBuffer s) (type s) (busy s) (onData s) (pipes s) (sent s ++ [o]).

Definition setCouloirCounter (n : nat) (st : State) : State :=
  mkState n (hosts st) (clients st) (keyToHost st) (socketCounter st) (sockets st).
Definition setHosts (m : gmap string (list nat)) (st : State) : State :=
  mkState (couloirCounter st) m (clients st) (keyToHost st) (socketCounter st) (sockets st).
Definition setClients (m : gmap string (list nat)) (st : State) : State :=
  mkState (couloirCounter st) (hosts st) m (keyToHost st) (socketCounter st) (sockets st).
Definition setKeyToHost (m : gmap string string) (st : State) : State :=
  mkState (couloirCounter st) (hosts st) (clients st) m (socketCounter st) (sockets st).
Definition setSockets (m : gmap nat RelaySocket) (st : State) : State :=
  mkState (couloirCounter st) (hosts st) (clients st) (keyToHost st) (socketCounter st) m.

(** Mutation of the socket object [i], seen by every array that holds it. *)
Definition onSocket (i : nat) (f : RelaySocket → RelaySocket) (st : State) : State :=
  setSockets (alter f i (sockets st)) st.

Definition isBusy (st : State) (i : nat) : bool :=
  match sockets st !! i with
  | Some s => busy s
  | None => false
  end.

Definition bufferOf (st : State) (i : nat) : string :=
  match sockets st !! i with
  | Some s => requestBuffer s
  | None => EmptyString
  end.

Definition sentOn (st : State) (i : nat) : list Out :=
  match sockets st !! i with
  | Some s => sent s
  | None => []
  end.

Definition pipesOf (st : State) (i : nat) : list nat :=
  match sockets st !! i with
  | Some s => pipes s
  | None => []
  end.

(** The registry: everything but the socket objects. *)
Definition registry (st : State)
  : nat * gmap string (list nat) * gmap string (list nat) * gmap string string :=
  (couloirCounter st, hosts st, clients st, keyToHost st).

Section WithDomain.

Variable domain : string.

(** [closeCouloirIfEmpty(host)] *)
Definition closeCouloirIfEmpty (h : string) (st : State) : Result State :=
  hs ← defined (hosts st !! h);
  if bool_decide (0 < length hs) then Ok st
  else
    let st := setHosts (delete h (hosts st)) st in
    let st := setClients (delete h (clients st)) st in
    Ok (setKeyToHost (filter (λ kv, kv.2 ≠ h) (keyToHost st)) st).

(** One turn of the body of the [while] of [bindNextSockets]: the client
    [c] (already shifted) is spliced with the exposer socket [h].  What a
    pipe does on a later tick (it ends its destination when its source has
    ended) comes with the events [Data] and [Ended], not here. *)
Definition splice (c h : nat) (st : State) : State :=
  let st := onSocket c (setBusy true) st in
  let st := onSocket h (setBusy true) st in
  let st := onSocket c (addPipe h) st in
  let st := onSocket h (send (Write (bufferOf st c))) st in
  onSocket h (addPipe c) st.

(** [bindNextSockets(host)]; [bindLoop] is its [while], which keeps the
    [pendingHosts] computed on entry.  The fuel bounds the recursion. *)
Fixpoint bindNextSocketsFuel (fuel : nat) (h : string) (st : State) : Result State :=
  match fuel with
  | 0 => OutOfFuel
  | S fuel =>
      hs ← defined (hosts st !! h);
      let pendingHosts := filter (λ i, isBusy st i = false) hs in
      _ ← defined (clients st !! h);
      bindLoop fuel h pendingHosts st
  end
with bindLoop (fuel : nat) (h : string) (pendingHosts : list nat) (st : State)
  : Result State :=
  match fuel with
  | 0 => OutOfFuel
  | S fuel =>
      cs ← defined (clients st !! h);
      match cs, pendingHosts with
      | clientSocket :: cs', hostSocket :: _ =>
          let st := setClients (<[h := cs']> (clients st)) st in
          let st := splice clientSocket hostSocket st in
          st ← bindNextSocketsFuel fuel h st;
          bindLoop fuel h pendingHosts st
      | _, _ => Ok st
      end
  end.

Definition waiting (st : State) (h : string) : nat :=
  length (default [] (clients st !! h)).

Definition bindNextSockets (h : string) (st : State) : Result State :=
  bindNextSocketsFuel (2 * waiting st h + 2) h st.

Definition sendResponse (i : nat) (p : Payload) (st : State) : State :=
  onSocket i (send (Response p)) st.

(** The name [onCouloirOpen] settles on. *)
Definition chosenHost (st : State) (h : string) : string :=
  if Js.endsWith h ("." +:+ domain) then h
  else "couloir" +:+
       (if bool_decide (1 < couloirCounter st)
        then Js.numberToString (couloirCounter st) else "") +:+
       "." +:+ domain.

(** [onCouloirOpen(host, sendResponse)] on socket [i]; [key] is the outcome
    of [crypto.randomBytes(24).toString("hex")]. *)
Definition onCouloirOpen (i : nat) (h key : string) (st : State) : State :=
  let st := onSocket i (setType TYPE_HOST) st in
  let h := chosenHost st h in
  match hosts st !! h with
  | Some _ =>
      sendResponse i (Error ("Couloir host " +:+ h +:+ " is already opened")) st
  | None =>
      let st := setCouloirCounter (S (couloirCounter st)) st in
      let st := onSocket i (setHost (Some h)) st in
      let st := setKeyToHost (<[key := h]> (keyToHost st)) st in
      let st := setHosts (<[h := []]> (hosts st)) st in
      let st := setClients (<[h := []]> (clients st)) st in
      sendResponse i (Opened key h) st
  end.

Definition invalidKey : string :=
  "Invalid couloir key. Please restart your couloir client.".

(** [onCouloirJoin(key, sendResponse)] on socket [i].  When [keyToHost] has
    no property [key] of its own and [key] names a member of
    [Object.prototype], [keyToHost[key]] is that member: it is truthy, its
    string form names no couloir (these names hold a dot), and the call of
    [push] on the missing [hosts] entry throws. *)
Definition onCouloirJoin (i : nat) (key : string) (st : State) : Result State :=
  let st := onSocket i (setType TYPE_HOST) st in
  match keyToHost st !! key with
  | Some h =>
      if String.eqb h "" then Ok (sendResponse i (Error invalidKey) st)
      else
        let st := onSocket i (setHost (Some h)) st in
        hs ← defined (hosts st !! h);
        let st := setHosts (<[h := hs ++ [i]]> (hosts st)) st in
        let st := sendResponse i Joined st in
        bindNextSockets h st
  | None =>
      if Js.isPrototypeKey key then TypeError
      else Ok (sendResponse i (Error invalidKey) st)
  end.

(** The literal the regular expression [HOST_MATCH] starts with (8 bytes). *)
Definition HOST_PREFIX : string := Js.CRLF +:+ "Host: ".

(** [HOST_MATCH = /\r\nHost: (.+)\r\n/] tried at the start of [s]: the
    capture group when it matches there.  [.] never matches [\r], so the
    greedy [.+] can only stop at the end of the run; nothing is gained by
    backtracking. *)
Definition hostMatchHere (s : string) : option string :=
  if Js.startsWith s HOST_PREFIX then
    let '(run, rest) := Js.dotRun (Js.dropChars 8 s) in
    if negb (String.eqb run "") && Js.startsWith rest Js.CRLF
    then Some run else None
  else None.

(** [head.match(HOST_MATCH)]: the leftmost match, [host_match[1]]. *)
Fixpoint HOST_MATCH (s : string) : option string :=
  match hostMatchHere s with
  | Some g => Some g
  | None =>
      match s with
      | EmptyString => None
      | String _ r => HOST_MATCH r
      end
  end.

(** [s.replace(/:.*$/, "")]: cut at the first colon that only a run of
    ordinary characters separates from the end. *)
Fixpoint stripPort (s : string) : string :=
  match s with
  | EmptyString => EmptyString
  | String c r =>
      if Ascii.eqb c ":" && Js.noLineTerminator r then EmptyString
      else String c (stripPort r)
  end.

Definition notFound : string :=
  "HTTP/1.1 404 Not found" +:+ Js.CRLFCRLF +:+ "Not found".

(** The [else] branch of [onSocketClientData]. *)
Definition reply404 (i : nat) (st : State) : State :=
  onSocket i (send End) (onSocket i (send (Write notFound)) st).

(** [onSocketClientData(data)] of socket [i].  [hosts[host]] is truthy when
    [hosts] has the property [host], and also when [host] names a member of
    [Object.prototype]; [clients[host].push] throws unless [clients] has an
    array of its own under [host]. *)
Definition onSocketClientData (i : nat) (data : string) (st : State) : Result State :=
  match sockets st !! i with
  | None => Ok st
  | Some s =>
      if bool_decide (type s = TYPE_HOST) then Ok (onSocket i (setOnData false) st)
      else
        let buf := requestBuffer s +:+ data in
        let st := onSocket i (setRequestBuffer buf) st in
        let headLastByte := Js.indexOf buf Js.CRLFCRLF in
        if bool_decide (headLastByte = (-1)%Z) then Ok st
        else
          let head := Js.subarray0 buf (headLastByte + 2)%Z in
          let host_match := HOST_MATCH head in
          let h := stripPort <$> host_match in
          match h with
          | Some h =>
              if negb (String.eqb h "") &&
                 (bool_decide (is_Some (hosts st !! h)) || Js.isPrototypeKey h) then
                let st := onSocket i (setHost (Some h)) st in
                cs ← defined (clients st !! h);
                let st := setClients (<[h := cs ++ [i]]> (clients st)) st in
                st ← bindNextSockets h st;
                Ok (onSocket i (setOnData false) st)
              else Ok (reply404 i st)
          | None => Ok (reply404 i st)
          end
  end.

(** The ["end"] listener of socket [i]. *)
Definition onSocketEnd (i : nat) (st : State) : Result State :=
  match sockets st !! i with
  | None => Ok st
  | Some s =>
      match host s with
      | Some h =>
          if negb (String.eqb h "") && bool_decide (type s = TYPE_HOST) then
            match hosts st !! h with
            | Some hs =>
                let st :=
                  setHosts (<[h := filter (λ j, j ≠ id s) hs]> (hosts st)) st in
                closeCouloirIfEmpty h st
            | None => Ok st
            end
          else Ok st
      | None => Ok st
      end
  end.

(** ** The event loop

    The relay reacts to what node delivers: a new connection, a control
    message decoded by the protocol layer, a chunk of data, an end of stream.
    A chunk goes first to the listeners attached when it arrives, then
    through the pipes that existed at that time. *)
Inductive Event :=
  | Connection
  | OpenCouloir (i : nat) (h key : string)
  | JoinCouloir (i : nat) (key : string)
  | Data (i : nat) (data : string)
  | Ended (i : nat).

Definition onConnection (st : State) : State :=
  let i := socketCounter st in
  let s := mkRelaySocket i None EmptyString TYPE_CLIENT false true [] [] in
  mkState (couloirCounter st) (hosts st) (clients st) (keyToHost st)
          (S i) (<[i := s]> (sockets st)).

Definition forward (o : Out) (dests : list nat) (st : State) : State :=
  foldl (λ st d, onSocket d (send o) st) st dests.

Definition step (e : Event) (st : State) : Result State :=
  match e with
  | Connection => Ok (onConnection st)
  | OpenCouloir i h key => Ok (onCouloirOpen i h key st)
  | JoinCouloir i key => onCouloirJoin i key st
  | Data i data =>
      let dests := pipesOf st i in
      let listening := match sockets st !! i with
                       | Some s => onData s
                       | None => false
                       end in
      st ← (if listening then onSocketClientData i data st else Ok st);
      Ok (forward (Write data) dests st)
  | Ended i =>
      let dests := pipesOf st i in
      st ← onSocketEnd i st;
      Ok (forward End dests st)
  end.

Fixpoint run (es : list Event) (st : State) : Result State :=
  match es with
  | [] => Ok st
  | e :: es => st ← step e st; run es st
  end.

End WithDomain.

(** *** Traces used below *)

Definition request (path hostHeader : string) : string :=
  "GET " +:+ path +:+ " HTTP/1.1" +:+ Js.CRLF +:+
  "Host: " +:+ hostHeader +:+ Js.CRLFCRLF.

(** Bytes written on socket [i] (control responses left out). *)
Definition received (st : State) (i : nat) : string :=
  foldr (λ o acc, match o with Write d => d +:+ acc | _ => acc end)
        EmptyString (sentOn st i).

(** The client sockets spliced into exposer socket [e]. *)
Definition boundTo (st : State) (e : nat) : list nat :=
  filter (λ c, e ∈ pipesOf st c ∧
                 (type <$> sockets st !! c) = Some TYPE_CLIENT)
         (seq 0 (socketCounter st)).

(** *** Well-formed client requests *)

(** [s] holds no occurrence of the character [c]. *)
Fixpoint avoids (c : ascii) (s : string) : bool :=
  match s with
  | EmptyString => true
  | String a r => negb (Ascii.eqb a c) && avoids c r
  end.

(** Header lines, each behind its CRLF. *)
Definition headerLines (ls : list string) : string :=
  foldr (λ l acc, Js.CRLF +:+ l +:+ acc) EmptyString ls.

(** The value of a [Host] header: [<h>] or [<h>:<port>]. *)
Definition hostValue (h : string) (port : option string) : string :=
  match port with
  | Some p => h +:+ ":" +:+ p
  | None => h
  end.

(** A request whose head carries [Host: value] between the header lines
    [before] and [after]. *)
Definition requestWithHost
    (requestLine : string) (before : list string) (value : string)
    (after : list string) (body : string) : string :=
  requestLine +:+ headerLines before +:+
  Js.CRLF +:+ "Host: " +:+ value +:+
  headerLines after +:+ Js.CRLFCRLF +:+ body.

(** A non-empty line without carriage return. *)
Definition plainLine (l : string) : bool :=
  negb (String.eqb l "") && avoids Js.CR l.

(** A header line that is not a [Host: ] line. *)
Definition otherHeader (l : string) : bool :=
  plainLine l && negb (Js.startsWith l "Host: ").

(** A host name: non-empty, without colon or line terminator. *)
Definition hostName (h : string) : bool :=
  negb (String.eqb h "") && avoids ":" h && Js.noLineTerminator h.

(** The head of a buffered request, when it is complete: what
    [onSocketClientData] cuts out of [requestBuffer]. *)
Definition headOf (buf : string) : option string :=
  let headLastByte := Js.indexOf buf Js.CRLFCRLF in
  if bool_decide (headLastByte = (-1)%Z) then None
  else Some (Js.subarray0 buf (headLastByte + 2)%Z).

(** *** States and traces used below *)

(** [bindNextSockets] returns, and does not lengthen the queue. *)
Definition terminatesBelow (h : string) (st : State) (r : Result State) : Prop :=
  match r with
  | Ok st' => waiting st' h ≤ waiting st h
  | TypeError => True
  | OutOfFuel => False
  end.

(** A handler completes in a state that satisfies [P], or it throws; it
    does not run out of fuel. *)
Definition throwsOr (P : State → Prop) (r : Result State) : Prop :=
  match r with
  | Ok st' => P st'
  | TypeError => True
  | OutOfFuel => False
  end.

(** Every registered couloir has its queue, and every key leads to a
    registered couloir: what the handlers rely on when they index [hosts]
    and [clients]. *)
Definition wellFormed (st : State) : Prop :=
  (∀ h, is_Some (hosts st !! h) ↔ is_Some (clients st !! h)) ∧
  (∀ k h, keyToHost st !! k = Some h → is_Some (hosts st !! h)).

(** [st'] has the couloirs and keys of [st], and no longer queue at [h]. *)
Definition sameCouloirs (h : string) (st st' : State) : Prop :=
  hosts st' = hosts st ∧
  keyToHost st' = keyToHost st ∧
  couloirCounter st' = couloirCounter st ∧
  (∀ h', is_Some (clients st' !! h') ↔ is_Some (clients st !! h')) ∧
  waiting st' h ≤ waiting st h.

(** A relay for [my.test] where socket 0 has opened [x.my.test]. *)
Definition xOpen : State :=
  onCouloirOpen "my.test" 0 "x.my.test" "k1" (onConnection initial).

(** A couloir whose one exposer socket is bound, and where one more client
    waits. *)
Definition churn : list Event :=
  [Connection; OpenCouloir 0 "x.my.test" "k1";
   Connection; JoinCouloir 1 "k1";
   Connection; Data 2 (request "/" "x.my.test"); Ended 2;
   Connection; Data 3 (request "/" "x.my.test")].

Definition churned : State :=
  match run "my.test" churn initial with
  | Ok st => st
  | _ => initial
  end.

(** Two clients wait for [couloir.my.test]; then one exposer socket joins. *)
Definition oversubscribed : list Event :=
  [Connection; OpenCouloir 0 "" "k1";
   Connection; Data 1 (request "/a" "couloir.my.test");
   Connection; Data 2 (request "/b" "couloir.my.test");
   Connection; JoinCouloir 3 "k1"].

(** A couloir [x.my.test] with one idle exposer socket (1), and a client
    socket (2) that has sent the first bytes of its request. *)
Definition joined : State :=
  match run "my.test"
          [Connection; OpenCouloir 0 "x.my.test" "k1";
           Connection; JoinCouloir 1 "k1";
           Connection; Data 2 ("GET / HTTP/1.1" +:+ Js.CRLF +:+ "Acc")] initial with
  | Ok st => st
  | _ => initial
  end.

Definition restOfRequest (hostHeader : string) : string :=
  "ept: */*" +:+ Js.CRLF +:+ hostHeader +:+ Js.CRLF +:+
  "User-Agent: curl" +:+ Js.CRLFCRLF +:+ "body".

(** The name pattern the specification asks for,
    [^[a-z0-9-]+\.<relayDomain>$], as a checker: a non-empty label of
    lower-case letters, digits and dashes, then [.<relayDomain>].  It has no
    counterpart in the code; it only tells which names the specification
    would turn down. *)
Definition specLabelChar (c : ascii) : bool :=
  let n := nat_of_ascii c in
  ((97 <=? n) && (n <=? 122)) || ((48 <=? n) && (n <=? 57)) || (n =? 45).

Fixpoint specNamePattern_go (domain s : string) (seen : bool) : bool :=
  match s with
  | EmptyString => false
  | String c r =>
      if specLabelChar c then specNamePattern_go domain r true
      else seen && String.eqb s ("." +:+ domain)
  end.

Definition specNamePattern (domain s : string) : bool :=
  specNamePattern_go domain s false.

(** *** Further notions about the registry and the pairing *)

(** No two keys lead to the same couloir. *)
Definition keyUnique (st : State) : Prop :=
  ∀ k1 k2 h,
    keyToHost st !! k1 = Some h → keyToHost st !! k2 = Some h → k1 = k2.

(** The exposer sockets of couloir [h] that are not busy, in the order of
    [hosts[h]]: the [pendingHosts] of [bindNextSockets]. *)
Definition idleExposers (st : State) (h : string) : list nat :=
  filter (λ i, isBusy st i = false) (default [] (hosts st !! h)).

(** First come, first served: the k-th waiting client with the k-th idle
    exposer socket, one shift of the queue per pair. *)
Fixpoint fifoPairing (h : string) (cs es : list nat) (st : State) : State :=
  match cs, es with
  | c :: cs', e :: es' =>
      fifoPairing h cs' es'
        (splice c e (setClients (<[h := cs']> (clients st)) st))
  | _, _ => st
  end.

(** None of the chunks completes the head of what is buffered. *)
Fixpoint incomplete (buf : string) (chunks : list string) : bool :=
  match chunks with
  | [] => true
  | d :: ds => bool_decide (headOf (buf +:+ d) = None) && incomplete (buf +:+ d) ds
  end.

(** The chunks of one socket, as events. *)
Definition chunksOn (i : nat) (chunks : list string) : list Event :=
  Data i <$> chunks.

Definition concatChunks (chunks : list string) : string :=
  foldr String.append EmptyString chunks.

(** What the pairing engine never touches on a socket. *)
Definition identityOf (s : RelaySocket)
  : nat * option string * string * SocketType * bool :=
  (id s, host s, requestBuffer s, type s, onData s).

(** [st'] differs from [st] at most by the queues and by the busy flags,
    pipes and output of the sockets. *)
Definition sameIdentity (st st' : State) : Prop :=
  hosts st' = hosts st ∧
  keyToHost st' = keyToHost st ∧
  couloirCounter st' = couloirCounter st ∧
  socketCounter st' = socketCounter st ∧
  ∀ j, identityOf <$> sockets st' !! j = identityOf <$> sockets st !! j.


(** Two idle exposer sockets (1 and 2) of [x.my.test], and two clients (3
    and 4) put in its queue. *)
Definition crowded : State :=
  match run "my.test"
          [Connection; OpenCouloir 0 "x.my.test" "k1";
           Connection; JoinCouloir 1 "k1";
           Connection; JoinCouloir 2 "k1";
           Connection; Connection] initial with
  | Ok st => setClients (<["x.my.test" := [3; 4]]> (clients st)) st
  | _ => initial
  end.


(** From [st] to [st'] no socket was lost and no busy socket became idle. *)
Definition busyKept (st st' : State) : Prop :=
  socketCounter st ≤ socketCounter st' ∧
  ∀ x, x < socketCounter st → isBusy st x = true → isBusy st' x = true.

End Relay.

(** ** The [RelaySocket] class of [src/relay/]

    The class leans on code that is not part of the sources at hand: the
    relay object ([relay.domain], [relay.couloirs], [relay.getCouloir],
    [relay.openCouloir], [relay.exposeCommand]), the couloir object
    ([addHostSocket], [addClientSocket]), [HttpRequest], [htmlResponse] and
    [logo].  The renderers and the relay settings are parameters; the parsed
    request and the outcome of [openCouloir] come with the event; the couloir
    is modelled from the specification. *)

Module RelaySocket.

Inductive SocketType := TYPE_CLIENT | TYPE_HOST.

(** The tag of the one message the relay sends: [COULOIR_STREAM]. *)
Inductive Message := COULOIR_STREAM.

(** What a control handler answers. *)
Inductive Payload :=
  | Opened (key host : string)      (* { key, host } *)
  | Joined                          (* sendResponse() *)
  | Error (error : string).         (* { error } *)

(** What the relay puts on a socket. *)
Inductive Out :=
  | Response (payload : Payload)
  | SendMessage (m : Message)       (* sendMessage(m, null, { skipResponse: true }) *)
  | Write (data : string)
  | End.

(** What happens, in order: something sent on socket [i], or a socket
    handed to a couloir. *)
Inductive Effect :=
  | Sent (i : nat) (o : Out)
  | AddHostSocket (h : string) (i : nat)
  | AddClientSocket (h : string) (i : nat).

#[global] Instance Message_eq_dec : EqDecision Message.
Proof. solve_decision. Defined.
#[global] Instance Payload_eq_dec : EqDecision Payload.
Proof. solve_decision. Defined.
#[global] Instance Out_eq_dec : EqDecision Out.
Proof. solve_decision. Defined.
#[global] Instance Effect_eq_dec : EqDecision Effect.
Proof. solve_decision. Defined.

(** [req.headers]: each name with its values in order; a header line
    without [": "] leaves [undefined] as its value. *)
Abbreviation Headers := (gmap string (list (option string))).

(** The request [HttpRequest.nextOnSocket] resolves to: its headers and the
    bytes read for it. *)
Record HttpRequest := mkHttpRequest {
  headers : Headers;
  raw : string;
}.

(** A [RelaySocket] instance: the fields of the class, the destinations
    of [stream.pipe(...)] ([pipes]) and of [req.pipe(...)] ([reqPipes]), and
    the sockets its ["end"] listeners end ([ends]). *)
Record RelaySocket := mkRelaySocket {
  host : option string;
  type : option SocketType;
  bound : bool;
  req : option HttpRequest;
  pipes : list nat;
  reqPipes : list nat;
  ends : list nat;
}.

(** Modelled from the spec: the couloir object of [relay-couloir.js] is
    absent.  Section 3: a couloir has a [key], the exposer sockets that are
    idle and the FIFO of client sockets awaiting an exposer. *)
Record Couloir := mkCouloir {
  key : string;
  hostSockets : list nat;
  clientSockets : list nat;
}.

(** Modelled from the spec: the relay object is absent.  Section 3: the
    registry maps a host to its couloir and a key to its host. *)
Record State := mkState {
  couloirs : gmap string Couloir;
  byKey : gmap string string;
  socketCounter : nat;
  sockets : gmap nat RelaySocket;
  effects : list Effect;
}.

Definition initial : State := mkState ∅ ∅ 0 ∅ [].

Definition setCouloirs (m : gmap string Couloir) (st : State) : State :=
  mkState m (byKey st) (socketCounter st) (sockets st) (effects st).
Definition setByKey (m : gmap string string) (st : State) : State :=
  mkState (couloirs st) m (socketCounter st) (sockets st) (effects st).
Definition onSocket (i : nat) (f : RelaySocket → RelaySocket) (st : State) : State :=
  mkState (couloirs st) (byKey st) (socketCounter st) (alter f i (sockets st))
          (effects st).
Definition emit (e : Effect) (st : State) : State :=
  mkState (couloirs st) (byKey st) (socketCounter st) (sockets st)
          (effects st ++ [e]).

Definition setHost (h : option string) (s : RelaySocket) : RelaySocket :=
  mkRelaySocket h (type s) (bound s) (req s) (pipes s) (reqPipes s) (ends s).
Definition setType (t : SocketType) (s : RelaySocket) : RelaySocket :=
  mkRelaySocket (host s) (Some t) (bound s) (req s) (pipes s) (reqPipes s) (ends s).
Definition setBound (b : bool) (s : RelaySocket) : RelaySocket :=
  mkRelaySocket (host s) (type s) b (req s) (pipes s) (reqPipes s) (ends s).
Definition setReq (r : HttpRequest) (s : RelaySocket) : RelaySocket :=
  mkRelaySocket (host s) (type s) (bound s) (Some r) (pipes s) (reqPipes s) (ends s).
Definition addPipe (dst : nat) (s : RelaySocket) : RelaySocket :=
  mkRelaySocket (host s) (type s) (bound s) (req s) (pipes s ++ [dst]) (reqPipes s) (ends s).
Definition addReqPipe (dst : nat) (s : RelaySocket) : RelaySocket :=
  mkRelaySocket (host s) (type s) (bound s) (req s) (pipes s) (reqPipes s ++ [dst]) (ends s).
Definition addEnd (dst : nat) (s : RelaySocket) : RelaySocket :=
  mkRelaySocket (host s) (type s) (bound s) (req s) (pipes s) (reqPipes s) (ends s ++ [dst]).

(** Everything sent on socket [i], in order. *)
Definition sentOn (st : State) (i : nat) : list Out :=
  omap (λ e, match e with
             | Sent j o => if decide (j = i) then Some o else None
             | _ => None
             end) (effects st).

(** [proxy(hostSocket)] of the client socket [c].  [this.req.pipe(...)]
    belongs to the absent [HttpRequest]; as its comment says, it pipes the
    current request and everything else that flows through the socket.  A
    socket without [req] makes the call throw. *)
Definition proxy (c hostSocket : nat) (st : State) : Result State :=
  this ← defined (sockets st !! c);
  let st := onSocket hostSocket (setBound true) st in
  let st := onSocket c (setBound true) st in
  let st := emit (Sent hostSocket (SendMessage COULOIR_STREAM)) st in
  let st := onSocket hostSocket (addPipe c) st in
  r ← defined (req this);
  let st := emit (Sent hostSocket (Write (raw r))) st in
  let st := onSocket c (addReqPipe hostSocket) st in
  Ok (onSocket c (addEnd hostSocket) st).

(** [end({ force })] of socket [i]: the socket is ended unless it is bound
    and the end is not forced. *)
Definition endSocket (force : bool) (i : nat) (st : State) : State :=
  match sockets st !! i with
  | Some this =>
      if negb (bound this) || force then emit (Sent i End) st else st
  | None => st
  end.

(** Modelled from the spec: the pairing engine of section 4.5.  While the
    couloir has an idle exposer and a pending client, take one of each, in
    FIFO order, and splice them; here the splice is [proxy]. *)
Fixpoint pairSockets (es cs : list nat) (st : State)
  : Result (list nat * list nat * State) :=
  match es, cs with
  | e :: es', c :: cs' => st ← proxy c e st; pairSockets es' cs' st
  | _, _ => Ok (es, cs, st)
  end.

Definition bindNextSockets (h : string) (st : State) : Result State :=
  co ← defined (couloirs st !! h);
  '(es, cs, st) ← pairSockets (hostSockets co) (clientSockets co) st;
  Ok (setCouloirs (<[h := mkCouloir (key co) es cs]> (couloirs st)) st).

(** Modelled from the spec: [couloir.addHostSocket(socket)], section 4.1:
    insert the socket into the idle exposer set and trigger pairing. *)
Definition addHostSocket (h : string) (i : nat) (st : State) : Result State :=
  co ← defined (couloirs st !! h);
  let st := emit (AddHostSocket h i) st in
  let co := mkCouloir (key co) (hostSockets co ++ [i]) (clientSockets co) in
  bindNextSockets h (setCouloirs (<[h := co]> (couloirs st)) st).

(** Modelled from the spec: [couloir.addClientSocket(socket)], section 4.3:
    enqueue the client on the couloir and invoke pairing. *)
Definition addClientSocket (h : string) (i : nat) (st : State) : Result State :=
  co ← defined (couloirs st !! h);
  let st := emit (AddClientSocket h i) st in
  let co := mkCouloir (key co) (hostSockets co) (clientSockets co ++ [i]) in
  bindNextSockets h (setCouloirs (<[h := co]> (couloirs st)) st).

(** Modelled from the spec: [relay.getCouloir(key)], section 4.4: resolve
    the key to its couloir. *)
Definition getCouloir (k : string) (st : State) : option string :=
  h ← byKey st !! k;
  _ ← couloirs st !! h;
  Some h.

(** What [relay.openCouloir(payload)] did: it returned a couloir, or threw. *)
Inductive Opening :=
  | Returned (h k : string)
  | Threw (message : string).

(** Modelled from the spec: the effect of a successful [openCouloir] on the
    registry, section 4.1: register the couloir, with nobody in it yet. *)
Definition register (h k : string) (st : State) : State :=
  setByKey (<[k := h]> (byKey st))
    (setCouloirs (<[h := mkCouloir k [] []]> (couloirs st)) st).

Definition invalidKey : string :=
  "Invalid couloir key. Please restart your couloir client.".

Section WithRelay.

(** [relay.domain], the result of [relay.exposeCommand()], and the two
    renderers [logo(text, { center })] and
    [htmlResponse(headers, body, { status })]. *)
Variable domain : string.
Variable exposeCommand : string.
Variable logo : string → option bool → string.
Variable htmlResponse : Headers → string → option string → string.

(** The [COULOIR_OPEN] handler of socket [i]. *)
Definition onCouloirOpen (i : nat) (opening : Opening) (st : State) : State :=
  let st := onSocket i (setType TYPE_HOST) st in
  match opening with
  | Returned h k =>
      let st := register h k st in
      let st := onSocket i (setHost (Some h)) st in
      emit (Sent i (Response (Opened k h))) st
  | Threw message => emit (Sent i (Response (Error message))) st
  end.

(** The [COULOIR_JOIN] handler of socket [i]. *)
Definition onCouloirJoin (i : nat) (k : string) (st : State) : Result State :=
  match getCouloir k st with
  | Some h =>
      (* Send the ACK already to ensure it goes out before the stream starts *)
      let st := emit (Sent i (Response Joined)) st in
      addHostSocket h i st
  | None => Ok (emit (Sent i (Response (Error invalidKey))) st)
  end.

(** [req.headers["Host"]?.[0]?.replace(/:.*$/, "")] *)
Definition requestedHost (hs : Headers) : option string :=
  values ← hs !! "Host";
  first ← values !! 0;
  Relay.stripPort <$> first.

Definition quote : string := String "034"%char EmptyString.

Definition openHint : string :=
  String Js.LF (String Js.LF "  To open a new couloir, run:") +:+
  String Js.LF "  > ".

Definition truthy (h : option string) : bool :=
  match h with
  | Some s => negb (String.eqb s "")
  | None => false
  end.

(** The client branch of [#listen] on socket [i], once
    [HttpRequest.nextOnSocket] has resolved to [r]. *)
Definition onRequest (i : nat) (r : HttpRequest) (st : State) : Result State :=
  let st := onSocket i (setType TYPE_CLIENT) st in
  let st := onSocket i (setReq r) st in
  let h := requestedHost (headers r) in
  if truthy h && bool_decide (h = Some domain) then
    let page := htmlResponse (headers r)
                  (logo (openHint +:+ exposeCommand) (Some false)) None in
    Ok (emit (Sent i End) (emit (Sent i (Write page)) st))
  else
    match h with
    | Some h' =>
        if truthy h && bool_decide (is_Some (couloirs st !! h')) then
          addClientSocket h' i st
        else
          let page := htmlResponse (headers r)
                        (logo ("404 - Couloir " +:+ quote +:+ h' +:+ quote +:+
                              " is not open") None)
                        (Some "404 Not found") in
          Ok (emit (Sent i End) (emit (Sent i (Write page)) st))
    | None =>
        let page := htmlResponse (headers r)
                      (logo ("404 - Couloir " +:+ quote +:+ "undefined" +:+ quote +:+
                            " is not open") None)
                      (Some "404 Not found") in
        Ok (emit (Sent i End) (emit (Sent i (Write page)) st))
    end.

(** The [catch] of the client branch for [INVALID_PROTOCOL]. *)
Definition onInvalidProtocol (i : nat) (message : string) (st : State) : State :=
  let st := onSocket i (setType TYPE_CLIENT) st in
  let page := "HTTP/1.1 400 Bad Request" +:+ Js.CRLFCRLF +:+ message +:+ "." in
  emit (Sent i End) (emit (Sent i (Write page)) st).

Inductive Event :=
  | Connection
  | CouloirOpen (i : nat) (opening : Opening)
  | CouloirJoin (i : nat) (k : string)
  | Request (i : nat) (r : HttpRequest)
  | InvalidProtocol (i : nat) (message : string)
  | Data (i : nat) (data : string)
  | Ended (i : nat).

Definition onConnection (st : State) : State :=
  mkState (couloirs st) (byKey st) (S (socketCounter st))
          (<[socketCounter st := mkRelaySocket None None false None [] [] []]>
             (sockets st))
          (effects st).

Definition forward (o : Out) (dests : list nat) (st : State) : State :=
  foldl (λ st d, emit (Sent d o) st) st dests.

Definition step (e : Event) (st : State) : Result State :=
  match e with
  | Connection => Ok (onConnection st)
  | CouloirOpen i opening => Ok (onCouloirOpen i opening st)
  | CouloirJoin i k => onCouloirJoin i k st
  | Request i r => onRequest i r st
  | InvalidProtocol i message => Ok (onInvalidProtocol i message st)
  | Data i data =>
      match sockets st !! i with
      | Some s => Ok (forward (Write data) (pipes s ++ reqPipes s) st)
      | None => Ok st
      end
  | Ended i =>
      match sockets st !! i with
      | Some s => Ok (forward End (pipes s ++ ends s) st)
      | None => Ok st
      end
  end.

Fixpoint run (es : list Event) (st : State) : Result State :=
  match es with
  | [] => Ok st
  | e :: es => st ← step e st; run es st
  end.

End WithRelay.

(** Every occurrence of [b] in [l] has an [a] somewhere before it. *)
Definition precedes (a b : Effect) (l : list Effect) : Prop :=
  ∀ l1 l2, l = l1 ++ b :: l2 → a ∈ l1.

(** The ACK of a [COULOIR_JOIN] on socket [i], and the [STREAM] message on
    socket [i]. *)
Definition joinAck (i : nat) : Effect := Sent i (Response Joined).
Definition streamOn (i : nat) : Effect := Sent i (SendMessage COULOIR_STREAM).

(** On every socket the ACK of the join comes before the socket is handed
    to a couloir and before any [STREAM]. *)
Definition ackFirst (l : list Effect) : Prop :=
  (∀ i h, precedes (joinAck i) (AddHostSocket h i) l) ∧
  (∀ i, precedes (joinAck i) (streamOn i) l).

(** The exposer sockets that idle in a couloir have been acknowledged. *)
Definition pooledAcked (st : State) : Prop :=
  ∀ h co e, couloirs st !! h = Some co → e ∈ hostSockets co →
            joinAck e ∈ effects st.

(** The invariant of the runs: ACK first, and idle exposers acknowledged. *)
Definition invariant (st : State) : Prop :=
  ackFirst (effects st) ∧ pooledAcked st.



(** Stand-ins for the absent renderers and settings, for the examples. *)
Definition plainLogo (text : string) (center : option bool) : string := text.
Definition plainHtmlResponse
    (hs : Headers) (body : string) (status : option string) : string :=
  "HTTP/1.1 " +:+ default "200 OK" status +:+ Js.CRLFCRLF +:+ body.
Definition exampleCommand : string := "couloir 8080 --on my.test".

Definition exampleRun :=
  run "my.test" exampleCommand plainLogo plainHtmlResponse.

(** A request whose only header is [Host: <value>]. *)
Definition requestFor (value : string) : HttpRequest :=
  mkHttpRequest {[ "Host" := [Some value] ]}
    ("GET / HTTP/1.1" +:+ Js.CRLF +:+ "Host: " +:+ value +:+ Js.CRLFCRLF).

(** Socket 0 opens [x.my.test], client 1 asks for it and waits, socket 2 is
    connected. *)
Definition beforeJoin : State :=
  match exampleRun
          [Connection; CouloirOpen 0 (Returned "x.my.test" "k1");
           Connection; Request 1 (requestFor "x.my.test:443");
           Connection] initial with
  | Ok st => st
  | _ => initial
  end.

End RelaySocket.

(** ** The head parsers of [src/http.js]

    An object built by [parseHeaders] is the list of its own properties in
    the order [Object.keys] gives them: the array-index keys in ascending
    order, then the other keys in the order of their creation.  What
    [headers[key]] finds on [Object.prototype] is part of the model, as it
    decides what [parseHeaders] does with such a key.  A value that may be
    [undefined] is an [option]. *)

Module Http.

(** [s.split(sep)] for a separator that is not empty: the pieces of [s]
    between the matches of [sep], found from left to right; [skip] counts
    the characters of a matched separator that are still to pass. *)
Fixpoint splitFrom (sep : string) (skip : nat) (s : string) : list string :=
  match s with
  | EmptyString => [EmptyString]
  | String c r =>
      match skip with
      | S k => splitFrom sep k r
      | 0 =>
          if Js.startsWith s sep then
            EmptyString :: splitFrom sep (String.length sep - 1) r
          else
            match splitFrom sep 0 r with
            | p :: ps => String c p :: ps
            | [] => [String c EmptyString]
            end
      end
  end.

Definition split (s sep : string) : list string := splitFrom sep 0 s.

(** String conversion in [Array.prototype.join] and in a template
    literal. *)
Definition joinItem (o : option string) : string :=
  match o with
  | Some s => s
  | None => EmptyString
  end.

Definition interpolated (o : option string) : string :=
  match o with
  | Some s => s
  | None => "undefined"
  end.

(** [l.join(sep)] *)
Fixpoint join (sep : string) (l : list (option string)) : string :=
  match l with
  | [] => EmptyString
  | [x] => joinItem x
  | x :: r => joinItem x +:+ sep +:+ join sep r
  end.

(** *** Objects *)

Definition Obj (A : Type) : Type := list (string * A).

Definition digit (c : ascii) : option N :=
  let n := N_of_ascii c in
  if ((48 <=? n) && (n <=? 57))%N then Some (n - 48)%N else None.

Fixpoint digitsFrom (acc : N) (s : string) : option N :=
  match s with
  | EmptyString => Some acc
  | String c r =>
      match digit c with
      | Some d => digitsFrom (10 * acc + d)%N r
      | None => None
      end
  end.

(** The array index a property key stands for: a canonical numeric string
    below [2^32 - 1]. *)
Definition arrayIndex (k : string) : option N :=
  match k with
  | EmptyString => None
  | String c r =>
      match digitsFrom 0 k with
      | Some n =>
          if (negb (Ascii.eqb c "0") || String.eqb r "") && (n <=? 4294967294)%N
          then Some n else None
      | None => None
      end
  end.

Fixpoint getOwn {A} (k : string) (o : Obj A) : option A :=
  match o with
  | [] => None
  | (k', v) :: o' => if String.eqb k' k then Some v else getOwn k o'
  end.

(** Assignment to an own property that exists. *)
Fixpoint setOwn {A} (k : string) (v : A) (o : Obj A) : Obj A :=
  match o with
  | [] => []
  | (k', v') :: o' =>
      if String.eqb k' k then (k', v) :: o' else (k', v') :: setOwn k v o'
  end.

Fixpoint defineIndex {A} (n : N) (k : string) (v : A) (o : Obj A) : Obj A :=
  match o with
  | [] => [(k, v)]
  | (k', v') :: o' =>
      match arrayIndex k' with
      | Some m =>
          if (m <? n)%N then (k', v') :: defineIndex n k v o' else (k, v) :: o
      | None => (k, v) :: o
      end
  end.

(** Creation of an own property. *)
Definition defineOwn {A} (k : string) (v : A) (o : Obj A) : Obj A :=
  match arrayIndex k with
  | Some n => defineIndex n k v o
  | None => o ++ [(k, v)]
  end.

(** [Object.keys(o)] *)
Definition keys {A} (o : Obj A) : list string := o.*1.

(** The properties of [Object.prototype]. *)
Definition prototypeKeys : list string := Js.prototypeKeys.

Definition isPrototypeKey (k : string) : bool :=
  bool_decide (k ∈ prototypeKeys).

(** *** Heads *)

Abbreviation Headers := (Obj (list (option string))).

(** What [headers[key]] evaluates to: an array of the object's own, a member
    of [Object.prototype] (truthy, and without [push]), or [undefined]. *)
Inductive Member : Type :=
  | Own (values : list (option string))
  | Inherited
  | Undefined.

Definition member (headers : Headers) (key : string) : Member :=
  match getOwn key headers with
  | Some values => Own values
  | None => if isPrototypeKey key then Inherited else Undefined
  end.

(** One turn of the loop of [parseHeaders]. *)
Definition parseHeader (headers : Headers) (line : string) : Result Headers :=
  let pieces := split line ": " in
  let key := interpolated (pieces !! 0) in
  let value := pieces !! 1 in
  match member headers key with
  | Own values => Ok (setOwn key (values ++ [value]) headers)
  | Inherited => TypeError
  | Undefined => Ok (defineOwn key [value] headers)
  end.

Fixpoint parseHeadersFrom (headers : Headers) (headerLines : list string)
  : Result Headers :=
  match headerLines with
  | [] => Ok headers
  | line :: rest =>
      headers ← parseHeader headers line;
      parseHeadersFrom headers rest
  end.

(** [parseHeaders(headerLines)] *)
Definition parseHeaders (headerLines : list string) : Result Headers :=
  parseHeadersFrom [] headerLines.

Record ReqHead : Type := mkReqHead {
  version : option string;
  method : option string;
  path : option string;
  headers : Headers
}.

(** [parseReqHead(head)] *)
Definition parseReqHead (head : string) : Result ReqHead :=
  let headLines := split head Js.CRLF in
  line ← defined (headLines !! 0);
  let pieces := split line " " in
  headers ← parseHeaders (drop 1 headLines);
  Ok (mkReqHead (pieces !! 2) (pieces !! 0) (pieces !! 1) headers).

(** [serializeReqHead({ method, path, version, headers })] *)
Definition serializeReqHead (r : ReqHead) : string :=
  let head := join " " [method r; path r; version r] in
  foldl (λ head '(key, values),
           foldl (λ head value,
                    head +:+ Js.CRLF +:+ key +:+ ": " +:+ interpolated value)
                 head values)
        head (headers r).

Record ResHead : Type := mkResHead {
  resVersion : option string;
  status : option string;
  statusMessage : option string;
  resHeaders : Headers
}.

(** [parseResHead(head)] *)
Definition parseResHead (head : string) : Result ResHead :=
  let headLines := split head Js.CRLF in
  line ← defined (headLines !! 0);
  let pieces := split line " " in
  headers ← parseHeaders (drop 1 headLines);
  Ok (mkResHead (pieces !! 0) (pieces !! 1) (pieces !! 2) headers).

(** *** [pipeHttpRequest(source, target, onHead)]

    The closure state ([headBuffer], [headDone]) and what has been done to
    [target].  [onHead] stands for the callback between the decoding of the
    head and the encoding of what it returns. *)

Record Pipe : Type := mkPipe {
  headBuffer : option string;
  headDone : bool;
  written : list string;
  ended : bool
}.

Definition start : Pipe := mkPipe None false [] false.

Section WithOnHead.

Variable onHead : string → string.

(** The ["data"] listener. *)
Definition onData (data : string) (p : Pipe) : Pipe :=
  if negb (headDone p) then
    let headBuffer :=
      match headBuffer p with
      | Some b => b +:+ data
      | None => data
      end in
    let bodySeparator := Js.indexOf headBuffer Js.CRLFCRLF in
    if (0 <=? bodySeparator)%Z then
      let bodyChunk := Js.dropChars (Z.to_nat bodySeparator) headBuffer in
      let headBuffer := Js.subarray0 headBuffer bodySeparator in
      let newHead := onHead headBuffer in
      mkPipe (Some headBuffer) true (written p ++ [newHead +:+ bodyChunk]) (ended p)
    else mkPipe (Some headBuffer) false (written p) (ended p)
  else mkPipe (headBuffer p) (headDone p) (written p ++ [data]) (ended p).

(** The ["end"] listener. *)
Definition onEnd (p : Pipe) : Pipe :=
  mkPipe (headBuffer p) (headDone p) (written p) true.

(** The source emits [chunks], then ends. *)
Definition feed (chunks : list string) (p : Pipe) : Pipe :=
  foldl (λ p data, onData data p) p chunks.

Definition pipeHttpRequest (chunks : list string) : Pipe :=
  onEnd (feed chunks start).

End WithOnHead.

(** The bytes of a sequence of chunks. *)
Definition bytes (chunks : list string) : string :=
  foldr String.append EmptyString chunks.

(** All that [target] was given. *)
Definition output (p : Pipe) : string := bytes (written p).

(** *** Heads as they are on the wire *)

(** A header line and the head made of a first line and header lines. *)
Definition headerLine (kv : string * string) : string := kv.1 +:+ ": " +:+ kv.2.

Definition wireHead (line : string) (fields : list (string * string)) : string :=
  foldl (λ head kv, head +:+ Js.CRLF +:+ headerLine kv) line fields.

(** A word of a first line: no space, no CR. *)
Definition token (t : string) : bool :=
  Relay.avoids " " t && Relay.avoids Js.CR t.

(** A header name as it is usual: no colon, no CR, not an array index and
    not a name found on [Object.prototype]. *)
Definition fieldName (k : string) : bool :=
  Relay.avoids ":" k && Relay.avoids Js.CR k &&
  negb (isPrototypeKey k) && bool_decide (arrayIndex k = None).

(** A header value that holds no [": "] and no CR. *)
Definition fieldValue (x : string) : bool :=
  negb (Js.includes x ": ") && Relay.avoids Js.CR x.

(** The properties that a parser makes of such fields. *)
Definition properties (fields : list (string * string)) : Headers :=
  (λ kv, (kv.1, [Some kv.2])) <$> fields.

End Http.

(** * Facts about request heads *)

#[local] Arguments Js.startsWith : simpl never.

Module RequestFacts.
Import Relay.

Lemma append_assoc (a b c : string) : (a +:+ b) +:+ c = a +:+ (b +:+ c).
Proof. induction a as [|x a IH]; cbn; [done|]. by rewrite IH. Qed.

Lemma startsWith_cons_ne c s p x :
  c ≠ x → Js.startsWith (String c s) (String x p) = false.
Proof.
  intros Hne. unfold Js.startsWith. cbn.
  destruct (ascii_dec x c); [congruence|done].
Qed.

Lemma startsWith_cons_eq c s p :
  Js.startsWith (String c s) (String c p) = Js.startsWith s p.
Proof.
  unfold Js.startsWith. cbn. destruct (ascii_dec c c); [done|congruence].
Qed.

Lemma startsWith_app p s : Js.startsWith (p +:+ s) p = true.
Proof.
  unfold Js.startsWith. induction p as [|c p IH]; [by destruct s|].
  cbn. by destruct (ascii_dec c c).
Qed.

(** *** [indexOf] *)

Lemma indexOfFrom_shift needle s i :
  (Js.indexOfFrom needle s 0 = (-1)%Z ∧ Js.indexOfFrom needle s i = (-1)%Z) ∨
  ((0 ≤ Js.indexOfFrom needle s 0)%Z ∧
   Js.indexOfFrom needle s i = (i + Js.indexOfFrom needle s 0)%Z).
Proof.
  revert i. induction s as [|c s IH]; intros i; cbn [Js.indexOfFrom].
  - destruct (Js.startsWith "" needle); [right; lia|left; done].
  - destruct (Js.startsWith (String c s) needle); [right; lia|].
    destruct (IH (i + 1)%Z) as [[H0 Hi]|[H0 Hi]],
             (IH (0 + 1)%Z) as [[H0' H1]|[H0' H1]];
      first [lia | left; lia | right; lia].
Qed.

Lemma headOf_cons c s :
  Js.startsWith (String c s) Js.CRLFCRLF = false →
  headOf (String c s) = String c <$> headOf s.
Proof.
  intros Hno. unfold headOf, Js.indexOf. cbn [Js.indexOfFrom]. rewrite Hno.
  destruct (indexOfFrom_shift Js.CRLFCRLF s (0 + 1)) as [[H0 H1]|[H0 H1]];
    rewrite H1.
  - rewrite H0. by rewrite !bool_decide_eq_true_2.
  - rewrite !bool_decide_eq_false_2 by lia.
    unfold Js.subarray0.
    replace (Z.to_nat (0 + 1 + Js.indexOfFrom Js.CRLFCRLF s 0 + 2))
      with (S (Z.to_nat (Js.indexOfFrom Js.CRLFCRLF s 0 + 2))) by lia.
    reflexivity.
Qed.

Lemma headOf_end s : headOf (Js.CRLFCRLF +:+ s) = Some Js.CRLF.
Proof.
  unfold headOf, Js.indexOf.
  change (Js.CRLFCRLF +:+ s)
    with (String Js.CR (String Js.LF (String Js.CR (String Js.LF s)))).
  cbn [Js.indexOfFrom].
  change (String Js.CR (String Js.LF (String Js.CR (String Js.LF s))))
    with (Js.CRLFCRLF +:+ s).
  rewrite startsWith_app. rewrite bool_decide_eq_false_2 by lia. reflexivity.
Qed.

Lemma avoids_cons c a s :
  avoids c (String a s) = true → a ≠ c ∧ avoids c s = true.
Proof.
  cbn. intros [Ha Hs]%andb_true_iff. split; [|done].
  apply negb_true_iff, Ascii.eqb_neq in Ha. done.
Qed.

Lemma headOf_line l s :
  avoids Js.CR l = true → headOf (l +:+ s) = (λ t, l +:+ t) <$> headOf s.
Proof.
  induction l as [|c l IH]; intros Hl; cbn.
  - by destruct (headOf s).
  - apply avoids_cons in Hl as [Hc Hl].
    rewrite headOf_cons by (by apply startsWith_cons_ne).
    rewrite (IH Hl). by destruct (headOf s).
Qed.

(** A CRLF that a non-empty plain line follows does not end the head. *)
Lemma headOf_header l s :
  plainLine l = true →
  headOf (Js.CRLF +:+ l +:+ s) = (λ t, Js.CRLF +:+ l +:+ t) <$> headOf s.
Proof.
  intros [Hne Hl]%andb_true_iff.
  destruct l as [|c l]; [done|].
  pose proof Hl as Hl'. apply avoids_cons in Hl' as [Hc _].
  change (Js.CRLF +:+ String c l +:+ s)
    with (String Js.CR (String Js.LF (String c l +:+ s))).
  rewrite headOf_cons.
  2:{ unfold Js.CRLFCRLF, Js.CRLF.
      cbn. rewrite !startsWith_cons_eq. by apply startsWith_cons_ne. }
  rewrite headOf_cons by (by apply startsWith_cons_ne).
  rewrite (headOf_line _ _ Hl). by destruct (headOf s).
Qed.

Lemma headOf_headerLines ls s :
  Forall (λ l, plainLine l = true) ls →
  headOf (headerLines ls +:+ s) = (λ t, headerLines ls +:+ t) <$> headOf s.
Proof.
  induction 1 as [|l ls Hl _ IH]; cbn [headerLines foldr].
  - cbn. by destruct (headOf s).
  - fold (headerLines ls). rewrite !append_assoc.
    rewrite (headOf_header _ _ Hl), IH. destruct (headOf s); cbn; [|done].
    by rewrite !append_assoc.
Qed.

(** The head of a well-formed request: everything up to and including the
    CRLF of its last header line. *)
Lemma headOf_requestWithHost requestLine before value after body :
  avoids Js.CR requestLine = true →
  Forall (λ l, plainLine l = true) before →
  plainLine ("Host: " +:+ value) = true →
  Forall (λ l, plainLine l = true) after →
  headOf (requestWithHost requestLine before value after body) =
    Some (requestLine +:+ headerLines before +:+
          Js.CRLF +:+ "Host: " +:+ value +:+ headerLines after +:+ Js.CRLF).
Proof.
  intros Hreq Hbefore Hvalue Hafter. unfold requestWithHost.
  rewrite (headOf_line _ _ Hreq), (headOf_headerLines _ _ Hbefore).
  change (Js.CRLF +:+ "Host: " +:+ value +:+ headerLines after +:+ Js.CRLFCRLF +:+ body)
    with (Js.CRLF +:+ ("Host: " +:+ value) +:+
          headerLines after +:+ Js.CRLFCRLF +:+ body).
  rewrite (headOf_header _ _ Hvalue), (headOf_headerLines _ _ Hafter).
  rewrite headOf_end. reflexivity.
Qed.

(** *** [HOST_MATCH] *)

Lemma hostMatchHere_cons_ne c s : c ≠ Js.CR → hostMatchHere (String c s) = None.
Proof.
  intros Hc. unfold hostMatchHere, HOST_PREFIX, Js.CRLF. cbn.
  by rewrite startsWith_cons_ne.
Qed.

Lemma HOST_MATCH_cons c s :
  hostMatchHere (String c s) = None → HOST_MATCH (String c s) = HOST_MATCH s.
Proof.
  intros Hnone. change (HOST_MATCH (String c s))
    with (match hostMatchHere (String c s) with
          | Some g => Some g
          | None => HOST_MATCH s
          end).
  by rewrite Hnone.
Qed.

Lemma HOST_MATCH_here s g : hostMatchHere s = Some g → HOST_MATCH s = Some g.
Proof. intros Hg. destruct s; cbn [HOST_MATCH]; by rewrite Hg. Qed.

Lemma HOST_MATCH_cons_ne c s : c ≠ Js.CR → HOST_MATCH (String c s) = HOST_MATCH s.
Proof. intros Hc. by apply HOST_MATCH_cons, hostMatchHere_cons_ne. Qed.

Lemma HOST_MATCH_line l s :
  avoids Js.CR l = true → HOST_MATCH (l +:+ s) = HOST_MATCH s.
Proof.
  induction l as [|c l IH]; intros Hl; [done|].
  apply avoids_cons in Hl as [Hc Hl]. cbn [String.append].
  rewrite HOST_MATCH_cons_ne by done. by apply IH.
Qed.

(** A line that does not start with [p] cannot borrow the missing characters
    from the CR that ends it. *)
Lemma startsWith_line p l s :
  avoids Js.CR p = true →
  Js.startsWith l p = false →
  Js.startsWith (l +:+ String Js.CR s) p = false.
Proof.
  revert l. induction p as [|x p IH]; intros l Hp Hl.
  - by destruct l.
  - apply avoids_cons in Hp as [Hx Hp].
    destruct l as [|c l]; cbn [String.append].
    + by apply startsWith_cons_ne.
    + destruct (decide (c = x)) as [->|Hcx].
      * rewrite startsWith_cons_eq in *. by apply IH.
      * by apply startsWith_cons_ne.
Qed.

Lemma HOST_MATCH_header l s :
  otherHeader l = true →
  HOST_MATCH (Js.CRLF +:+ l +:+ String Js.CR s) = HOST_MATCH (String Js.CR s).
Proof.
  intros [[Hne Hl]%andb_true_iff Hhost%negb_true_iff]%andb_true_iff.
  change (Js.CRLF +:+ l +:+ String Js.CR s)
    with (String Js.CR (String Js.LF (l +:+ String Js.CR s))).
  rewrite HOST_MATCH_cons.
  2:{ unfold hostMatchHere, HOST_PREFIX, Js.CRLF. cbn [String.append].
      rewrite !startsWith_cons_eq.
      by rewrite startsWith_line. }
  rewrite HOST_MATCH_cons_ne by done.
  by apply HOST_MATCH_line.
Qed.

Lemma headerLines_CR ls s :
  ∃ t, headerLines ls +:+ String Js.CR s = String Js.CR t.
Proof. destruct ls as [|l ls]; cbn; eauto. Qed.

Lemma HOST_MATCH_headerLines ls s :
  Forall (λ l, otherHeader l = true) ls →
  HOST_MATCH (headerLines ls +:+ String Js.CR s) = HOST_MATCH (String Js.CR s).
Proof.
  induction 1 as [|l ls Hl _ IH]; [done|].
  cbn [headerLines foldr]. fold (headerLines ls). rewrite !append_assoc.
  destruct (headerLines_CR ls s) as [t Ht]. rewrite Ht in *.
  by rewrite (HOST_MATCH_header _ _ Hl).
Qed.

Lemma noLineTerminator_cons c s :
  Js.noLineTerminator (String c s) = true →
  Js.isLineTerminator c = false ∧ Js.noLineTerminator s = true.
Proof. cbn. intros [Hc Hs]%andb_true_iff. by apply negb_true_iff in Hc. Qed.

Lemma dotRun_line v s :
  Js.noLineTerminator v = true →
  Js.dotRun (v +:+ String Js.CR s) = (v, String Js.CR s).
Proof.
  induction v as [|c v IH]; intros Hv; [done|].
  apply noLineTerminator_cons in Hv as [Hc Hv].
  cbn [String.append Js.dotRun]. by rewrite Hc, (IH Hv).
Qed.

(** The regular expression matches at a [Host: ] line with a non-empty
    value, and captures the value. *)
Lemma hostMatchHere_host v s :
  v ≠ EmptyString → Js.noLineTerminator v = true →
  hostMatchHere (Js.CRLF +:+ "Host: " +:+ v +:+ Js.CRLF +:+ s) = Some v.
Proof.
  intros Hne Hv. unfold hostMatchHere.
  change (Js.CRLF +:+ "Host: " +:+ v +:+ Js.CRLF +:+ s)
    with (HOST_PREFIX +:+ (v +:+ String Js.CR (String Js.LF s))).
  rewrite startsWith_app.
  change (Js.dropChars 8 (HOST_PREFIX +:+ (v +:+ String Js.CR (String Js.LF s))))
    with (v +:+ String Js.CR (String Js.LF s)).
  rewrite (dotRun_line _ _ Hv).
  apply String.eqb_neq in Hne. rewrite Hne.
  change (String Js.CR (String Js.LF s)) with (Js.CRLF +:+ s).
  by rewrite startsWith_app.
Qed.

Lemma HOST_MATCH_requestHead requestLine before v after :
  avoids Js.CR requestLine = true →
  Forall (λ l, otherHeader l = true) before →
  v ≠ EmptyString → Js.noLineTerminator v = true →
  HOST_MATCH (requestLine +:+ headerLines before +:+
              Js.CRLF +:+ "Host: " +:+ v +:+ headerLines after +:+ Js.CRLF)
    = Some v.
Proof.
  intros Hreq Hbefore Hne Hv.
  rewrite (HOST_MATCH_line _ _ Hreq).
  change (Js.CRLF +:+ "Host: " +:+ v +:+ headerLines after +:+ Js.CRLF)
    with (String Js.CR (String Js.LF ("Host: " +:+ v +:+ headerLines after +:+ Js.CRLF))).
  rewrite (HOST_MATCH_headerLines _ _ Hbefore).
  destruct (headerLines_CR after (String Js.LF "")) as [t Ht].
  change (headerLines after +:+ Js.CRLF)
    with (headerLines after +:+ String Js.CR (String Js.LF "")).
  rewrite Ht.
  destruct t as [|c t].
  { destruct after; discriminate. }
  assert (c = Js.LF) as ->.
  { destruct after; cbn in Ht; congruence. }
  apply HOST_MATCH_here.
  change (String Js.CR (String Js.LF ("Host: " +:+ v +:+ String Js.CR (String Js.LF t))))
    with (Js.CRLF +:+ "Host: " +:+ v +:+ Js.CRLF +:+ t).
  by apply hostMatchHere_host.
Qed.

(** *** [stripPort] *)

Lemma stripPort_plain h : avoids ":" h = true → stripPort h = h.
Proof.
  induction h as [|c h IH]; intros Hh; [done|].
  apply avoids_cons in Hh as [Hc Hh]. cbn [stripPort].
  apply Ascii.eqb_neq in Hc. rewrite Hc. cbn. by rewrite IH.
Qed.

Lemma stripPort_port h p :
  avoids ":" h = true → Js.noLineTerminator p = true →
  stripPort (h +:+ ":" +:+ p) = h.
Proof.
  intros Hh Hp. induction h as [|c h IH].
  - cbn. by rewrite Hp.
  - apply avoids_cons in Hh as [Hc Hh]. cbn [String.append stripPort].
    apply Ascii.eqb_neq in Hc. rewrite Hc. cbn. f_equal. by apply IH.
Qed.

Lemma stripPort_hostValue h port :
  avoids ":" h = true →
  from_option Js.noLineTerminator true port = true →
  stripPort (hostValue h port) = h.
Proof.
  destruct port as [p|]; cbn [hostValue from_option]; intros Hh Hp.
  - by apply stripPort_port.
  - by apply stripPort_plain.
Qed.

Lemma startsWith_substring buf k p :
  Js.startsWith (substring 0 k buf) p = true → Js.startsWith buf p = true.
Proof.
  revert buf k. induction p as [|x p IH]; intros buf k.
  - by destruct buf.
  - destruct buf as [|c buf], k as [|k]; cbn [substring]; try done.
    destruct (decide (c = x)) as [->|Hcx].
    + rewrite !startsWith_cons_eq. apply IH.
    + by rewrite startsWith_cons_ne.
Qed.

Lemma includes_substring buf k p :
  Js.includes (substring 0 k buf) p = true → Js.includes buf p = true.
Proof.
  revert k. induction buf as [|c buf IH]; intros k.
  - by destruct k.
  - destruct k as [|k].
    + cbn [substring Js.includes].
      intros Hp%orb_true_iff. apply orb_true_iff. left.
      destruct Hp as [Hp|]; [|done]. by destruct p.
    + change (substring 0 (S k) (String c buf))
        with (String c (substring 0 k buf)).
      cbn [Js.includes].
      intros [Hp|Hp]%orb_true_iff; apply orb_true_iff.
      * left. by apply (startsWith_substring (String c buf) (S k)).
      * right. by apply (IH k).
Qed.

Lemma HOST_MATCH_includes t g :
  HOST_MATCH t = Some g → Js.includes t HOST_PREFIX = true.
Proof.
  induction t as [|c t IH]; cbn [HOST_MATCH Js.includes].
  - done.
  - unfold hostMatchHere at 1.
    destruct (Js.startsWith (String c t) HOST_PREFIX); [done|].
    cbn. apply IH.
Qed.

Lemma HOST_MATCH_absent buf n :
  Js.includes buf HOST_PREFIX = false →
  HOST_MATCH (Js.subarray0 buf n) = None.
Proof.
  intros Hno. destruct (HOST_MATCH (Js.subarray0 buf n)) as [g|] eqn:Hg; [|done].
  apply HOST_MATCH_includes, includes_substring in Hg. congruence.
Qed.

Lemma avoids_CR_noLineTerminator s :
  Js.noLineTerminator s = true → avoids Js.CR s = true.
Proof.
  induction s as [|c s IH]; [done|].
  intros [Hc Hs]%noLineTerminator_cons. cbn.
  rewrite (IH Hs), andb_true_r. apply negb_true_iff.
  unfold Js.isLineTerminator in Hc. by apply orb_false_iff in Hc as [-> _].
Qed.

Lemma noLineTerminator_app a b :
  Js.noLineTerminator a = true → Js.noLineTerminator b = true →
  Js.noLineTerminator (a +:+ b) = true.
Proof.
  intros Ha Hb. induction a as [|c a IH]; [done|].
  apply noLineTerminator_cons in Ha as [Hc Ha]. cbn.
  by rewrite Hc, (IH Ha).
Qed.

Lemma hostName_inv h :
  hostName h = true →
  h ≠ EmptyString ∧ avoids ":" h = true ∧ Js.noLineTerminator h = true.
Proof.
  unfold hostName. intros [[Hne Hcolon]%andb_true_iff Hlt]%andb_true_iff.
  by apply negb_true_iff, String.eqb_neq in Hne.
Qed.

Lemma hostValue_ok h port :
  hostName h = true →
  from_option Js.noLineTerminator true port = true →
  hostValue h port ≠ EmptyString ∧
  Js.noLineTerminator (hostValue h port) = true.
Proof.
  intros (Hne & _ & Hlt)%hostName_inv Hport.
  destruct port as [p|]; cbn [hostValue from_option] in *; [|done].
  split; [by destruct h|]. by apply noLineTerminator_app.
Qed.

End RequestFacts.

(** * Properties of the relay of [src/relay.js] *)

Module RelayProofs.
Import Relay RequestFacts.

(** ** Socket store *)

Lemma registry_onSocket i f st : registry (onSocket i f st) = registry st.
Proof. reflexivity. Qed.

Lemma sockets_onSocket i f st :
  sockets (onSocket i f st) = alter f i (sockets st).
Proof. reflexivity. Qed.

Lemma sockets_onSocket_ne i j f st :
  i ≠ j → sockets (onSocket i f st) !! j = sockets st !! j.
Proof. intros Hne. rewrite sockets_onSocket. by apply lookup_alter_ne. Qed.

Lemma sockets_onSocket_eq i f st s :
  sockets st !! i = Some s → sockets (onSocket i f st) !! i = Some (f s).
Proof. intros Hs. rewrite sockets_onSocket, lookup_alter_eq. by rewrite Hs. Qed.

Lemma sentOn_sendResponse i p st s :
  sockets st !! i = Some s →
  sentOn (sendResponse i p st) i = sent s ++ [Response p].
Proof.
  intros Hs. unfold sentOn, sendResponse.
  by rewrite (sockets_onSocket_eq _ _ _ _ Hs).
Qed.

(** ** Opening a couloir *)

Section Open.

Variable domain : string.

Lemma chosenHost_custom st h :
  Js.endsWith h ("." +:+ domain) = true → chosenHost domain st h = h.
Proof. unfold chosenHost. by intros ->. Qed.

Lemma chosenHost_default st h :
  Js.endsWith h ("." +:+ domain) = false →
  chosenHost domain st h =
    "couloir" +:+
    (if bool_decide (1 < couloirCounter st)
     then Js.numberToString (couloirCounter st) else "") +:+ "." +:+ domain.
Proof. unfold chosenHost. by intros ->. Qed.

Lemma chosenHost_setType st i t h :
  chosenHost domain (onSocket i (setType t) st) h = chosenHost domain st h.
Proof. reflexivity. Qed.

(** The rejected branch of [onCouloirOpen], as a whole. *)
Lemma onCouloirOpen_taken st i h key :
  is_Some (hosts st !! chosenHost domain st h) →
  onCouloirOpen domain i h key st =
    sendResponse i
      (Error ("Couloir host " +:+ chosenHost domain st h +:+ " is already opened"))
      (onSocket i (setType TYPE_HOST) st).
Proof.
  intros [hs Hhs]. unfold onCouloirOpen.
  rewrite chosenHost_setType. cbn [hosts onSocket setSockets].
  by rewrite Hhs.
Qed.

(** The accepted branch of [onCouloirOpen], field by field. *)
Lemma onCouloirOpen_free st i h key s :
  sockets st !! i = Some s →
  hosts st !! chosenHost domain st h = None →
  let h' := chosenHost domain st h in
  let st' := onCouloirOpen domain i h key st in
  hosts st' = <[h' := []]> (hosts st) ∧
  clients st' = <[h' := []]> (clients st) ∧
  keyToHost st' = <[key := h']> (keyToHost st) ∧
  couloirCounter st' = S (couloirCounter st) ∧
  sentOn st' i = sent s ++ [Response (Opened key h')].
Proof.
  intros Hs Hfree h' st'. subst h' st'. unfold onCouloirOpen.
  rewrite chosenHost_setType. cbn [hosts onSocket setSockets].
  rewrite Hfree. repeat split.
  unfold sentOn, sendResponse. cbn.
  rewrite !lookup_alter_eq, Hs. reflexivity.
Qed.

End Open.

(** C7 — duplicate open.  When the host [onCouloirOpen] settles on is already
    registered, the socket is answered exactly
    [{error: "Couloir host <h> is already opened"}]; the counter, [hosts],
    [clients] and [keyToHost] are left as they were, and so is every other
    socket (the requesting socket only records that it is an exposer). *)
Theorem C7_duplicate_open_rejected (domain : string) st i h key s :
  sockets st !! i = Some s →
  is_Some (hosts st !! chosenHost domain st h) →
  let st' := onCouloirOpen domain i h key st in
  sentOn st' i =
    sent s ++
    [Response (Error ("Couloir host " +:+ chosenHost domain st h +:+
                      " is already opened"))] ∧
  registry st' = registry st ∧
  socketCounter st' = socketCounter st ∧
  (∀ j, j ≠ i → sockets st' !! j = sockets st !! j).
Proof.
  intros Hs Htaken st'. subst st'.
  rewrite (onCouloirOpen_taken _ _ _ _ _ Htaken).
  split; [|split; [|split]].
  - unfold sentOn, sendResponse. cbn. rewrite !lookup_alter_eq, Hs. reflexivity.
  - reflexivity.
  - reflexivity.
  - intros j Hj. unfold sendResponse.
    by rewrite !sockets_onSocket_ne.
Qed.

Lemma C7_duplicate_open_rejected_witness :
  sentOn (onCouloirOpen "my.test" 0 "x.my.test" "k2" xOpen) 0 =
    [Response (Opened "k1" "x.my.test");
     Response (Error "Couloir host x.my.test is already opened")] ∧
  registry (onCouloirOpen "my.test" 0 "x.my.test" "k2" xOpen) = registry xOpen.
Proof.
  pose proof (C7_duplicate_open_rejected "my.test" xOpen 0 "x.my.test" "k2"
    (mkRelaySocket 0 (Some "x.my.test") "" TYPE_HOST false true []
                   [Response (Opened "k1" "x.my.test")])) as H.
  destruct H as (Hsent & Hreg & _).
  - vm_compute. reflexivity.
  - vm_compute. eauto.
  - split; [exact Hsent | exact Hreg].
Defined.

(** C3 — default names.  On a relay for [my.test], two default opens in a
    row: the first is acknowledged with [couloir.my.test]; the second is
    answered with an error, not with [couloir2.my.test], and the counter stays
    at 1 so that every later default open fails the same way. *)
Theorem C3_second_default_open_is_rejected :
  ∃ st,
    run "my.test"
      [Connection; OpenCouloir 0 "" "k1"; Connection; OpenCouloir 1 "" "k2";
       Connection; OpenCouloir 2 "" "k3"] initial = Ok st ∧
    sentOn st 0 = [Response (Opened "k1" "couloir.my.test")] ∧
    sentOn st 1 = [Response (Error "Couloir host couloir.my.test is already opened")] ∧
    sentOn st 2 = [Response (Error "Couloir host couloir.my.test is already opened")] ∧
    couloirCounter st = 1 ∧
    hosts st !! "couloir2.my.test" = None.
Proof. eexists. split; [vm_compute; reflexivity|]. vm_compute. done. Qed.

(** While [couloir.<domain>] is open and the counter has not passed 1, every
    default open is turned down and changes nothing in the registry. *)
Lemma default_open_stuck (domain : string) st i h key :
  Js.endsWith h ("." +:+ domain) = false →
  couloirCounter st ≤ 1 →
  is_Some (hosts st !! ("couloir." +:+ domain)) →
  onCouloirOpen domain i h key st =
    sendResponse i
      (Error ("Couloir host couloir." +:+ domain +:+ " is already opened"))
      (onSocket i (setType TYPE_HOST) st) ∧
  registry (onCouloirOpen domain i h key st) = registry st.
Proof.
  intros Hh Hc Hopen.
  assert (chosenHost domain st h = "couloir." +:+ domain) as Hchosen.
  { rewrite chosenHost_default by done.
    by rewrite bool_decide_eq_false_2 by lia. }
  rewrite onCouloirOpen_taken by (by rewrite Hchosen).
  by rewrite Hchosen.
Qed.

(** For comparison: the numbered name appears once the counter has passed 1,
    that is for the third couloir ever opened. *)
Lemma default_name_after_two_opens (domain : string) st h :
  Js.endsWith h ("." +:+ domain) = false →
  couloirCounter st = 2 →
  chosenHost domain st h = "couloir2." +:+ domain.
Proof.
  intros Hh Hc. rewrite chosenHost_default by done. by rewrite Hc.
Qed.

(** C8 — custom names, as the code has them.  A requested name that ends with
    [.<relayDomain>] is taken verbatim: when it is not open yet it is
    registered and acknowledged, whatever its label is made of.  A name that
    does not end with [.<relayDomain>] is replaced by the default name, which
    is registered and acknowledged when it is not open yet.  The only
    request that [onCouloirOpen] turns down is one whose name, as given or
    as replaced, is already open. *)
Theorem C8_custom_name_taken_verbatim (domain : string) st i h key s :
  sockets st !! i = Some s →
  (Js.endsWith h ("." +:+ domain) = true →
   hosts st !! h = None →
   let st' := onCouloirOpen domain i h key st in
   hosts st' !! h = Some [] ∧
   clients st' !! h = Some [] ∧
   keyToHost st' !! key = Some h ∧
   sentOn st' i = sent s ++ [Response (Opened key h)]) ∧
  (Js.endsWith h ("." +:+ domain) = false →
   let h' := "couloir" +:+
             (if bool_decide (1 < couloirCounter st)
              then Js.numberToString (couloirCounter st) else "") +:+
             "." +:+ domain in
   hosts st !! h' = None →
   let st' := onCouloirOpen domain i h key st in
   hosts st' !! h' = Some [] ∧
   clients st' !! h' = Some [] ∧
   keyToHost st' !! key = Some h' ∧
   sentOn st' i = sent s ++ [Response (Opened key h')]) ∧
  (let h' := chosenHost domain st h in
   let st' := onCouloirOpen domain i h key st in
   (hosts st !! h' = None ∧
    sentOn st' i = sent s ++ [Response (Opened key h')]) ∨
   (is_Some (hosts st !! h') ∧
    sentOn st' i =
      sent s ++ [Response (Error ("Couloir host " +:+ h' +:+ " is already opened"))])).
Proof.
  intros Hs.
  assert (∀ h', chosenHost domain st h = h' → hosts st !! h' = None →
            let st' := onCouloirOpen domain i h key st in
            hosts st' !! h' = Some [] ∧ clients st' !! h' = Some [] ∧
            keyToHost st' !! key = Some h' ∧
            sentOn st' i = sent s ++ [Response (Opened key h')]) as Hopen.
  { intros h' Hch Hfree st'. subst st'.
    destruct (onCouloirOpen_free domain st i h key s Hs) as (Hh & Hc & Hk & _ & Hsent).
    { by rewrite Hch. }
    rewrite Hch in *. rewrite Hh, Hc, Hk, Hsent.
    by rewrite !lookup_insert_eq. }
  split; [|split].
  - intros Hend. apply Hopen. by apply chosenHost_custom.
  - intros Hend. apply Hopen. by apply chosenHost_default.
  - cbn zeta. destruct (hosts st !! chosenHost domain st h) as [hs|] eqn:Hh.
    + right. split; [by eauto|].
      rewrite onCouloirOpen_taken by (rewrite Hh; eauto).
      rewrite (sentOn_sendResponse i _ _ (setType TYPE_HOST s));
        [done|by apply sockets_onSocket_eq].
    + left. split; [done|]. by apply (Hopen _ eq_refl Hh).
Qed.

Lemma C8_custom_name_taken_verbatim_witness :
  (let st' := onCouloirOpen "my.test" 0 "Bad_Name!.my.test" "k1" (onConnection initial) in
   hosts st' !! "Bad_Name!.my.test" = Some [] ∧
   sentOn st' 0 = [Response (Opened "k1" "Bad_Name!.my.test")]) ∧
  (let st' := onCouloirOpen "my.test" 0 "nodomain" "k1" (onConnection initial) in
   hosts st' !! "couloir.my.test" = Some [] ∧
   sentOn st' 0 = [Response (Opened "k1" "couloir.my.test")]).
Proof.
  split.
  - destruct (C8_custom_name_taken_verbatim "my.test" (onConnection initial) 0
                "Bad_Name!.my.test" "k1"
                (mkRelaySocket 0 None "" TYPE_CLIENT false true [] []))
      as [H _]; [vm_compute; reflexivity|].
    destruct H as (Hh & _ & _ & Hsent); [vm_compute; reflexivity..|].
    split; [exact Hh | exact Hsent].
  - destruct (C8_custom_name_taken_verbatim "my.test" (onConnection initial) 0
                "nodomain" "k1"
                (mkRelaySocket 0 None "" TYPE_CLIENT false true [] []))
      as (_ & H & _); [vm_compute; reflexivity|].
    destruct H as (Hh & _ & _ & Hsent); [vm_compute; reflexivity..|].
    split; [exact Hh | exact Hsent].
Defined.

(** C8 as the specification words it does not hold: neither
    [Bad_Name!.my.test] nor [nodomain] fits [^[a-z0-9-]+\.my\.test$], yet
    neither request is rejected: the first name is registered and
    acknowledged as it is, the second is replaced by the default name. *)
Lemma C8_unvalidated_name_counterexample :
  (specNamePattern "my.test" "Bad_Name!.my.test" = false ∧
   ∃ st,
     run "my.test" [Connection; OpenCouloir 0 "Bad_Name!.my.test" "k1"] initial = Ok st ∧
     hosts st !! "Bad_Name!.my.test" = Some [] ∧
     keyToHost st !! "k1" = Some "Bad_Name!.my.test" ∧
     sentOn st 0 = [Response (Opened "k1" "Bad_Name!.my.test")]) ∧
  (specNamePattern "my.test" "nodomain" = false ∧
   ∃ st,
     run "my.test" [Connection; OpenCouloir 0 "nodomain" "k1"] initial = Ok st ∧
     hosts st !! "couloir.my.test" = Some [] ∧
     keyToHost st !! "k1" = Some "couloir.my.test" ∧
     sentOn st 0 = [Response (Opened "k1" "couloir.my.test")]).
Proof.
  split.
  - split; [vm_compute; reflexivity|].
    eexists. split; [vm_compute; reflexivity|]. vm_compute. done.
  - split; [vm_compute; reflexivity|].
    eexists. split; [vm_compute; reflexivity|]. vm_compute. done.
Qed.

(** ** Teardown *)

Lemma closeCouloirIfEmpty_nonempty h st j hs :
  hosts st !! h = Some (j :: hs) → closeCouloirIfEmpty h st = Ok st.
Proof.
  intros Hh. unfold closeCouloirIfEmpty. rewrite Hh. cbn.
  rewrite bool_decide_eq_true_2 by lia. reflexivity.
Qed.

Lemma closeCouloirIfEmpty_empty h st :
  hosts st !! h = Some [] →
  closeCouloirIfEmpty h st =
    Ok (setKeyToHost (filter (λ kv, kv.2 ≠ h) (keyToHost st))
          (setClients (delete h (clients st))
             (setHosts (delete h (hosts st)) st))).
Proof.
  intros Hh. unfold closeCouloirIfEmpty. rewrite Hh. cbn.
  rewrite bool_decide_eq_false_2 by lia. reflexivity.
Qed.

Lemma onSocketEnd_exposer st i s h hs :
  sockets st !! i = Some s →
  host s = Some h → h ≠ EmptyString → type s = TYPE_HOST →
  hosts st !! h = Some hs →
  onSocketEnd i st =
    closeCouloirIfEmpty h
      (setHosts (<[h := filter (λ j, j ≠ id s) hs]> (hosts st)) st).
Proof.
  intros Hs Hhost Hne Hty Hh. unfold onSocketEnd. rewrite Hs, Hhost.
  apply String.eqb_neq in Hne. rewrite Hne, Hty, Hh.
  by rewrite bool_decide_eq_true_2.
Qed.

Lemma registry_forward o dests st : registry (forward o dests st) = registry st.
Proof.
  unfold forward. revert st.
  induction dests as [|d dests IH]; intros st; [done|].
  cbn [foldl]. by rewrite IH.
Qed.

(** C4 — teardown, as the code has it.  When an exposer socket of a
    registered couloir disconnects, the couloir is deleted iff no other
    exposer socket, idle or bound, is left in [hosts[host]].  Deletion drops
    the [hosts] and [clients] entries and every key that maps to the host;
    otherwise nothing but the exposer list changes.  The clients that wait in
    [clients[host]] play no part in the decision. *)
Theorem C4_deleted_iff_no_exposer_left (domain : string) st i s h hs :
  sockets st !! i = Some s →
  host s = Some h → h ≠ EmptyString → type s = TYPE_HOST →
  hosts st !! h = Some hs →
  ∃ st',
    step domain (Ended i) st = Ok st' ∧
    (hosts st' !! h = None ↔ filter (λ j, j ≠ id s) hs = []) ∧
    (filter (λ j, j ≠ id s) hs = [] →
       clients st' !! h = None ∧ ∀ k, keyToHost st' !! k ≠ Some h) ∧
    (filter (λ j, j ≠ id s) hs ≠ [] →
       hosts st' !! h = Some (filter (λ j, j ≠ id s) hs) ∧
       clients st' = clients st ∧ keyToHost st' = keyToHost st).
Proof.
  intros Hs Hhost Hne Hty Hh. cbn [step].
  rewrite (onSocketEnd_exposer _ _ _ _ _ Hs Hhost Hne Hty Hh).
  destruct (filter (λ j, j ≠ id s) hs) as [|j rest] eqn:Hleft.
  - rewrite closeCouloirIfEmpty_empty by (cbn; apply lookup_insert_eq).
    eexists. split; [reflexivity|].
    match goal with |- context [forward End ?d ?st1] =>
      pose proof (registry_forward End d st1) as Hreg;
      generalize dependent (forward End d st1)
    end.
    intros st' [= Hc Hhosts Hclients Hkeys].
    rewrite Hhosts, Hclients, Hkeys. cbn. split; [|split].
    + split; [done|]. intros _. apply lookup_delete_eq.
    + intros _. split; [apply lookup_delete_eq|].
      intros k Hk. apply map_lookup_filter_Some in Hk as [_ Hk]. by apply Hk.
    + done.
  - erewrite closeCouloirIfEmpty_nonempty by (cbn; apply lookup_insert_eq).
    eexists. split; [reflexivity|].
    match goal with |- context [forward End ?d ?st1] =>
      pose proof (registry_forward End d st1) as Hreg;
      generalize dependent (forward End d st1)
    end.
    intros st' [= Hc Hhosts Hclients Hkeys].
    rewrite Hhosts, Hclients, Hkeys. cbn. split; [|split].
    + rewrite lookup_insert_eq. split; done.
    + done.
    + intros _. by rewrite lookup_insert_eq.
Qed.

Lemma C4_deleted_iff_no_exposer_left_witness :
  ∃ st',
    step "my.test" (Ended 1) churned = Ok st' ∧
    hosts st' !! "x.my.test" = None ∧
    clients st' !! "x.my.test" = None.
Proof.
  destruct (C4_deleted_iff_no_exposer_left "my.test" churned 1
              (mkRelaySocket 1 (Some "x.my.test") "" TYPE_HOST true true [2]
                 [Response Joined; Write (request "/" "x.my.test"); End])
              "x.my.test" [1])
    as (st' & Hend & Hiff & Hdel & _);
    [vm_compute; reflexivity | reflexivity | discriminate | reflexivity
    | vm_compute; reflexivity |].
  exists st'. split; [exact Hend|]. split.
  - apply Hiff. vm_compute. reflexivity.
  - apply Hdel. vm_compute. reflexivity.
Defined.

(** C4 as the specification words it does not hold: client 3 is still
    waiting in [clients["x.my.test"]] when exposer socket 1 disconnects, and
    the couloir is deleted all the same, with its queue and its key. *)
Lemma C4_pending_client_counterexample :
  ∃ st st',
    run "my.test" churn initial = Ok st ∧
    clients st !! "x.my.test" = Some [3] ∧
    hosts st !! "x.my.test" = Some [1] ∧
    step "my.test" (Ended 1) st = Ok st' ∧
    hosts st' !! "x.my.test" = None ∧
    clients st' !! "x.my.test" = None ∧
    keyToHost st' !! "k1" = None.
Proof.
  eexists. eexists. split; [vm_compute; reflexivity|].
  split; [vm_compute; reflexivity|].
  split; [vm_compute; reflexivity|].
  split; [vm_compute; reflexivity|].
  vm_compute. done.
Qed.

(** ** The pairing engine *)

Lemma clients_splice c e st : clients (splice c e st) = clients st.
Proof. reflexivity. Qed.

Lemma hosts_splice c e st : hosts (splice c e st) = hosts st.
Proof. reflexivity. Qed.

Lemma waiting_shift h cs st c e :
  waiting (splice c e (setClients (<[h := cs]> (clients st)) st)) h = length cs.
Proof. unfold waiting. cbn. by rewrite lookup_insert_eq. Qed.

(** Each turn of the [while] shifts one client, so the recursion is bounded
    by the length of the queue: with that much fuel [bindNextSockets] never
    runs out. *)
Lemma bindNextSockets_fuel fuel :
  (∀ h st, 2 * waiting st h + 2 ≤ fuel →
           terminatesBelow h st (bindNextSocketsFuel fuel h st)) ∧
  (∀ h pendingHosts st, 2 * waiting st h + 1 ≤ fuel →
           terminatesBelow h st (bindLoop fuel h pendingHosts st)).
Proof.
  induction fuel as [|fuel [IHbind IHloop]]; [split; intros; lia|].
  split.
  - intros h st Hfuel. cbn [bindNextSocketsFuel].
    destruct (hosts st !! h) as [hs|]; [|exact I]. cbn.
    destruct (clients st !! h) as [cs|] eqn:Hcs; [|exact I]. cbn.
    apply IHloop. lia.
  - intros h pendingHosts st Hfuel. cbn [bindLoop].
    destruct (clients st !! h) as [cs|] eqn:Hcs; [|exact I]. cbn.
    assert (waiting st h = length cs) as Hw by (unfold waiting; by rewrite Hcs).
    destruct cs as [|c cs]; [cbn; lia|].
    destruct pendingHosts as [|e rest]; [cbn; lia|].
    set (st1 := splice c e (setClients (<[h := cs]> (clients st)) st)).
    assert (waiting st1 h = length cs) as Hw1 by apply waiting_shift.
    cbn in Hw.
    pose proof (IHbind h st1 ltac:(lia)) as Hbind.
    destruct (bindNextSocketsFuel fuel h st1) as [st2| |]; cbn in *; [|done..].
    pose proof (IHloop h (e :: rest) st2 ltac:(lia)) as Hloop.
    destruct (bindLoop fuel h (e :: rest) st2) as [st3| |]; cbn in *; [lia|done..].
Qed.

Lemma bindNextSockets_terminates h st : bindNextSockets h st ≠ OutOfFuel.
Proof.
  unfold bindNextSockets.
  pose proof (proj1 (bindNextSockets_fuel (2 * waiting st h + 2)) h st ltac:(lia)) as H.
  by destruct (bindNextSocketsFuel _ h st).
Qed.

(** What [splice] does by design: the buffered preface is written on the
    exposer socket at once, and each socket is piped into the other. *)
Lemma splice_writes_preface c e st sc se :
  c ≠ e →
  sockets st !! c = Some sc → sockets st !! e = Some se →
  sentOn (splice c e st) e = sent se ++ [Write (requestBuffer sc)] ∧
  pipesOf (splice c e st) c = pipes sc ++ [e] ∧
  pipesOf (splice c e st) e = pipes se ++ [c].
Proof.
  intros Hne Hc He. unfold sentOn, pipesOf, splice, bufferOf. cbn.
  repeat first [rewrite lookup_alter_eq | rewrite lookup_alter_ne by done].
  rewrite Hc, He. done.
Qed.

(** A chunk that arrives on a spliced client socket goes through the pipe,
    hence behind the preface. *)
Lemma data_follows_preface (domain : string) c e st sc se data :
  c ≠ e →
  sockets st !! c = Some sc → sockets st !! e = Some se →
  onData sc = false → pipes sc = [e] →
  ∃ st', step domain (Data c data) st = Ok st' ∧
         sentOn st' e = sent se ++ [Write data].
Proof.
  intros Hne Hc He Hoff Hpipes. unfold step, pipesOf. rewrite Hc, Hoff, Hpipes.
  eexists. split; [reflexivity|]. unfold sentOn. cbn.
  by rewrite lookup_alter_eq, He.
Qed.

(** [onCouloirJoin] of [src/relay.js]: when pairing starts, the socket is
    already in [hosts[host]] and the ACK is already on the wire. *)
Lemma relay_js_join_order st i key h hs s :
  sockets st !! i = Some s →
  keyToHost st !! key = Some h → h ≠ EmptyString →
  hosts st !! h = Some hs →
  ∃ st1,
    onCouloirJoin i key st = bindNextSockets h st1 ∧
    hosts st1 !! h = Some (hs ++ [i]) ∧
    sentOn st1 i = sent s ++ [Response Joined].
Proof.
  intros Hs Hkey Hne Hh. unfold onCouloirJoin. cbn. rewrite Hkey.
  apply String.eqb_neq in Hne. rewrite Hne, Hh. cbn.
  eexists. split; [reflexivity|]. cbn. split; [apply lookup_insert_eq|].
  unfold sentOn. cbn. by rewrite !lookup_alter_eq, Hs.
Qed.

(** C1 — pairing.  One idle exposer socket (3) and two waiting clients (1
    and 2): the pairing step splices both clients into socket 3.  Two pairs
    are bound where the minimum of exposers and clients is one, and socket 3
    is selected a second time after it was marked busy. *)
Theorem C1_exposer_bound_twice :
  ∃ st,
    run "my.test" oversubscribed initial = Ok st ∧
    hosts st !! "couloir.my.test" = Some [3] ∧
    clients st !! "couloir.my.test" = Some [] ∧
    pipesOf st 1 = [3] ∧
    pipesOf st 2 = [3] ∧
    boundTo st 3 = [1; 2] ∧
    length (boundTo st 3) ≠ 1 `min` 2.
Proof.
  eexists. split; [vm_compute; reflexivity|].
  repeat (split; [vm_compute; reflexivity|]).
  vm_compute. lia.
Qed.

(** C5 — preface fidelity.  After the same trace, client 1 sends [AAA] and
    client 2 sends [BBB].  The exposer peer of socket 3 receives the preface
    of client 1, then the preface of client 2, then both bodies: not the
    bytes of client 1 alone. *)
Theorem C5_two_clients_in_one_exposer_stream :
  ∃ st,
    run "my.test" (oversubscribed ++ [Data 1 "AAA"; Data 2 "BBB"]) initial = Ok st ∧
    bufferOf st 1 = request "/a" "couloir.my.test" ∧
    received st 3 =
      request "/a" "couloir.my.test" +:+ request "/b" "couloir.my.test" +:+
      "AAA" +:+ "BBB" ∧
    received st 3 ≠ request "/a" "couloir.my.test" +:+ "AAA".
Proof.
  eexists. split; [vm_compute; reflexivity|].
  repeat (split; [vm_compute; reflexivity|]).
  vm_compute. discriminate.
Qed.

(** ** The handlers keep the registry well-formed *)

Lemma sameCouloirs_refl h st : sameCouloirs h st st.
Proof. by repeat split. Qed.

Lemma sameCouloirs_trans h st1 st2 st3 :
  sameCouloirs h st1 st2 → sameCouloirs h st2 st3 → sameCouloirs h st1 st3.
Proof.
  intros (Hh & Hk & Hc & Hq & Hw) (Hh' & Hk' & Hc' & Hq' & Hw').
  repeat split; try congruence; try lia.
  - intros H'. by apply Hq, Hq'.
  - intros H'. by apply Hq', Hq.
Qed.

Lemma sameCouloirs_shift h st c e cs cs' :
  clients st !! h = Some cs → length cs' ≤ length cs →
  sameCouloirs h st (splice c e (setClients (<[h := cs']> (clients st)) st)).
Proof.
  intros Hcs Hlen. repeat split.
  - cbn. destruct (decide (h = h')) as [<-|Hne].
    + by rewrite Hcs.
    + by rewrite lookup_insert_ne.
  - cbn. destruct (decide (h = h')) as [<-|Hne].
    + by rewrite lookup_insert_eq.
    + by rewrite lookup_insert_ne.
  - rewrite waiting_shift. unfold waiting. by rewrite Hcs.
Qed.

(** With its couloir registered, [bindNextSockets] completes: it touches
    the queue of its couloir and the sockets, nothing else. *)
Lemma bindNextSockets_completes fuel :
  (∀ h st, 2 * waiting st h + 2 ≤ fuel →
           is_Some (hosts st !! h) → is_Some (clients st !! h) →
           ∃ st', bindNextSocketsFuel fuel h st = Ok st' ∧ sameCouloirs h st st') ∧
  (∀ h pendingHosts st, 2 * waiting st h + 1 ≤ fuel →
           is_Some (hosts st !! h) → is_Some (clients st !! h) →
           ∃ st', bindLoop fuel h pendingHosts st = Ok st' ∧ sameCouloirs h st st').
Proof.
  induction fuel as [|fuel [IHbind IHloop]]; [split; intros; lia|].
  split.
  - intros h st Hfuel [hs Hhs] [cs Hcs]. cbn [bindNextSocketsFuel].
    rewrite Hhs, Hcs. cbn. apply IHloop; [lia|eauto..].
  - intros h pendingHosts st Hfuel [hs Hhs] [cs Hcs]. cbn [bindLoop].
    rewrite Hcs. cbn.
    assert (waiting st h = length cs) as Hw by (unfold waiting; by rewrite Hcs).
    destruct cs as [|c cs]; [eauto using sameCouloirs_refl|].
    destruct pendingHosts as [|e rest]; [eauto using sameCouloirs_refl|].
    set (st1 := splice c e (setClients (<[h := cs]> (clients st)) st)).
    assert (sameCouloirs h st st1) as Hst1.
    { eapply sameCouloirs_shift; [done|]. cbn. lia. }
    assert (waiting st1 h = length cs) as Hw1 by apply waiting_shift.
    cbn in Hw.
    destruct (IHbind h st1) as (st2 & -> & Hst2);
      [lia | cbn; rewrite Hhs; eauto | cbn; rewrite lookup_insert_eq; eauto |].
    cbn. pose proof Hst2 as (Hh2 & _ & _ & Hq2 & Hw2).
    destruct (IHloop h (e :: rest) st2) as (st3 & -> & Hst3);
      [lia
      | rewrite Hh2; cbn; rewrite Hhs; eauto
      | apply Hq2; cbn; rewrite lookup_insert_eq; eauto |].
    exists st3. split; [done|].
    eauto using sameCouloirs_trans.
Qed.

Lemma bindNextSockets_ok h st :
  is_Some (hosts st !! h) → is_Some (clients st !! h) →
  ∃ st', bindNextSockets h st = Ok st' ∧ sameCouloirs h st st'.
Proof.
  intros Hh Hc. unfold bindNextSockets.
  by apply (proj1 (bindNextSockets_completes _)).
Qed.

Lemma wellFormed_sameCouloirs h st st' :
  sameCouloirs h st st' → wellFormed st → wellFormed st'.
Proof.
  intros (Hh & Hk & _ & Hq & _) [Hwf1 Hwf2]. split.
  - intros h'. rewrite Hh, Hq. apply Hwf1.
  - intros k h'. rewrite Hh, Hk. apply Hwf2.
Qed.

Lemma wellFormed_onSocket i f st : wellFormed st → wellFormed (onSocket i f st).
Proof. done. Qed.

Lemma wellFormed_forward o dests st :
  wellFormed st → wellFormed (forward o dests st).
Proof.
  unfold forward. revert st. induction dests as [|d dests IH]; intros st Hwf; [done|].
  cbn. by apply IH, wellFormed_onSocket.
Qed.

Lemma wellFormed_onCouloirOpen (domain : string) i h key st :
  wellFormed st → wellFormed (onCouloirOpen domain i h key st).
Proof.
  intros [Hwf1 Hwf2]. unfold onCouloirOpen.
  set (h' := chosenHost domain _ h). cbn [hosts onSocket setSockets].
  destruct (hosts st !! h') as [hs|] eqn:Hh'; [done|].
  split; cbn.
  - intros h''. destruct (decide (h' = h'')) as [<-|Hne].
    + by rewrite !lookup_insert_eq.
    + rewrite !lookup_insert_ne by done. apply Hwf1.
  - intros k h''. destruct (decide (key = k)) as [<-|Hne].
    + rewrite lookup_insert_eq. intros [= <-]. rewrite lookup_insert_eq. eauto.
    + rewrite lookup_insert_ne by done. intros Hk%Hwf2.
      destruct (decide (h' = h'')) as [<-|Hne'].
      * rewrite lookup_insert_eq. eauto.
      * by rewrite lookup_insert_ne.
Qed.

Lemma onCouloirJoin_ok i key st :
  wellFormed st → throwsOr wellFormed (onCouloirJoin i key st).
Proof.
  intros Hwf. unfold onCouloirJoin. cbn [keyToHost onSocket setSockets].
  destruct (keyToHost st !! key) as [h|] eqn:Hkey;
    [|by destruct (Js.isPrototypeKey key)].
  destruct (String.eqb h ""); [done|].
  pose proof Hwf as [Hwf1 Hwf2].
  destruct (Hwf2 _ _ Hkey) as [hs Hhs].
  cbn -[bindNextSockets]. rewrite Hhs. cbn -[bindNextSockets].
  match goal with |- context [bindNextSockets h ?st1] =>
    destruct (bindNextSockets_ok h st1) as (st' & Hbind & Hsame);
      [cbn; rewrite lookup_insert_eq; eauto
      |cbn; apply Hwf1; eauto
      |rewrite Hbind; cbn;
       apply (wellFormed_sameCouloirs _ _ _ Hsame)]
  end.
  split; cbn.
  - intros h'. destruct (decide (h = h')) as [<-|Hne].
    + rewrite lookup_insert_eq. split; [intros _; apply Hwf1; eauto|eauto].
    + rewrite lookup_insert_ne by done. apply Hwf1.
  - intros k h' Hk%Hwf2. destruct (decide (h = h')) as [<-|Hne].
    + rewrite lookup_insert_eq. eauto.
    + by rewrite lookup_insert_ne.
Qed.

Lemma onSocketClientData_ok i data st :
  wellFormed st → throwsOr wellFormed (onSocketClientData i data st).
Proof.
  intros Hwf. unfold onSocketClientData.
  destruct (sockets st !! i) as [s|]; [|done].
  case_bool_decide; [done|]. cbn zeta.
  case_bool_decide; [done|].
  destruct (stripPort <$> HOST_MATCH _) as [h|]; [|done].
  destruct (negb _ && (bool_decide _ || _)) eqn:Hreg; [|done].
  cbn -[bindNextSockets].
  destruct (clients st !! h) as [cs|] eqn:Hcs; [|done].
  pose proof Hwf as [Hwf1 Hwf2].
  assert (is_Some (hosts st !! h)) as Hh by (apply Hwf1; eauto).
  cbn -[bindNextSockets].
  match goal with |- context [bindNextSockets h ?st1] =>
    destruct (bindNextSockets_ok h st1) as (st' & Hbind & Hsame);
      [done | cbn; rewrite lookup_insert_eq; eauto |]
  end.
  rewrite Hbind. cbn.
  apply wellFormed_onSocket, (wellFormed_sameCouloirs _ _ _ Hsame).
  split; cbn.
  - intros h'. destruct (decide (h = h')) as [<-|Hne].
    + rewrite lookup_insert_eq. split; eauto.
    + rewrite lookup_insert_ne by done. apply Hwf1.
  - apply Hwf2.
Qed.

Lemma onSocketEnd_ok i st :
  wellFormed st → ∃ st', onSocketEnd i st = Ok st' ∧ wellFormed st'.
Proof.
  intros Hwf. unfold onSocketEnd.
  destruct (sockets st !! i) as [s|]; [|by eauto].
  destruct (host s) as [h|]; [|by eauto].
  destruct (negb _ && bool_decide _); [|by eauto].
  destruct (hosts st !! h) as [hs|] eqn:Hhs; [|by eauto].
  pose proof Hwf as [Hwf1 Hwf2].
  destruct (filter (λ j, j ≠ id s) hs) as [|j rest] eqn:Hleft.
  - rewrite closeCouloirIfEmpty_empty by (cbn; apply lookup_insert_eq).
    eexists. split; [done|]. split; cbn.
    + intros h'. destruct (decide (h = h')) as [<-|Hne].
      * rewrite !lookup_delete_eq. split; by intros [? ?].
      * rewrite !lookup_delete_ne, lookup_insert_ne by done. apply Hwf1.
    + intros k h' [Hk Hne]%map_lookup_filter_Some. cbn in Hne.
      rewrite lookup_delete_ne, lookup_insert_ne by done. by eapply Hwf2.
  - erewrite closeCouloirIfEmpty_nonempty by (cbn; apply lookup_insert_eq).
    eexists. split; [done|]. split; cbn.
    + intros h'. destruct (decide (h = h')) as [<-|Hne].
      * rewrite lookup_insert_eq. split; [intros _; apply Hwf1; eauto|eauto].
      * rewrite lookup_insert_ne by done. apply Hwf1.
    + intros k h' Hk%Hwf2. destruct (decide (h = h')) as [<-|Hne].
      * rewrite lookup_insert_eq. eauto.
      * by rewrite lookup_insert_ne.
Qed.

Lemma step_ok (domain : string) e st :
  wellFormed st → throwsOr wellFormed (step domain e st).
Proof.
  intros Hwf. destruct e as [|i h key|i key|i data|i]; cbn [step].
  - done.
  - by apply wellFormed_onCouloirOpen.
  - by apply onCouloirJoin_ok.
  - destruct (match sockets st !! i with Some s => onData s | None => false end).
    + pose proof (onSocketClientData_ok i data st Hwf) as Hdata.
      destruct (onSocketClientData i data st) as [st'| |]; [|done..].
      cbn. by apply wellFormed_forward.
    + cbn. by apply wellFormed_forward.
  - destruct (onSocketEnd_ok i st Hwf) as (st' & -> & Hwf').
    cbn. by apply wellFormed_forward.
Qed.

(** Whatever arrives, a handler completes in a well-formed state, or it
    throws the [TypeError] of a name found on [Object.prototype]: no handler
    calls a method on a missing [hosts] or [clients] entry of a registered
    couloir, and the pairing engine returns. *)
Lemma run_ok (domain : string) es st :
  wellFormed st → throwsOr wellFormed (run domain es st).
Proof.
  revert st. induction es as [|e es IH]; intros st Hwf; cbn [run]; [done|].
  pose proof (step_ok domain e st Hwf) as Hstep.
  destruct (step domain e st) as [st1| |]; [|done..]. cbn. by apply IH.
Qed.

Lemma wellFormed_initial : wellFormed initial.
Proof. split; [by intros h|]. by intros k h. Qed.

(** ** Client requests *)

(** [onSocketClientData] on a socket that is still a client, by cases on the
    head of what is buffered. *)
Lemma onSocketClientData_client st i s data :
  sockets st !! i = Some s → type s = TYPE_CLIENT →
  let buf := requestBuffer s +:+ data in
  let st1 := onSocket i (setRequestBuffer buf) st in
  onSocketClientData i data st =
    match headOf buf with
    | None => Ok st1
    | Some head =>
        match stripPort <$> HOST_MATCH head with
        | Some h =>
            if negb (String.eqb h "") &&
               (bool_decide (is_Some (hosts st !! h)) || Js.isPrototypeKey h) then
              cs ← defined (clients st !! h);
              st2 ← bindNextSockets h
                      (setClients (<[h := cs ++ [i]]> (clients st))
                         (onSocket i (setHost (Some h)) st1));
              Ok (onSocket i (setOnData false) st2)
            else Ok (reply404 i st1)
        | None => Ok (reply404 i st1)
        end
    end.
Proof.
  intros Hs Hty buf st1. unfold onSocketClientData, headOf.
  rewrite Hs, Hty. rewrite bool_decide_eq_false_2 by done.
  fold buf. fold st1.
  destruct (bool_decide (Js.indexOf buf Js.CRLFCRLF = (-1)%Z)); reflexivity.
Qed.

(** A chunk on a socket that still listens and is piped nowhere is handled
    by [onSocketClientData] alone. *)
Lemma step_data_listening (domain : string) st i s data :
  sockets st !! i = Some s → onData s = true → pipes s = [] →
  step domain (Data i data) st = onSocketClientData i data st.
Proof.
  intros Hs Hon Hpipes. unfold step, pipesOf. rewrite Hs, Hon, Hpipes.
  by destruct (onSocketClientData i data st).
Qed.

Lemma reply404_effect st i s b :
  sockets st !! i = Some s →
  let st1 := onSocket i (setRequestBuffer b) st in
  registry (reply404 i st1) = registry st ∧
  sentOn (reply404 i st1) i = sent s ++ [Write notFound; End].
Proof.
  intros Hs st1. split; [reflexivity|].
  unfold sentOn, reply404, st1. cbn.
  rewrite !lookup_alter_eq, Hs. cbn. by rewrite <- app_assoc.
Qed.

(** X20 — host routing.  A chunk arrives on a client socket that still
    listens, and completes a request with the header [Host: <h>] or
    [Host: <h>:<port>] (the first [Host: ] line of the head, wherever the
    chunk boundaries fell), where host and port are ASCII text.  When a
    couloir is registered under [h], the socket is recorded for [h],
    appended to [clients[h]] and handed to [bindNextSockets(h)], after which
    it stops listening.  When none is and [h] names no member of
    [Object.prototype], the relay writes the 404 response and ends the
    socket, and the registry is what it was.  When none is and [h] names
    such a member, the handler throws. *)
Theorem host_routing
    (domain : string) st i s requestLine before h port after body data :
  sockets st !! i = Some s →
  type s = TYPE_CLIENT → onData s = true → pipes s = [] →
  requestBuffer s +:+ data =
    requestWithHost requestLine before (hostValue h port) after body →
  avoids Js.CR requestLine = true →
  Forall (λ l, otherHeader l = true) before →
  Forall (λ l, plainLine l = true) after →
  hostName h = true →
  from_option Js.noLineTerminator true port = true →
  Js.isAscii h = true → from_option Js.isAscii true port = true →
  let st1 := onSocket i (setRequestBuffer (requestBuffer s +:+ data)) st in
  (∀ cs, is_Some (hosts st !! h) → clients st !! h = Some cs →
     step domain (Data i data) st =
       (st2 ← bindNextSockets h
                (setClients (<[h := cs ++ [i]]> (clients st))
                   (onSocket i (setHost (Some h)) st1));
        Ok (onSocket i (setOnData false) st2))) ∧
  (hosts st !! h = None → Js.isPrototypeKey h = false →
     step domain (Data i data) st = Ok (reply404 i st1) ∧
     registry (reply404 i st1) = registry st ∧
     sentOn (reply404 i st1) i = sent s ++ [Write notFound; End]) ∧
  (clients st !! h = None → Js.isPrototypeKey h = true →
     step domain (Data i data) st = TypeError).
Proof.
  intros Hs Hty Hon Hpipes Hbuf Hreq Hbefore Hafter Hh Hport _ _ st1.
  destruct (hostValue_ok h port Hh Hport) as [Hne Hlt].
  pose proof (hostName_inv h Hh) as (Hhne & Hcolon & _).
  assert (Forall (λ l, plainLine l = true) before) as Hbefore'.
  { eapply Forall_impl; [exact Hbefore|].
    intros l. unfold otherHeader. by intros [? _]%andb_true_iff. }
  assert (plainLine ("Host: " +:+ hostValue h port) = true) as Hline.
  { unfold plainLine. cbn. by apply avoids_CR_noLineTerminator. }
  rewrite (step_data_listening domain st i s data Hs Hon Hpipes).
  rewrite (onSocketClientData_client st i s data Hs Hty).
  cbn zeta. fold st1. rewrite Hbuf.
  rewrite (headOf_requestWithHost _ _ _ _ _ Hreq Hbefore' Hline Hafter).
  rewrite (HOST_MATCH_requestHead _ _ _ _ Hreq Hbefore Hne Hlt).
  cbn [fmap option_fmap option_map].
  rewrite (stripPort_hostValue _ _ Hcolon Hport).
  apply String.eqb_neq in Hhne. rewrite Hhne. cbn [negb andb].
  split; [|split].
  - intros cs Hreg Hcs. rewrite bool_decide_eq_true_2 by done.
    by rewrite Hcs.
  - intros Hnone Hproto. rewrite Hproto, bool_decide_eq_false_2.
    2:{ rewrite Hnone. by intros [? ?]. }
    split; [done|]. subst st1. by apply reply404_effect.
  - intros Hnone Hproto. by rewrite Hproto, orb_true_r, Hnone.
Qed.

Lemma host_routing_witness :
  (∃ st', step "my.test" (Data 2 (restOfRequest "Host: x.my.test:8080")) joined = Ok st' ∧
          clients st' !! "x.my.test" = Some [] ∧ pipesOf st' 2 = [1]) ∧
  (∃ st', step "my.test" (Data 2 (restOfRequest "Host: missing.my.test")) joined = Ok st' ∧
          registry st' = registry joined ∧
          sentOn st' 2 = [Write notFound; End]) ∧
  step "my.test" (Data 2 (restOfRequest "Host: toString:80")) joined = TypeError.
Proof.
  set (s := mkRelaySocket 2 None ("GET / HTTP/1.1" +:+ Js.CRLF +:+ "Acc")
              TYPE_CLIENT false true [] []).
  split; [|split].
  - destruct (host_routing "my.test" joined 2 s "GET / HTTP/1.1" ["Accept: */*"]
                "x.my.test" (Some "8080") ["User-Agent: curl"] "body"
                (restOfRequest "Host: x.my.test:8080")) as [Hroute _];
      [vm_compute; reflexivity | reflexivity | reflexivity | reflexivity
      | vm_compute; reflexivity
      | reflexivity | repeat constructor | repeat constructor
      | reflexivity | reflexivity | reflexivity | reflexivity |].
    rewrite (Hroute []); [|vm_compute; eauto | vm_compute; reflexivity].
    eexists. split; [vm_compute; reflexivity|].
    split; vm_compute; reflexivity.
  - destruct (host_routing "my.test" joined 2 s "GET / HTTP/1.1" ["Accept: */*"]
                "missing.my.test" None ["User-Agent: curl"] "body"
                (restOfRequest "Host: missing.my.test")) as (_ & H404 & _);
      [vm_compute; reflexivity | reflexivity | reflexivity | reflexivity
      | vm_compute; reflexivity
      | reflexivity | repeat constructor | repeat constructor
      | reflexivity | reflexivity | reflexivity | reflexivity |].
    destruct H404 as (Hrun & Hreg & Hsent);
      [vm_compute; reflexivity | vm_compute; reflexivity |].
    eexists. split; [exact Hrun|]. split; [exact Hreg | exact Hsent].
  - destruct (host_routing "my.test" joined 2 s "GET / HTTP/1.1" ["Accept: */*"]
                "toString" (Some "80") ["User-Agent: curl"] "body"
                (restOfRequest "Host: toString:80")) as (_ & _ & Hthrow);
      [vm_compute; reflexivity | reflexivity | reflexivity | reflexivity
      | vm_compute; reflexivity
      | reflexivity | repeat constructor | repeat constructor
      | reflexivity | reflexivity | reflexivity | reflexivity |].
    apply Hthrow; vm_compute; reflexivity.
Defined.

(** C2 — host routing, where the code misses it.  A client that asks for
    [Host: constructor] while no couloir has that name is not answered 404:
    [hosts[host]] finds the member [constructor] of [Object.prototype], the
    relay takes the host for registered, and [clients[host].push] throws.
    A client that asks for another missing host gets the 404 reply and the
    end of its socket. *)
Theorem C2_prototype_named_host_throws :
  hosts (onConnection initial) !! "constructor" = None ∧
  run "my.test" [Connection; Data 0 (request "/" "constructor")] initial
    = TypeError ∧
  ∃ st,
    run "my.test" [Connection; Data 0 (request "/" "missing.my.test")] initial
      = Ok st ∧
    sentOn st 0 = [Write notFound; End] ∧
    registry st = registry (onConnection initial).
Proof.
  split; [done|]. split; [vm_compute; reflexivity|].
  eexists. split; [vm_compute; reflexivity|]. split; vm_compute; reflexivity.
Qed.

(** [src/relay.js] has no page for the relay domain: no couloir can be
    registered under it, so such a request is answered 404. *)
Lemma relay_js_domain_request :
  ∃ st,
    run "my.test" [Connection; Data 0 (request "/" "my.test")] initial = Ok st ∧
    sentOn st 0 = [Write notFound; End].
Proof. eexists. split; vm_compute; reflexivity. Qed.

(** C10 — the [Host] header is matched literally.  When a chunk completes
    the head of a client request and that head holds no occurrence of the
    exact bytes [\r\nHost: ], the request is treated as having no Host
    header: the relay answers 404 and ends the socket, whatever couloirs are
    registered and whatever follows the head.  So it goes for
    [host: x.my.test] and for [Host:x.my.test] while [x.my.test] is open,
    also when the bytes after the blank line hold [\r\nHost: x.my.test]. *)
Theorem C10_host_header_is_matched_literally (domain : string) st i s data head :
  sockets st !! i = Some s →
  type s = TYPE_CLIENT → onData s = true → pipes s = [] →
  headOf (requestBuffer s +:+ data) = Some head →
  Js.includes head HOST_PREFIX = false →
  let st1 := onSocket i (setRequestBuffer (requestBuffer s +:+ data)) st in
  step domain (Data i data) st = Ok (reply404 i st1) ∧
  registry (reply404 i st1) = registry st ∧
  sentOn (reply404 i st1) i = sent s ++ [Write notFound; End].
Proof.
  intros Hs Hty Hon Hpipes Hhead Hno st1.
  rewrite (step_data_listening domain st i s data Hs Hon Hpipes).
  rewrite (onSocketClientData_client st i s data Hs Hty).
  cbn zeta. fold st1. rewrite Hhead.
  assert (HOST_MATCH head = None) as ->.
  { destruct (HOST_MATCH head) as [g|] eqn:Hg; [|done].
    apply HOST_MATCH_includes in Hg. congruence. }
  cbn. split; [done|]. subst st1. by apply reply404_effect.
Qed.

Lemma C10_host_header_is_matched_literally_witness :
  is_Some (hosts joined !! "x.my.test") ∧
  (∃ st', step "my.test" (Data 2 (restOfRequest "host: x.my.test")) joined = Ok st' ∧
          sentOn st' 2 = [Write notFound; End]) ∧
  (∃ st', step "my.test" (Data 2 (restOfRequest "Host:x.my.test")) joined = Ok st' ∧
          sentOn st' 2 = [Write notFound; End]) ∧
  (∃ st', step "my.test"
            (Data 2 (restOfRequest "host: x.my.test"
                       +:+ Js.CRLF +:+ "Host: x.my.test" +:+ Js.CRLF))
            joined = Ok st' ∧
          sentOn st' 2 = [Write notFound; End]).
Proof.
  set (s := mkRelaySocket 2 None ("GET / HTTP/1.1" +:+ Js.CRLF +:+ "Acc")
              TYPE_CLIENT false true [] []).
  split; [vm_compute; eauto|]. split; [|split].
  - destruct (C10_host_header_is_matched_literally "my.test" joined 2 s
                (restOfRequest "host: x.my.test")
                (default "" (headOf (requestBuffer s
                                       +:+ restOfRequest "host: x.my.test"))))
      as (Hrun & _ & Hsent);
      [vm_compute; reflexivity | reflexivity | reflexivity | reflexivity
      | vm_compute; reflexivity | vm_compute; reflexivity |].
    eexists. split; [exact Hrun | exact Hsent].
  - destruct (C10_host_header_is_matched_literally "my.test" joined 2 s
                (restOfRequest "Host:x.my.test")
                (default "" (headOf (requestBuffer s
                                       +:+ restOfRequest "Host:x.my.test"))))
      as (Hrun & _ & Hsent);
      [vm_compute; reflexivity | reflexivity | reflexivity | reflexivity
      | vm_compute; reflexivity | vm_compute; reflexivity |].
    eexists. split; [exact Hrun | exact Hsent].
  - destruct (C10_host_header_is_matched_literally "my.test" joined 2 s
                (restOfRequest "host: x.my.test"
                   +:+ Js.CRLF +:+ "Host: x.my.test" +:+ Js.CRLF)
                (default "" (headOf (requestBuffer s
                                       +:+ (restOfRequest "host: x.my.test"
                                            +:+ Js.CRLF +:+ "Host: x.my.test"
                                            +:+ Js.CRLF)))))
      as (Hrun & _ & Hsent);
      [vm_compute; reflexivity | reflexivity | reflexivity | reflexivity
      | vm_compute; reflexivity | vm_compute; reflexivity |].
    eexists. split; [exact Hrun | exact Hsent].
Defined.

End RelayProofs.

(** * Properties of the [RelaySocket] class *)

Module RelaySocketProofs.
Import RelaySocket.

(** ** Effects *)

Lemma precedes_nil a b : precedes a b [].
Proof. intros l1 l2 Heq. by destruct l1. Qed.

Lemma precedes_snoc a b x l :
  precedes a b l → (x = b → a ∈ l) → precedes a b (l ++ [x]).
Proof.
  intros Hl Hx l1 l2 Heq.
  destruct l2 as [|y l2 _] using rev_ind.
  - apply app_inj_tail in Heq as [-> ->]. by apply Hx.
  - rewrite app_comm_cons, app_assoc in Heq.
    apply app_inj_tail in Heq as [-> _]. by apply (Hl l1 l2).
Qed.

Lemma ackFirst_nil : ackFirst [].
Proof. split; intros; apply precedes_nil. Qed.

Lemma ackFirst_snoc l x :
  ackFirst l →
  (∀ i h, x = AddHostSocket h i → joinAck i ∈ l) →
  (∀ i, x = streamOn i → joinAck i ∈ l) →
  ackFirst (l ++ [x]).
Proof.
  intros [Hadd Hstream] Hx1 Hx2. split.
  - intros i h. apply precedes_snoc; [apply Hadd|]. intros ->. by eapply Hx1.
  - intros i. apply precedes_snoc; [apply Hstream|]. intros ->. by apply Hx2.
Qed.

Lemma forward_effects o dests st :
  effects (forward o dests st) = effects st ++ ((λ d, Sent d o) <$> dests) ∧
  couloirs (forward o dests st) = couloirs st.
Proof.
  unfold forward. revert st.
  induction dests as [|d dests IH]; intros st; cbn [foldl fmap list_fmap].
  - by rewrite app_nil_r.
  - destruct (IH (emit (Sent d o) st)) as [-> ->]. cbn.
    by rewrite <- app_assoc.
Qed.

Lemma ackFirst_app_sent l o dests :
  o ≠ SendMessage COULOIR_STREAM →
  ackFirst l → ackFirst (l ++ ((λ d, Sent d o) <$> dests)).
Proof.
  intros Ho. revert l. induction dests as [|d dests IH]; intros l Hl; cbn.
  - by rewrite app_nil_r.
  - rewrite (app_assoc l [_] _ : l ++ Sent d o :: _ = (l ++ [Sent d o]) ++ _).
    apply IH, ackFirst_snoc; [done|discriminate|].
    intros i [= -> ->]. by destruct Ho.
Qed.

(** ** The pairing engine *)

Lemma proxy_effects c e st st' :
  proxy c e st = Ok st' →
  ∃ r, effects st' = effects st ++ [streamOn e; Sent e (Write r)] ∧
       couloirs st' = couloirs st.
Proof.
  unfold proxy. destruct (sockets st !! c) as [this|]; [|done]. cbn.
  destruct (req this) as [r|]; [|done]. cbn. intros [= <-].
  exists (raw r). cbn. by rewrite <- app_assoc.
Qed.

Lemma pairSockets_ackFirst es cs st es' cs' st' :
  pairSockets es cs st = Ok (es', cs', st') →
  ackFirst (effects st) →
  (∀ e, e ∈ es → joinAck e ∈ effects st) →
  ackFirst (effects st') ∧
  (∀ x, x ∈ effects st → x ∈ effects st') ∧
  (∀ e, e ∈ es' → e ∈ es) ∧
  couloirs st' = couloirs st.
Proof.
  revert cs st. induction es as [|e es IH]; intros cs st Hpair Hgood Hacked.
  - cbn in Hpair. injection Hpair as <- <- <-. done.
  - destruct cs as [|c cs].
    { cbn in Hpair. injection Hpair as <- <- <-. done. }
    cbn [pairSockets] in Hpair.
    destruct (proxy c e st) as [st1| |] eqn:Hproxy; [|done..]. cbn in Hpair.
    destruct (proxy_effects _ _ _ _ Hproxy) as (r & Heff & Hco).
    assert (∀ x, x ∈ effects st → x ∈ effects st1) as Hmono.
    { intros x Hx. rewrite Heff. apply elem_of_app. by left. }
    destruct (IH cs st1 Hpair) as (Hgood' & Hmono' & Hsub & Hco').
    + rewrite Heff.
      rewrite (app_assoc _ [_] [_] : _ ++ [streamOn e; _] = (_ ++ [streamOn e]) ++ [_]).
      apply ackFirst_snoc; [apply ackFirst_snoc; [done|discriminate|]|discriminate..].
      intros i [= ->]. apply Hacked. by left.
    + intros e' He'. apply Hmono, Hacked. by right.
    + split; [done|]. split; [by intros x Hx; apply Hmono', Hmono|].
      split; [|congruence].
      intros e' He'. right. by apply Hsub.
Qed.

Lemma pairSockets_extends es cs st es' cs' st' :
  pairSockets es cs st = Ok (es', cs', st') →
  ∃ rest, effects st' = effects st ++ rest.
Proof.
  revert cs st. induction es as [|e es IH]; intros cs st Hpair.
  - cbn in Hpair. injection Hpair as <- <- <-. exists []. by rewrite app_nil_r.
  - destruct cs as [|c cs].
    { cbn in Hpair. injection Hpair as <- <- <-. exists []. by rewrite app_nil_r. }
    cbn [pairSockets] in Hpair.
    destruct (proxy c e st) as [st1| |] eqn:Hproxy; [|done..]. cbn in Hpair.
    destruct (proxy_effects _ _ _ _ Hproxy) as (r & Heff & _).
    destruct (IH cs st1 Hpair) as [rest Hrest].
    eexists. by rewrite Hrest, Heff, <- app_assoc.
Qed.

Lemma bindNextSockets_ackFirst h st st' :
  bindNextSockets h st = Ok st' →
  ackFirst (effects st) → pooledAcked st →
  ackFirst (effects st') ∧ pooledAcked st'.
Proof.
  unfold bindNextSockets. destruct (couloirs st !! h) as [co|] eqn:Hco; [|done].
  cbn. destruct (pairSockets _ _ st) as [[[es cs] st1]| |] eqn:Hpair; [|done..].
  cbn. intros [= <-] Hgood Hpool.
  destruct (pairSockets_ackFirst _ _ _ _ _ _ Hpair Hgood) as (Hgood' & Hmono & Hsub & Hco').
  { intros e He. by eapply Hpool. }
  split; [done|].
  intros h' co' e. cbn. destruct (decide (h = h')) as [<-|Hne].
  - rewrite lookup_insert_eq. intros [= <-]. cbn. intros He%Hsub.
    apply Hmono. by eapply Hpool.
  - rewrite lookup_insert_ne by done. rewrite Hco'. intros Hh' He.
    apply Hmono. by eapply Hpool.
Qed.

Lemma pooledAcked_insert h co st st' :
  pooledAcked st →
  couloirs st' = <[h := co]> (couloirs st) →
  (∀ x, x ∈ effects st → x ∈ effects st') →
  (∀ e, e ∈ hostSockets co → joinAck e ∈ effects st') →
  pooledAcked st'.
Proof.
  intros Hpool Heq Hmono Hco h' co' e. rewrite Heq.
  destruct (decide (h = h')) as [<-|Hne].
  - rewrite lookup_insert_eq. intros [= <-]. apply Hco.
  - rewrite lookup_insert_ne by done. intros Hh' He. by eapply Hmono, Hpool.
Qed.

Lemma addHostSocket_ackFirst h i st st' :
  addHostSocket h i st = Ok st' →
  joinAck i ∈ effects st →
  ackFirst (effects st) → pooledAcked st →
  ackFirst (effects st') ∧ pooledAcked st'.
Proof.
  unfold addHostSocket. destruct (couloirs st !! h) as [co|] eqn:Hco; [|done].
  cbn. intros Hbind Hack Hgood Hpool.
  apply bindNextSockets_ackFirst in Hbind; [done| |].
  - cbn. apply ackFirst_snoc; [done| |discriminate].
    by intros ?? [= -> ->].
  - eapply pooledAcked_insert; [done|reflexivity| |].
    + intros x Hx. apply elem_of_app. by left.
    + cbn. intros e [He|He%list_elem_of_singleton]%elem_of_app;
        apply elem_of_app; left; [by eapply Hpool|by subst].
Qed.

Lemma addClientSocket_ackFirst h i st st' :
  addClientSocket h i st = Ok st' →
  ackFirst (effects st) → pooledAcked st →
  ackFirst (effects st') ∧ pooledAcked st'.
Proof.
  unfold addClientSocket. destruct (couloirs st !! h) as [co|] eqn:Hco; [|done].
  cbn. intros Hbind Hgood Hpool.
  apply bindNextSockets_ackFirst in Hbind; [done| |].
  - cbn. apply ackFirst_snoc; [done|discriminate..].
  - eapply pooledAcked_insert; [done|reflexivity| |].
    + intros x Hx. apply elem_of_app. by left.
    + cbn. intros e He. apply elem_of_app; left. by eapply Hpool.
Qed.


(** ** Every step keeps the ACK first *)

Section Runs.

Variable domain : string.
Variable exposeCommand : string.
Variable logo : string → option bool → string.
Variable htmlResponse : Headers → string → option string → string.

#[local] Abbreviation onRequest := (onRequest domain exposeCommand logo htmlResponse).
#[local] Abbreviation step := (step domain exposeCommand logo htmlResponse).
#[local] Abbreviation run := (run domain exposeCommand logo htmlResponse).

Lemma invariant_initial : invariant initial.
Proof. split; [apply ackFirst_nil|]. by intros h co e. Qed.

(** Writing a page or ending a socket adds neither a [STREAM] nor a couloir
    membership. *)
Lemma invariant_reply st i page :
  invariant st →
  invariant (emit (Sent i End) (emit (Sent i (Write page)) st)).
Proof.
  intros [Hgood Hpool]. split.
  - cbn. by repeat (apply ackFirst_snoc; [|discriminate..]).
  - intros h co e Hh He. cbn. rewrite !elem_of_app. left. left. by eapply Hpool.
Qed.

Lemma invariant_onSocket st i f : invariant st → invariant (onSocket i f st).
Proof. done. Qed.

Lemma invariant_forward st o dests :
  o ≠ SendMessage COULOIR_STREAM → invariant st → invariant (forward o dests st).
Proof.
  intros Ho [Hgood Hpool].
  destruct (forward_effects o dests st) as [Heff Hco]. split.
  - rewrite Heff. by apply ackFirst_app_sent.
  - intros h co e. rewrite Hco, Heff. intros Hh He.
    apply elem_of_app. left. by eapply Hpool.
Qed.

Lemma invariant_onCouloirOpen st i opening :
  invariant st → invariant (onCouloirOpen i opening st).
Proof.
  intros [Hgood Hpool]. destruct opening as [h k|message]; split; cbn.
  - by apply ackFirst_snoc; [|discriminate..].
  - eapply (pooledAcked_insert h (mkCouloir k [] []) st); [done|reflexivity| |].
    + intros x Hx. apply elem_of_app. by left.
    + cbn. by intros e He%elem_of_nil.
  - by apply ackFirst_snoc; [|discriminate..].
  - intros h co e Hh He. cbn. apply elem_of_app. left. by eapply Hpool.
Qed.

Lemma invariant_onCouloirJoin st i k st' :
  onCouloirJoin i k st = Ok st' → invariant st → invariant st'.
Proof.
  unfold onCouloirJoin. intros Hjoin [Hgood Hpool].
  destruct (getCouloir k st) as [h|].
  - eapply addHostSocket_ackFirst; [exact Hjoin| | |].
    + cbn. apply elem_of_app. right. by left.
    + cbn. by apply ackFirst_snoc; [|discriminate..].
    + intros h' co e Hh He. cbn. apply elem_of_app. left. by eapply Hpool.
  - injection Hjoin as <-. split.
    + cbn. by apply ackFirst_snoc; [|discriminate..].
    + intros h' co e Hh He. cbn. apply elem_of_app. left. by eapply Hpool.
Qed.

Lemma invariant_onRequest st i r st' :
  onRequest i r st = Ok st' → invariant st → invariant st'.
Proof.
  unfold RelaySocket.onRequest. intros Hreq Hinv.
  set (st1 := onSocket i (setReq r) (onSocket i (setType TYPE_CLIENT) st)) in *.
  assert (invariant st1) as Hinv1 by done.
  destruct (truthy _ && bool_decide (_ = Some domain)).
  { injection Hreq as <-. by apply invariant_reply. }
  destruct (requestedHost (headers r)) as [h|].
  - destruct (truthy (Some h) && bool_decide (is_Some (couloirs st1 !! h))).
    + destruct Hinv1. by eapply addClientSocket_ackFirst.
    + injection Hreq as <-. by apply invariant_reply.
  - injection Hreq as <-. by apply invariant_reply.
Qed.

Lemma invariant_step e st st' :
  step e st = Ok st' → invariant st → invariant st'.
Proof.
  destruct e as [|i opening|i k|i r|i message|i data|i]; cbn [RelaySocket.step].
  - intros [= <-]. done.
  - intros [= <-]. apply invariant_onCouloirOpen.
  - apply invariant_onCouloirJoin.
  - apply invariant_onRequest.
  - intros [= <-] Hinv. by apply invariant_reply.
  - destruct (sockets st !! i); intros [= <-]; [|done].
    by apply invariant_forward.
  - destruct (sockets st !! i); intros [= <-]; [|done].
    by apply invariant_forward.
Qed.

Lemma invariant_run es st st' :
  run es st = Ok st' → invariant st → invariant st'.
Proof.
  revert st. induction es as [|e es IH]; intros st; cbn [RelaySocket.run].
  - by intros [= <-].
  - destruct (step e st) as [st1| |] eqn:Hstep; [|done..]. cbn.
    intros Hrun Hinv. eapply IH; [exact Hrun|]. by eapply invariant_step.
Qed.

End Runs.

(** C6 — the ACK of a join goes out first.  A [COULOIR_JOIN] with a known
    key puts the ACK on the control connection and only then hands the
    socket to the couloir, before anything pairing may send.  Hence in every
    run of the relay, on every socket, whatever hands the socket to a couloir
    as an exposer and every [STREAM] message has the ACK of the join before
    it. *)
Theorem C6_join_ack_before_stream
    (domain exposeCommand : string)
    (logo : string → option bool → string)
    (htmlResponse : Headers → string → option string → string) :
  (∀ st i k h st',
     getCouloir k st = Some h →
     onCouloirJoin i k st = Ok st' →
     ∃ rest, effects st' =
             effects st ++ joinAck i :: AddHostSocket h i :: rest) ∧
  (∀ es st,
     run domain exposeCommand logo htmlResponse es initial = Ok st →
     ∀ i, (∀ h, precedes (joinAck i) (AddHostSocket h i) (effects st)) ∧
          precedes (joinAck i) (streamOn i) (effects st)).
Proof.
  split.
  - intros st i k h st' Hk. unfold onCouloirJoin, addHostSocket. rewrite Hk.
    cbn. destruct (couloirs st !! h) as [co|]; [|done]. cbn.
    unfold bindNextSockets. cbn. rewrite lookup_insert_eq. cbn.
    destruct (pairSockets _ _ _) as [[[es cs] st1]| |] eqn:Hpair; [|done..].
    cbn. intros [= <-]. cbn.
    destruct (pairSockets_extends _ _ _ _ _ _ Hpair) as [rest ->]. cbn.
    exists rest. by rewrite <- !app_assoc.
  - intros es st Hrun i.
    destruct (invariant_run domain exposeCommand logo htmlResponse
                es initial st Hrun invariant_initial) as [[Hadd Hstream] _].
    split; [intros h; apply Hadd | apply Hstream].
Qed.


Lemma C6_join_ack_before_stream_witness :
  (∃ st' rest,
     onCouloirJoin 2 "k1" beforeJoin = Ok st' ∧
     effects st' =
       effects beforeJoin ++ joinAck 2 :: AddHostSocket "x.my.test" 2 :: rest ∧
     streamOn 2 ∈ rest) ∧
  (∃ st, exampleRun [Connection; CouloirOpen 0 (Returned "x.my.test" "k1");
                     Connection; CouloirJoin 1 "k1";
                     Connection; Request 2 (requestFor "x.my.test")] initial = Ok st ∧
         streamOn 1 ∈ effects st ∧
         precedes (joinAck 1) (streamOn 1) (effects st)).
Proof.
  destruct (C6_join_ack_before_stream "my.test" exampleCommand plainLogo
              plainHtmlResponse) as [Hjoin Hrun].
  split.
  - destruct (onCouloirJoin 2 "k1" beforeJoin) as [st'| |] eqn:Hst';
      [|vm_compute in Hst'; discriminate..].
    destruct (Hjoin beforeJoin 2 "k1" "x.my.test" st') as [rest Hrest];
      [vm_compute; reflexivity | exact Hst' |].
    exists st', rest. split; [reflexivity|]. split; [exact Hrest|].
    assert (Ok st' = onCouloirJoin 2 "k1" beforeJoin) as Heq by done.
    vm_compute in Heq. injection Heq as ->.
    vm_compute in Hrest. injection Hrest as <-.
    apply list_elem_of_In. vm_compute. tauto.
  - destruct (exampleRun _ initial) as [st| |] eqn:Hst;
      [|vm_compute in Hst; discriminate..].
    exists st. split; [reflexivity|]. split.
    + vm_compute in Hst. injection Hst as <-.
      apply list_elem_of_In. vm_compute. tauto.
    + by destruct (Hrun _ st Hst 1) as [_ H].
Defined.

(** ** Client requests *)

(** Routing in the class: a request for a host other than the relay domain
    is handed to the couloir registered under that host, or answered with
    the 404 page. *)
Lemma request_routing
    (domain exposeCommand : string)
    (logo : string → option bool → string)
    (htmlResponse : Headers → string → option string → string)
    st i r v vs h :
  headers r !! "Host" = Some (Some v :: vs) →
  Relay.stripPort v = h → h ≠ EmptyString → h ≠ domain →
  let st1 := onSocket i (setReq r) (onSocket i (setType TYPE_CLIENT) st) in
  (is_Some (couloirs st !! h) →
   onRequest domain exposeCommand logo htmlResponse i r st =
     addClientSocket h i st1) ∧
  (couloirs st !! h = None →
   onRequest domain exposeCommand logo htmlResponse i r st =
     Ok (emit (Sent i End)
           (emit (Sent i (Write (htmlResponse (headers r)
                                   (logo ("404 - Couloir " +:+ quote +:+ h +:+
                                          quote +:+ " is not open") None)
                                   (Some "404 Not found"))))
                 st1))).
Proof.
  intros Hhost Hstrip Hne Hdomain st1. unfold onRequest, requestedHost.
  rewrite Hhost. cbn. rewrite Hstrip.
  apply String.eqb_neq in Hne. rewrite Hne. cbn.
  rewrite bool_decide_eq_false_2 by congruence. cbn.
  split.
  - intros Hreg. by rewrite bool_decide_eq_true_2.
  - intros Hnone. rewrite bool_decide_eq_false_2; [done|].
    rewrite Hnone. by intros [? ?].
Qed.




End RelaySocketProofs.

(** * More on the relay of [src/relay.js] *)

Module RelayExtras.
Import Relay RequestFacts RelayProofs.

(** ** What the pairing engine leaves alone *)

Lemma sameIdentity_refl st : sameIdentity st st.
Proof. by repeat split. Qed.

Lemma sameIdentity_trans st1 st2 st3 :
  sameIdentity st1 st2 → sameIdentity st2 st3 → sameIdentity st1 st3.
Proof.
  intros (Hh & Hk & Hc & Hs & Hi) (Hh' & Hk' & Hc' & Hs' & Hi').
  repeat split; try congruence.
Qed.

Lemma sameIdentity_onSocket i f st :
  (∀ s, identityOf (f s) = identityOf s) → sameIdentity st (onSocket i f st).
Proof.
  intros Hf. repeat split. intros j. cbn.
  destruct (decide (i = j)) as [<-|Hne].
  - rewrite lookup_alter_eq. destruct (sockets st !! i); cbn; [|done].
    by rewrite Hf.
  - by rewrite lookup_alter_ne.
Qed.

Lemma sameIdentity_setClients m st : sameIdentity st (setClients m st).
Proof. by repeat split. Qed.

Lemma sameIdentity_splice c e st : sameIdentity st (splice c e st).
Proof.
  unfold splice.
  repeat (eapply sameIdentity_trans; [|by apply sameIdentity_onSocket]).
  apply sameIdentity_refl.
Qed.

Lemma bindNextSockets_sameIdentity fuel :
  (∀ h st st', bindNextSocketsFuel fuel h st = Ok st' → sameIdentity st st') ∧
  (∀ h p st st', bindLoop fuel h p st = Ok st' → sameIdentity st st').
Proof.
  induction fuel as [|fuel [IHbind IHloop]]; [split; intros; discriminate|].
  split.
  - intros h st st'. cbn [bindNextSocketsFuel].
    destruct (hosts st !! h); [|done]. cbn.
    destruct (clients st !! h); [|done]. cbn. apply IHloop.
  - intros h p st st'. cbn [bindLoop].
    destruct (clients st !! h) as [cs|]; [|done]. cbn.
    destruct cs as [|c cs]; [intros [= <-]; apply sameIdentity_refl|].
    destruct p as [|e rest]; [intros [= <-]; apply sameIdentity_refl|].
    destruct (bindNextSocketsFuel fuel h _) as [st2| |] eqn:Hbind; [|done..].
    cbn. intros Hloop.
    eapply sameIdentity_trans; [|eapply sameIdentity_trans].
    + eapply sameIdentity_trans;
        [apply sameIdentity_setClients | apply sameIdentity_splice].
    + by eapply IHbind.
    + by eapply IHloop.
Qed.

Lemma sameIdentity_bind h st st' :
  bindNextSockets h st = Ok st' → sameIdentity st st'.
Proof. apply bindNextSockets_sameIdentity. Qed.

Lemma sameIdentity_forward o dests st : sameIdentity st (forward o dests st).
Proof.
  unfold forward. revert st. induction dests as [|d dests IH]; intros st.
  - apply sameIdentity_refl.
  - cbn [foldl]. eapply sameIdentity_trans; [|apply IH].
    by apply sameIdentity_onSocket.
Qed.


(** ** The registry over whole runs *)

Lemma keyUnique_subseteq st st' :
  keyToHost st' ⊆ keyToHost st → keyUnique st → keyUnique st'.
Proof.
  intros Hsub Huniq k1 k2 h H1 H2.
  eapply Huniq; eapply lookup_weaken; eauto.
Qed.

Lemma onCouloirJoin_sameIdentity i key st st' :
  onCouloirJoin i key st = Ok st' →
  keyToHost st' = keyToHost st ∧ couloirCounter st' = couloirCounter st.
Proof.
  unfold onCouloirJoin. cbn [keyToHost onSocket setSockets].
  destruct (keyToHost st !! key) as [h|];
    [|destruct (Js.isPrototypeKey key); [done|by intros [= <-]]].
  destruct (String.eqb h ""); [by intros [= <-]|].
  cbn -[bindNextSockets]. destruct (hosts st !! h) as [hs|]; [|done].
  cbn -[bindNextSockets]. intros (_ & Hk & Hc & _)%sameIdentity_bind.
  by rewrite Hk, Hc.
Qed.

Lemma onSocketClientData_sameIdentity i data st st' :
  onSocketClientData i data st = Ok st' →
  hosts st' = hosts st ∧ keyToHost st' = keyToHost st ∧
  couloirCounter st' = couloirCounter st.
Proof.
  unfold onSocketClientData.
  destruct (sockets st !! i) as [s|]; [|by intros [= <-]].
  case_bool_decide; [by intros [= <-]|]. cbn zeta.
  case_bool_decide; [by intros [= <-]|].
  destruct (stripPort <$> HOST_MATCH _) as [h|]; [|by intros [= <-]].
  destruct (negb _ && (bool_decide _ || _)); [|by intros [= <-]].
  cbn -[bindNextSockets]. destruct (clients st !! h) as [cs|]; [|done].
  cbn -[bindNextSockets].
  destruct (bindNextSockets h _) as [st2| |] eqn:Hbind; [|done..].
  cbn. intros [= <-].
  apply sameIdentity_bind in Hbind as (Hh & Hk & Hc & _).
  cbn. by rewrite Hh, Hk, Hc.
Qed.

Lemma onSocketEnd_keys i st st' :
  onSocketEnd i st = Ok st' →
  keyToHost st' ⊆ keyToHost st ∧ couloirCounter st' = couloirCounter st.
Proof.
  unfold onSocketEnd.
  destruct (sockets st !! i) as [s|]; [|by intros [= <-]].
  destruct (host s) as [h|]; [|by intros [= <-]].
  destruct (negb _ && bool_decide _); [|by intros [= <-]].
  destruct (hosts st !! h) as [hs|] eqn:Hhs; [|by intros [= <-]].
  unfold closeCouloirIfEmpty. cbn. rewrite lookup_insert_eq. cbn.
  case_bool_decide; intros [= <-]; [done|]. cbn.
  split; [apply map_filter_subseteq|done].
Qed.

(** Apart from an open, no event adds a key or moves the counter. *)
Lemma step_keys (domain : string) e st st' :
  (∀ i h k, e ≠ OpenCouloir i h k) →
  step domain e st = Ok st' →
  keyToHost st' ⊆ keyToHost st ∧ couloirCounter st' = couloirCounter st.
Proof.
  intros Hopen. destruct e as [|i h k|i k|i data|i]; cbn [step].
  - by intros [= <-].
  - by destruct (Hopen i h k).
  - intros [-> ->]%onCouloirJoin_sameIdentity. done.
  - destruct (match sockets st !! i with Some s => onData s | None => false end).
    + destruct (onSocketClientData i data st) as [st1| |] eqn:Hdata; [|done..].
      cbn. intros [= <-].
      apply onSocketClientData_sameIdentity in Hdata as (_ & Hk & Hc).
      destruct (sameIdentity_forward (Write data) (pipesOf st i) st1)
        as (_ & -> & -> & _).
      by rewrite Hk, Hc.
    + cbn. intros [= <-].
      by destruct (sameIdentity_forward (Write data) (pipesOf st i) st)
        as (_ & -> & -> & _).
  - destruct (onSocketEnd i st) as [st1| |] eqn:Hend; [|done..].
    cbn. intros [= <-].
    apply onSocketEnd_keys in Hend as [Hk Hc].
    by destruct (sameIdentity_forward End (pipesOf st i) st1)
      as (_ & -> & -> & _).
Qed.

Lemma keyUnique_onCouloirOpen (domain : string) i h key st :
  wellFormed st → keyUnique st → keyUnique (onCouloirOpen domain i h key st).
Proof.
  intros [_ Hwf] Huniq. unfold onCouloirOpen.
  set (h' := chosenHost domain _ h). cbn [hosts onSocket setSockets].
  destruct (hosts st !! h') as [hs|] eqn:Hh'; [done|].
  intros k1 k2 h0. cbn.
  destruct (decide (key = k1)) as [<-|Hne1], (decide (key = k2)) as [<-|Hne2];
    rewrite ?lookup_insert_eq, ?lookup_insert_ne by done; try done.
  - intros [= <-] Hk2%Hwf. rewrite Hh' in Hk2. by destruct Hk2.
  - intros Hk1%Hwf [= <-]. rewrite Hh' in Hk1. by destruct Hk1.
  - apply Huniq.
Qed.

Lemma step_keyUnique (domain : string) e st st' :
  wellFormed st → keyUnique st → step domain e st = Ok st' → keyUnique st'.
Proof.
  intros Hwf Huniq Hstep.
  assert ((∃ i h k, e = OpenCouloir i h k) ∨ ∀ i h k, e ≠ OpenCouloir i h k)
    as [(i & h & k & ->)|Hno] by (destruct e; eauto).
  - cbn in Hstep. injection Hstep as <-. by apply keyUnique_onCouloirOpen.
  - eapply keyUnique_subseteq; [|done].
    by destruct (step_keys domain e st st' Hno Hstep).
Qed.

Lemma run_registry (domain : string) es st :
  wellFormed st → keyUnique st →
  throwsOr (λ st', wellFormed st' ∧ keyUnique st') (run domain es st).
Proof.
  revert st. induction es as [|e es IH]; intros st Hwf Huniq; cbn [run].
  { done. }
  pose proof (step_ok domain e st Hwf) as Hwf1.
  destruct (step domain e st) as [st1| |] eqn:Hstep; [|done..].
  cbn. apply IH; [done|]. exact (step_keyUnique domain e st st1 Hwf Huniq Hstep).
Qed.

(** X1 — The registry stays consistent.  In every state that a run of the
    relay reaches, whatever connections, control messages, chunks and
    disconnects made it, [hosts] and [clients] hold the same couloirs, every
    key leads to a couloir that is open, and no couloir is reached by two
    keys. *)
Theorem registry_stays_consistent (domain : string) (es : list Event) (st : State) :
  run domain es initial = Ok st →
  (∀ h, is_Some (hosts st !! h) ↔ is_Some (clients st !! h)) ∧
  (∀ k h, keyToHost st !! k = Some h → is_Some (hosts st !! h)) ∧
  (∀ k1 k2 h, keyToHost st !! k1 = Some h →
              keyToHost st !! k2 = Some h → k1 = k2).
Proof.
  intros Hrun.
  pose proof (run_registry domain es initial wellFormed_initial) as Hreg.
  rewrite Hrun in Hreg. destruct Hreg as [[Hsame Hkeys] Huniq]; [|done].
  by intros k1 k2 h.
Qed.

Lemma registry_stays_consistent_witness :
  (∀ h, is_Some (hosts churned !! h) ↔ is_Some (clients churned !! h)) ∧
  (∀ k h, keyToHost churned !! k = Some h → is_Some (hosts churned !! h)) ∧
  (∀ k1 k2 h, keyToHost churned !! k1 = Some h →
              keyToHost churned !! k2 = Some h → k1 = k2).
Proof.
  apply (registry_stays_consistent "my.test" churn churned).
  vm_compute; reflexivity.
Defined.

(** ** What [HOST_MATCH] captures *)

Lemma dotRun_spec s run rest :
  Js.dotRun s = (run, rest) →
  s = run +:+ rest ∧ Js.noLineTerminator run = true.
Proof.
  revert run rest. induction s as [|c s IH]; intros run rest; cbn [Js.dotRun].
  - by intros [= <- <-].
  - destruct (Js.isLineTerminator c) eqn:Hc; [by intros [= <- <-]|].
    destruct (Js.dotRun s) as [run' rest'] eqn:Hrun. intros [= <- <-].
    destruct (IH run' rest' eq_refl) as [-> Hlt]. cbn. by rewrite Hc.
Qed.

Lemma startsWith_split s p :
  Js.startsWith s p = true → s = p +:+ Js.dropChars (String.length p) s.
Proof.
  revert s. induction p as [|x p IH]; intros s; [done|].
  destruct s as [|c s]; [done|].
  destruct (decide (c = x)) as [->|Hne].
  - rewrite startsWith_cons_eq. intros Hs%IH. cbn. by rewrite <- Hs.
  - by rewrite startsWith_cons_ne.
Qed.

Lemma includes_prefix p s : Js.includes (p +:+ s) p = true.
Proof.
  destruct (p +:+ s) eqn:Heq; cbn [Js.includes]; rewrite <- Heq;
    by rewrite startsWith_app.
Qed.

Lemma hostMatchHere_sound s g :
  hostMatchHere s = Some g →
  g ≠ EmptyString ∧ Js.noLineTerminator g = true ∧
  Js.startsWith s (HOST_PREFIX +:+ g +:+ Js.CRLF) = true.
Proof.
  unfold hostMatchHere.
  destruct (Js.startsWith s HOST_PREFIX) eqn:Hprefix; [|done].
  destruct (Js.dotRun _) as [run rest] eqn:Hrun.
  destruct (negb (String.eqb run "")) eqn:Hne; [|done].
  destruct (Js.startsWith rest Js.CRLF) eqn:Hcrlf; [|done].
  cbn. intros [= <-].
  apply negb_true_iff, String.eqb_neq in Hne.
  apply dotRun_spec in Hrun as [Hdrop Hlt].
  apply startsWith_split in Hprefix, Hcrlf.
  change (String.length HOST_PREFIX) with 8 in Hprefix.
  split; [done|]. split; [done|].
  rewrite Hprefix, Hdrop, Hcrlf.
  rewrite <- (append_assoc run), <- (append_assoc HOST_PREFIX).
  apply startsWith_app.
Qed.

Lemma startsWith_includes s p : Js.startsWith s p = true → Js.includes s p = true.
Proof. intros Hs. destruct s; cbn [Js.includes]; by rewrite Hs. Qed.

Lemma HOST_MATCH_noLineTerminator s g :
  HOST_MATCH s = Some g → Js.noLineTerminator g = true.
Proof.
  induction s as [|c s IH].
  - cbn [HOST_MATCH]. destruct (hostMatchHere "") eqn:Hhere; [|done].
    intros [= <-]. by apply hostMatchHere_sound in Hhere as (_ & ? & _).
  - destruct (hostMatchHere (String c s)) as [g'|] eqn:Hhere.
    + rewrite (HOST_MATCH_here _ _ Hhere). intros [= <-].
      by apply hostMatchHere_sound in Hhere as (_ & ? & _).
    + by rewrite (HOST_MATCH_cons _ _ Hhere).
Qed.

(** X2 — What [head.match(HOST_MATCH)] captures is the value of a [Host: ]
    line of the head: it is not empty, holds no CR or LF, and the head holds
    [\r\nHost: <value>\r\n]. *)
Theorem HOST_MATCH_captures_a_header_value (head g : string) :
  HOST_MATCH head = Some g →
  g ≠ EmptyString ∧ Js.noLineTerminator g = true ∧
  Js.includes head (Js.CRLF +:+ "Host: " +:+ g +:+ Js.CRLF) = true.
Proof.
  change (Js.CRLF +:+ "Host: " +:+ g +:+ Js.CRLF)
    with (HOST_PREFIX +:+ g +:+ Js.CRLF).
  induction head as [|c s IH].
  - cbn [HOST_MATCH]. destruct (hostMatchHere "") eqn:Hhere; [|done].
    intros [= <-]. apply hostMatchHere_sound in Hhere as (? & ? & ?).
    eauto using startsWith_includes.
  - destruct (hostMatchHere (String c s)) as [g'|] eqn:Hhere.
    + rewrite (HOST_MATCH_here _ _ Hhere). intros [= <-].
      apply hostMatchHere_sound in Hhere as (? & ? & ?).
      eauto using startsWith_includes.
    + rewrite (HOST_MATCH_cons _ _ Hhere). intros (? & ? & Hin)%IH.
      split; [done|]. split; [done|].
      cbn [Js.includes]. rewrite Hin. apply orb_true_r.
Qed.

Lemma HOST_MATCH_captures_a_header_value_witness :
  HOST_MATCH (request "/" "x.my.test:80") = Some "x.my.test:80" ∧
  Js.includes (request "/" "x.my.test:80")
    (Js.CRLF +:+ "Host: " +:+ "x.my.test:80" +:+ Js.CRLF) = true.
Proof.
  assert (HOST_MATCH (request "/" "x.my.test:80") = Some "x.my.test:80") as H
    by (vm_compute; reflexivity).
  split; [exact H|].
  exact (proj2 (proj2 (HOST_MATCH_captures_a_header_value _ _ H))).
Defined.

(** ** Port stripping *)

Lemma stripPort_clean v :
  Js.noLineTerminator v = true →
  avoids ":" (stripPort v) = true ∧ Js.noLineTerminator (stripPort v) = true.
Proof.
  induction v as [|c v IH]; [done|].
  intros [Hc Hv]%noLineTerminator_cons. cbn [stripPort].
  rewrite Hv, andb_true_r.
  destruct (Ascii.eqb c ":") eqn:Hcolon; [done|].
  destruct (IH Hv) as [Ha Hl]. split.
  - cbn [avoids]. by rewrite Hcolon, Ha.
  - cbn. by rewrite Hc, Hl.
Qed.


(** ** Where a client is routed *)

Lemma sameIdentity_host st st' j :
  sameIdentity st st' → host <$> sockets st' !! j = host <$> sockets st !! j.
Proof.
  intros (_ & _ & _ & _ & Hid). specialize (Hid j).
  destruct (sockets st' !! j), (sockets st !! j); cbn in *; try done.
  unfold identityOf in Hid. congruence.
Qed.

Lemma host_onSocket_same i f st :
  (∀ s, host (f s) = host s) →
  ∀ j, host <$> sockets (onSocket i f st) !! j = host <$> sockets st !! j.
Proof.
  intros Hf j. cbn. destruct (decide (i = j)) as [<-|Hne].
  - rewrite lookup_alter_eq. destruct (sockets st !! i); cbn; [|done].
    by rewrite Hf.
  - by rewrite lookup_alter_ne.
Qed.

Lemma onSocketClientData_host i data st st1 s :
  wellFormed st →
  sockets st !! i = Some s →
  onSocketClientData i data st = Ok st1 →
  host <$> sockets st1 !! i = Some (host s) ∨
  ∃ head g,
    type s = TYPE_CLIENT ∧
    headOf (requestBuffer s +:+ data) = Some head ∧
    HOST_MATCH head = Some g ∧
    stripPort g ≠ EmptyString ∧ is_Some (hosts st !! stripPort g) ∧
    host <$> sockets st1 !! i = Some (Some (stripPort g)).
Proof.
  intros [Hwf _] Hs. destruct (type s) eqn:Hty.
  - unfold onSocketClientData. rewrite Hs, Hty.
    rewrite bool_decide_eq_true_2 by done. intros [= <-]. left.
    rewrite host_onSocket_same by done. by rewrite Hs.
  - rewrite (onSocketClientData_client st i s data Hs Hty). cbn zeta.
    destruct (headOf _) as [head|] eqn:Hhead.
    2:{ intros [= <-]. left. rewrite host_onSocket_same by done. by rewrite Hs. }
    assert (∀ b, host <$> sockets (reply404 i (onSocket i (setRequestBuffer b) st)) !! i
                 = Some (host s)) as H404.
    { intros b. unfold reply404. rewrite !host_onSocket_same by done.
      by rewrite Hs. }
    destruct (HOST_MATCH head) as [g|] eqn:Hg; cbn [fmap option_fmap option_map];
      [|intros [= <-]; by left].
    destruct (negb (String.eqb (stripPort g) "")) eqn:Hne; cbn [andb];
      [|intros [= <-]; by left].
    destruct (bool_decide _ || _); [|intros [= <-]; by left].
    cbn -[bindNextSockets].
    destruct (clients st !! stripPort g) as [cs|] eqn:Hcs; [|done].
    cbn -[bindNextSockets].
    destruct (bindNextSockets _ _) as [st2| |] eqn:Hbind; [|done..].
    cbn. intros [= <-]. right. exists head, g.
    apply negb_true_iff, String.eqb_neq in Hne.
    assert (is_Some (hosts st !! stripPort g)) by (apply Hwf; eauto).
    repeat (split; [done|]).
    rewrite host_onSocket_same by done.
    apply sameIdentity_bind, (sameIdentity_host _ _ i) in Hbind.
    rewrite Hbind. cbn. rewrite !lookup_alter_eq, Hs. done.
Qed.

(** X3 — When the handler of a chunk of data returns (it throws for a host
    that [Object.prototype] knows while no couloir has it) and a socket that
    had no host has one, the socket is a client whose buffered request is
    complete, and its host is what [HOST_MATCH] captures in the head, without
    its port: it names a couloir that is open, is not empty and holds no
    colon.  The registry is consistent, as in every state that a run
    reaches, and the head is ASCII text. *)
Theorem client_is_routed_to_an_open_couloir
    (domain : string) (st st' : State) (i : nat) (s s' : RelaySocket)
    (data h : string) :
  wellFormed st →
  sockets st !! i = Some s → host s = None →
  from_option Js.isAscii true (headOf (requestBuffer s +:+ data)) = true →
  step domain (Data i data) st = Ok st' →
  sockets st' !! i = Some s' → host s' = Some h →
  ∃ head g,
    type s = TYPE_CLIENT ∧
    headOf (requestBuffer s +:+ data) = Some head ∧
    HOST_MATCH head = Some g ∧ h = stripPort g ∧
    is_Some (hosts st !! h) ∧ h ≠ EmptyString ∧ avoids ":" h = true.
Proof.
  intros Hwf Hs Hnone _ Hstep Hs' Hh. cbn [step] in Hstep. rewrite Hs in Hstep.
  assert (∀ st1, host <$> sockets st1 !! i = Some None →
                 Ok (forward (Write data) (pipesOf st i) st1) = Ok st' → False)
    as Hstay.
  { intros st1 Hst1 [= <-].
    pose proof (sameIdentity_host _ _ i
                  (sameIdentity_forward (Write data) (pipesOf st i) st1)) as Hfw.
    rewrite Hs', Hst1 in Hfw. cbn in Hfw. congruence. }
  destruct (onData s).
  2:{ cbn in Hstep. exfalso. eapply Hstay; [|done]. by rewrite Hs, <- Hnone. }
  destruct (onSocketClientData i data st) as [st1| |] eqn:Hdata; [|done..].
  cbn in Hstep.
  destruct (onSocketClientData_host _ _ _ _ _ Hwf Hs Hdata)
    as [Hsame|(head & g & Hty & Hhead & Hg & Hne & Hreg & Hrouted)].
  { exfalso. eapply Hstay; [|done]. by rewrite Hsame, Hnone. }
  injection Hstep as <-.
  pose proof (sameIdentity_host _ _ i
                (sameIdentity_forward (Write data) (pipesOf st i) st1)) as Hfw.
  rewrite Hs', Hrouted in Hfw. cbn in Hfw.
  assert (h = stripPort g) as -> by congruence.
  exists head, g. repeat (split; [done|]).
  apply HOST_MATCH_noLineTerminator in Hg as Hlt.
  by apply stripPort_clean.
Qed.

Lemma wellFormed_joined : wellFormed joined.
Proof.
  unfold joined.
  match goal with
  | |- wellFormed (match run ?d ?es initial with _ => _ end) =>
      pose proof (run_ok d es initial wellFormed_initial) as Hrun;
      destruct (run d es initial)
  end; [exact Hrun|apply wellFormed_initial|done].
Qed.

Lemma client_is_routed_to_an_open_couloir_witness :
  ∃ head g,
    headOf (("GET / HTTP/1.1" +:+ Js.CRLF +:+ "Acc")
              +:+ restOfRequest "Host: x.my.test:8080") = Some head ∧
    HOST_MATCH head = Some g ∧ "x.my.test" = stripPort g ∧
    is_Some (hosts joined !! "x.my.test").
Proof.
  pose (s := mkRelaySocket 2 None ("GET / HTTP/1.1" +:+ Js.CRLF +:+ "Acc")
              TYPE_CLIENT false true [] []).
  pose (data := restOfRequest "Host: x.my.test:8080").
  pose (st' := match step "my.test" (Data 2 data) joined with
               | Ok st => st
               | _ => joined
               end).
  pose (s' := default s (sockets st' !! 2)).
  destruct (client_is_routed_to_an_open_couloir "my.test" joined st' 2 s s'
              data "x.my.test")
    as (head & g & _ & Hhead & Hg & Hh & Hreg & _);
    [exact wellFormed_joined|vm_compute; reflexivity..|].
  exists head, g. repeat split; assumption.
Defined.

(** ** Pairing in order of arrival *)

Lemma filter_without (P P' : nat → Prop)
    `{!∀ x, Decision (P x)} `{!∀ x, Decision (P' x)} (e : nat) (l : list nat) :
  (∀ x, x ∈ l → P' x ↔ P x ∧ x ≠ e) →
  filter P' l = filter (λ x, x ≠ e) (filter P l).
Proof.
  induction l as [|a l IH]; intros Hl; [done|].
  assert (filter P' l = filter (λ x, x ≠ e) (filter P l)) as IH'.
  { apply IH. intros x Hx. apply Hl. by right. }
  specialize (Hl a ltac:(by left)).
  rewrite (filter_cons P'), (filter_cons P).
  destruct (decide (P' a)) as [Ha|Ha], (decide (P a)) as [Hb|Hb].
  - rewrite filter_cons. destruct (decide (a ≠ e)); [by rewrite IH'|]. tauto.
  - tauto.
  - rewrite filter_cons. destruct (decide (a ≠ e)); [tauto|done].
  - done.
Qed.

Lemma filter_other (e : nat) (l : list nat) :
  e ∉ l → filter (λ x, x ≠ e) l = l.
Proof.
  induction l as [|a l IH]; [done|].
  intros [Hne Hl]%not_elem_of_cons. rewrite filter_cons.
  destruct (decide (a ≠ e)) as [|Hn]; [by rewrite IH|].
  destruct Hn. by intros ->.
Qed.

Lemma is_Some_onSocket i f st x :
  is_Some (sockets st !! x) → is_Some (sockets (onSocket i f st) !! x).
Proof.
  intros [s Hs]. cbn. destruct (decide (i = x)) as [<-|Hne].
  - rewrite lookup_alter_eq, Hs. by eauto.
  - rewrite lookup_alter_ne by done. by eauto.
Qed.

Lemma isBusy_onSocket i f st x :
  (∀ s, busy (f s) = busy s) → isBusy (onSocket i f st) x = isBusy st x.
Proof.
  intros Hf. unfold isBusy. cbn. destruct (decide (i = x)) as [<-|Hne].
  - rewrite lookup_alter_eq. destruct (sockets st !! i); cbn; [apply Hf|done].
  - by rewrite lookup_alter_ne.
Qed.

Lemma isBusy_setBusy i st x :
  isBusy (onSocket i (setBusy true) st) x =
    if decide (i = x) then bool_decide (is_Some (sockets st !! x)) else isBusy st x.
Proof.
  destruct (decide (i = x)) as [<-|Hne]; unfold isBusy; cbn.
  - rewrite lookup_alter_eq. by destruct (sockets st !! i).
  - by rewrite lookup_alter_ne.
Qed.

Lemma isBusy_splice c e st x :
  isBusy (splice c e st) x =
    if decide (e = x) then bool_decide (is_Some (sockets st !! x))
    else if decide (c = x) then bool_decide (is_Some (sockets st !! x))
    else isBusy st x.
Proof.
  unfold splice. rewrite !isBusy_onSocket by done.
  rewrite isBusy_setBusy. destruct (decide (e = x)) as [<-|Hne].
  - cbn. apply bool_decide_ext. split; intros [s Hs].
    + destruct (decide (c = e)) as [->|?].
      * rewrite lookup_alter_eq in Hs. destruct (sockets st !! e); by eauto.
      * rewrite lookup_alter_ne in Hs by done. by eauto.
    + destruct (decide (c = e)) as [->|?].
      * rewrite lookup_alter_eq, Hs. by eauto.
      * rewrite lookup_alter_ne by done. by eauto.
  - by rewrite isBusy_setBusy.
Qed.

Lemma idleExposers_splice h m c e es st :
  idleExposers st h = e :: es → NoDup (e :: es) →
  is_Some (sockets st !! e) → c ∉ e :: es →
  idleExposers (splice c e (setClients m st)) h = es.
Proof.
  unfold idleExposers. cbn [hosts splice onSocket setSockets setClients].
  intros Hidle [Hnotin _]%NoDup_cons Hstore Hc.
  rewrite (filter_without (λ i, isBusy st i = false) _ e).
  - rewrite Hidle, filter_cons. destruct (decide (e ≠ e)); [done|].
    by apply filter_other.
  - intros x Hx.
    change (isBusy (splice c e (setClients m st)) x = false ↔
            isBusy st x = false ∧ x ≠ e).
    rewrite isBusy_splice. cbn [sockets setClients].
    destruct (decide (e = x)) as [<-|Hne].
    { rewrite bool_decide_eq_true_2 by done. split; [done|by intros [_ ?]]. }
    destruct (decide (c = x)) as [<-|Hne'].
    + assert (isBusy st c = false → False) as Hbusy.
      { intros Hidle'. apply Hc. rewrite <- Hidle.
        by apply list_elem_of_filter. }
      split; [|by intros [?%Hbusy _]].
      intros Hbd%bool_decide_eq_false. exfalso. apply Hbusy.
      unfold isBusy. destruct (sockets st !! c); [|done].
      destruct Hbd. by eauto.
    + split; [done|by intros [? _]].
Qed.

Lemma clients_fifoPairing h cs es st :
  clients st !! h = Some cs → length cs ≤ length es →
  clients (fifoPairing h cs es st) !! h = Some [] ∧
  hosts (fifoPairing h cs es st) = hosts st.
Proof.
  revert es st. induction cs as [|c cs IH]; intros es st Hcs Hlen.
  { by destruct es. }
  destruct es as [|e es]; [cbn in Hlen; lia|]. cbn [fifoPairing].
  destruct (IH es (splice c e (setClients (<[h:=cs]> (clients st)) st)))
    as [-> ->]; [|cbn in *; lia|done].
  cbn. by rewrite lookup_insert_eq.
Qed.

Lemma fifoPairing_fuel h cs :
  ∀ es st fuel hs,
    hosts st !! h = Some hs → clients st !! h = Some cs →
    idleExposers st h = es → length cs ≤ length es → NoDup es →
    (∀ e, e ∈ es → is_Some (sockets st !! e)) →
    (∀ c, c ∈ cs → c ∉ es) →
    2 * length cs + 2 ≤ fuel →
    bindNextSocketsFuel fuel h st = Ok (fifoPairing h cs es st).
Proof.
  induction cs as [|c cs IH];
    intros es st fuel hs Hhs Hcs Hes Hlen Hdup Hstore Hdisj Hfuel.
  { destruct fuel as [|[|fuel]]; [cbn in Hfuel; lia..|].
    cbn [bindNextSocketsFuel bindLoop]. rewrite Hhs, Hcs. cbn.
    by destruct es. }
  destruct es as [|e es]; [cbn in Hlen; lia|].
  destruct fuel as [|[|fuel]]; [cbn in Hfuel; lia..|].
  cbn [bindNextSocketsFuel]. rewrite Hhs. cbn [mbind Result_bind defined].
  rewrite Hcs. cbn [mbind Result_bind defined].
  assert (filter (λ i, isBusy st i = false) hs = e :: es) as ->.
  { unfold idleExposers in Hes. by rewrite Hhs in Hes. }
  cbn [bindLoop]. rewrite Hcs. cbn [mbind Result_bind defined].
  set (st1 := splice c e (setClients (<[h:=cs]> (clients st)) st)).
  assert (idleExposers st1 h = es) as Hes1.
  { apply idleExposers_splice.
    - done.
    - done.
    - apply Hstore. by left.
    - apply Hdisj. by left. }
  assert (bindNextSocketsFuel fuel h st1 = Ok (fifoPairing h cs es st1)) as ->.
  { apply (IH es st1 fuel hs); try done.
    - subst st1. cbn. by rewrite lookup_insert_eq.
    - cbn in Hlen. lia.
    - by apply NoDup_cons in Hdup as [_ ?].
    - intros x Hx. subst st1. unfold splice.
      do 5 apply is_Some_onSocket. apply Hstore. by right.
    - intros x Hx Hin. apply (Hdisj x); [by right|by right].
    - cbn in Hfuel. lia. }
  cbn [mbind Result_bind]. cbn [fifoPairing]. fold st1.
  destruct (clients_fifoPairing h cs es st1) as [Hempty _].
  { subst st1. cbn. by rewrite lookup_insert_eq. }
  { cbn in Hlen. lia. }
  destruct fuel as [|fuel]; [cbn in Hfuel; lia|].
  cbn [bindLoop]. by rewrite Hempty.
Qed.

(** X4 — When a couloir has at least as many idle exposer sockets as it has
    clients waiting, and no socket is listed twice among the idle ones,
    [bindNextSockets] pairs them in order: the first waiting client with the
    first idle exposer socket, the second with the second, and so on; the
    queue ends empty. *)
Theorem bindNextSockets_pairs_in_order
    (h : string) (st : State) (hs cs : list nat) :
  hosts st !! h = Some hs → clients st !! h = Some cs →
  length cs ≤ length (idleExposers st h) →
  NoDup (idleExposers st h) →
  (∀ e, e ∈ idleExposers st h → is_Some (sockets st !! e)) →
  (∀ c, c ∈ cs → c ∉ idleExposers st h) →
  bindNextSockets h st = Ok (fifoPairing h cs (idleExposers st h) st) ∧
  clients (fifoPairing h cs (idleExposers st h) st) !! h = Some [].
Proof.
  intros Hhs Hcs Hlen Hdup Hstore Hdisj. split.
  - unfold bindNextSockets. eapply fifoPairing_fuel; try done.
    unfold waiting. rewrite Hcs. cbn. lia.
  - by apply clients_fifoPairing.
Qed.


Lemma bindNextSockets_pairs_in_order_witness :
  ∃ st', bindNextSockets "x.my.test" crowded = Ok st' ∧
         pipesOf st' 3 = [1] ∧ pipesOf st' 4 = [2] ∧
         pipesOf st' 1 = [3] ∧ pipesOf st' 2 = [4] ∧
         clients st' !! "x.my.test" = Some [].
Proof.
  assert (idleExposers crowded "x.my.test" = [1; 2]) as Hidle
    by (vm_compute; reflexivity).
  destruct (bindNextSockets_pairs_in_order "x.my.test" crowded [1; 2] [3; 4])
    as [Hbind Hempty].
  - vm_compute; reflexivity.
  - vm_compute; reflexivity.
  - rewrite Hidle. cbn. lia.
  - rewrite Hidle. apply NoDup_cons. split; [|apply NoDup_singleton].
    by intros ?%list_elem_of_singleton.
  - rewrite Hidle.
    intros e [->|[->|[]%elem_of_nil]%elem_of_cons]%elem_of_cons;
      vm_compute; eauto.
  - rewrite Hidle.
    intros c [->|[->|[]%elem_of_nil]%elem_of_cons]%elem_of_cons
             [?|[?|[]%elem_of_nil]%elem_of_cons]%elem_of_cons; discriminate.
  - eexists. split; [exact Hbind|].
    rewrite Hidle. repeat split; vm_compute; reflexivity.
Defined.

(** ** Requests that arrive in pieces *)

Lemma onSocket_onSocket i f g st :
  onSocket i f (onSocket i g st) = onSocket i (f ∘ g) st.
Proof. unfold onSocket. cbn. by rewrite alter_alter_eq. Qed.

Lemma onSocket_ext i f g st :
  (∀ s, f s = g s) → onSocket i f st = onSocket i g st.
Proof.
  intros Hfg. unfold onSocket. f_equal. apply alter_ext. intros s _. apply Hfg.
Qed.

Lemma run_one (domain : string) e st : run domain [e] st = step domain e st.
Proof. cbn [run]. by destruct (step domain e st). Qed.

Lemma step_data_split (domain : string) st i s d x :
  sockets st !! i = Some s → type s = TYPE_CLIENT →
  onData s = true → pipes s = [] →
  step domain (Data i x) (onSocket i (setRequestBuffer (requestBuffer s +:+ d)) st)
  = step domain (Data i (d +:+ x)) st.
Proof.
  intros Hs Hty Hon Hpipes.
  set (st1 := onSocket i (setRequestBuffer (requestBuffer s +:+ d)) st).
  assert (sockets st1 !! i = Some (setRequestBuffer (requestBuffer s +:+ d) s))
    as Hs1 by (subst st1; cbn; by rewrite lookup_alter_eq, Hs).
  rewrite (step_data_listening domain st1 i _ x Hs1 Hon Hpipes).
  rewrite (step_data_listening domain st i s _ Hs Hon Hpipes).
  rewrite (onSocketClientData_client st1 i _ x Hs1 Hty).
  rewrite (onSocketClientData_client st i s _ Hs Hty).
  cbn zeta. cbn [requestBuffer setRequestBuffer].
  rewrite append_assoc. subst st1. rewrite onSocket_onSocket.
  rewrite (onSocket_ext i (_ ∘ _) (setRequestBuffer (requestBuffer s +:+ d +:+ x)))
    by done.
  reflexivity.
Qed.

(** X5 — A client's request handled in one piece or cut into chunks leaves
    the relay in the same state, as long as no chunk but the last completes
    the head: chunks that arrive before the end of the head are only
    buffered. *)
Theorem chunks_are_reassembled
    (domain : string) (st : State) (i : nat) (s : RelaySocket)
    (chunks : list string) (d : string) :
  sockets st !! i = Some s → type s = TYPE_CLIENT →
  onData s = true → pipes s = [] →
  incomplete (requestBuffer s) chunks = true →
  run domain (chunksOn i (chunks ++ [d])) st =
    step domain (Data i (concatChunks chunks +:+ d)) st.
Proof.
  revert st s. induction chunks as [|c chunks IH];
    intros st s Hs Hty Hon Hpipes Hinc.
  { apply run_one. }
  cbn [incomplete] in Hinc. apply andb_true_iff in Hinc as [Hnone Hinc].
  apply bool_decide_eq_true in Hnone.
  change (chunksOn i ((c :: chunks) ++ [d]))
    with (Data i c :: chunksOn i (chunks ++ [d])).
  cbn [run].
  rewrite (step_data_listening domain st i s c Hs Hon Hpipes).
  rewrite (onSocketClientData_client st i s c Hs Hty). cbn zeta.
  rewrite Hnone. cbn [mbind Result_bind].
  set (st1 := onSocket i (setRequestBuffer (requestBuffer s +:+ c)) st).
  assert (sockets st1 !! i = Some (setRequestBuffer (requestBuffer s +:+ c) s))
    as Hs1 by (subst st1; cbn; by rewrite lookup_alter_eq, Hs).
  rewrite (IH st1 _ Hs1 Hty Hon Hpipes Hinc).
  subst st1. rewrite (step_data_split domain st i s c _ Hs Hty Hon Hpipes).
  cbn [concatChunks foldr]. by rewrite append_assoc.
Qed.

Lemma chunks_are_reassembled_witness :
  run "my.test"
    (chunksOn 2 (["ept: */*" +:+ Js.CRLF +:+ "Ho"; "st: x.my.test" +:+ Js.CRLF]
                   ++ [Js.CRLF +:+ "body"])) joined
  = step "my.test"
      (Data 2 (concatChunks ["ept: */*" +:+ Js.CRLF +:+ "Ho";
                             "st: x.my.test" +:+ Js.CRLF]
                 +:+ (Js.CRLF +:+ "body"))) joined.
Proof.
  apply (chunks_are_reassembled "my.test" joined 2
           (mkRelaySocket 2 None ("GET / HTTP/1.1" +:+ Js.CRLF +:+ "Acc")
              TYPE_CLIENT false true [] []));
    vm_compute; reflexivity.
Defined.

(** ** The life of a couloir *)

Lemma hosts_onCouloirOpen (domain : string) i h key st h0 :
  is_Some (hosts st !! h0) →
  is_Some (hosts (onCouloirOpen domain i h key st) !! h0).
Proof.
  intros Hreg. unfold onCouloirOpen. rewrite chosenHost_setType.
  cbn [hosts onSocket setSockets].
  destruct (hosts st !! chosenHost domain st h) eqn:Hh; [done|]. cbn.
  destruct (decide (chosenHost domain st h = h0)) as [->|Hne].
  - rewrite lookup_insert_eq. by eauto.
  - by rewrite lookup_insert_ne.
Qed.

Lemma hosts_onCouloirJoin i key st st' h0 :
  onCouloirJoin i key st = Ok st' →
  is_Some (hosts st !! h0) → is_Some (hosts st' !! h0).
Proof.
  unfold onCouloirJoin. cbn [keyToHost hosts onSocket setSockets].
  destruct (keyToHost st !! key) as [h|];
    [|destruct (Js.isPrototypeKey key); [done|by intros [= <-]]].
  destruct (String.eqb h ""); [by intros [= <-]|].
  destruct (hosts st !! h) as [hs|] eqn:Hhs; [|done].
  cbn -[bindNextSockets]. intros (Hh & _)%sameIdentity_bind Hreg.
  rewrite Hh. cbn. destruct (decide (h = h0)) as [->|Hne].
  - rewrite lookup_insert_eq. by eauto.
  - by rewrite lookup_insert_ne.
Qed.

Lemma hosts_forward o dests st : hosts (forward o dests st) = hosts st.
Proof.
  pose proof (registry_forward o dests st) as H. unfold registry in H.
  congruence.
Qed.

(** X6 — A couloir goes away only at the end of one of its own exposer
    sockets, and only when no other socket is listed for it: no other event
    of the relay (a connection, an open, a join, data, the end of a client
    or of another couloir's socket) removes a registered host. *)
Theorem couloir_closes_only_when_its_last_exposer_ends
    (domain : string) (e : Event) (st st' : State) (h : string) :
  step domain e st = Ok st' →
  is_Some (hosts st !! h) → hosts st' !! h = None →
  ∃ i s hs,
    e = Ended i ∧ sockets st !! i = Some s ∧
    type s = TYPE_HOST ∧ host s = Some h ∧
    hosts st !! h = Some hs ∧ filter (λ j, j ≠ id s) hs = [].
Proof.
  intros Hstep Hreg Hgone.
  assert (is_Some (hosts st' !! h) → False) as Hcontra
    by (rewrite Hgone; by intros [? ?]).
  destruct e as [|i h0 k|i k|i data|i]; cbn [step] in Hstep.
  - injection Hstep as <-. by destruct Hcontra.
  - injection Hstep as <-. destruct Hcontra. by apply hosts_onCouloirOpen.
  - destruct Hcontra. by eapply hosts_onCouloirJoin.
  - revert Hstep.
    destruct (match sockets st !! i with Some s => onData s | None => false end);
      [destruct (onSocketClientData i data st) as [st1| |] eqn:Hdata; [|done..]|];
      cbn; intros [= <-]; destruct Hcontra; rewrite hosts_forward; [|done].
    apply onSocketClientData_sameIdentity in Hdata as (-> & _). done.
  - destruct (onSocketEnd i st) as [st1| |] eqn:Hend; [|done..].
    cbn in Hstep. injection Hstep as <-.
    rewrite hosts_forward in Hgone, Hcontra.
    unfold onSocketEnd in Hend.
    destruct (sockets st !! i) as [s|] eqn:Hs;
      [|injection Hend as <-; by destruct Hcontra].
    destruct (host s) as [h0|] eqn:Hhost;
      [|injection Hend as <-; by destruct Hcontra].
    destruct (negb (String.eqb h0 "")) eqn:Hne; cbn [andb] in Hend;
      [|injection Hend as <-; by destruct Hcontra].
    case_bool_decide as Hty; [|injection Hend as <-; by destruct Hcontra].
    destruct (hosts st !! h0) as [hs|] eqn:Hhs;
      [|injection Hend as <-; by destruct Hcontra].
    destruct (filter (λ j, j ≠ id s) hs) as [|j rest] eqn:Hleft.
    + rewrite closeCouloirIfEmpty_empty in Hend
        by (cbn; by rewrite lookup_insert_eq).
      injection Hend as <-. cbn in Hgone.
      destruct (decide (h0 = h)) as [->|Hother].
      * exists i, s, hs. by rewrite Hhs.
      * destruct Hcontra. cbn.
        by rewrite lookup_delete_ne, lookup_insert_ne.
    + rewrite (closeCouloirIfEmpty_nonempty _ _ j rest) in Hend
        by (cbn; by rewrite lookup_insert_eq).
      injection Hend as <-. destruct Hcontra. cbn.
      destruct (decide (h0 = h)) as [->|Hother].
      * rewrite lookup_insert_eq. by eauto.
      * by rewrite lookup_insert_ne.
Qed.

Lemma couloir_closes_only_when_its_last_exposer_ends_witness :
  ∃ i s hs,
    Ended 1 = Ended i ∧ sockets churned !! i = Some s ∧
    type s = TYPE_HOST ∧ host s = Some "x.my.test" ∧
    hosts churned !! "x.my.test" = Some hs ∧ filter (λ j, j ≠ id s) hs = [].
Proof.
  apply (couloir_closes_only_when_its_last_exposer_ends "my.test" (Ended 1)
           churned
           (match step "my.test" (Ended 1) churned with
            | Ok st => st
            | _ => churned
            end) "x.my.test").
  - vm_compute; reflexivity.
  - vm_compute; eauto.
  - vm_compute; reflexivity.
Defined.

(** ** From the open to the first join *)

Lemma chosenHost_nonempty (domain : string) st h :
  chosenHost domain st h ≠ EmptyString.
Proof.
  unfold chosenHost. destruct (Js.endsWith h ("." +:+ domain)) eqn:Hends.
  - intros ->. by cbn in Hends.
  - done.
Qed.

Lemma bindNextSockets_empty_queue h st hs :
  hosts st !! h = Some hs → clients st !! h = Some [] →
  bindNextSockets h st = Ok st.
Proof.
  intros Hhs Hcs. unfold bindNextSockets, waiting. rewrite Hcs.
  change (2 * length (default [] (Some (@nil nat))) + 2) with 2.
  cbn [bindNextSocketsFuel bindLoop].
  rewrite Hhs, Hcs. reflexivity.
Qed.

(** X7 — The key handed out by a successful open is good for a join: when
    the chosen name is free, an open on socket [i] followed by a join with
    its key on a connected socket [j] completes; [j] becomes the one exposer
    socket of the new couloir and is acknowledged last with [Joined].  The
    key is any string but [__proto__], which an object does not keep as a
    property of its own. *)
Theorem opened_key_joins
    (domain : string) (st : State) (i j : nat) (h key : string) :
  key ≠ "__proto__" →
  hosts st !! chosenHost domain st h = None →
  is_Some (sockets st !! j) →
  ∃ st2 s,
    run domain [OpenCouloir i h key; JoinCouloir j key] st = Ok st2 ∧
    hosts st2 !! chosenHost domain st h = Some [j] ∧
    clients st2 !! chosenHost domain st h = Some [] ∧
    sockets st2 !! j = Some s ∧
    host s = Some (chosenHost domain st h) ∧ type s = TYPE_HOST ∧
    last (sent s) = Some (Response Joined).
Proof.
  intros _ Hfree Hj.
  pose proof (chosenHost_nonempty domain st h) as Hne.
  set (h' := chosenHost domain st h) in *.
  apply String.eqb_neq in Hne.
  cbn [run step]. cbn [mbind Result_bind].
  unfold onCouloirOpen. rewrite chosenHost_setType. fold h'.
  cbn [hosts onSocket setSockets]. rewrite Hfree.
  match goal with
  | |- context [onCouloirJoin j key ?st] => set (st1 := st)
  end.
  assert (is_Some (sockets st1 !! j)) as [s1 Hs1].
  { subst st1. unfold sendResponse. by do 3 apply is_Some_onSocket. }
  unfold onCouloirJoin.
  assert (keyToHost (onSocket j (setType TYPE_HOST) st1) !! key = Some h') as ->
    by (subst st1; cbn; by rewrite lookup_insert_eq).
  rewrite Hne.
  assert (hosts (onSocket j (setHost (Some h')) (onSocket j (setType TYPE_HOST) st1))
            !! h' = Some []) as ->
    by (subst st1; cbn; by rewrite lookup_insert_eq).
  cbn [defined mbind Result_bind].
  match goal with
  | |- context [bindNextSockets h' ?st] => set (st2 := st)
  end.
  exists st2, (send (Response Joined) (setHost (Some h') (setType TYPE_HOST s1))).
  rewrite (bindNextSockets_empty_queue h' st2 ([] ++ [j])).
  - split; [by destruct (Ok st2)|].
    split; [subst st2 st1; cbn; by rewrite lookup_insert_eq|].
    split; [subst st2 st1; cbn; by rewrite lookup_insert_eq|].
    split.
    { subst st2. unfold sendResponse. cbn [sockets onSocket setSockets setHosts].
      by rewrite !lookup_alter_eq, Hs1. }
    repeat split. cbn. apply last_snoc.
  - subst st2 st1. cbn. by rewrite lookup_insert_eq.
  - subst st2 st1. cbn. by rewrite lookup_insert_eq.
Qed.

Lemma opened_key_joins_witness :
  ∃ st2 s,
    run "my.test" [OpenCouloir 0 "x.my.test" "k1"; JoinCouloir 1 "k1"]
      (onConnection (onConnection initial)) = Ok st2 ∧
    hosts st2 !! "x.my.test" = Some [1] ∧
    clients st2 !! "x.my.test" = Some [] ∧
    sockets st2 !! 1 = Some s ∧
    host s = Some "x.my.test" ∧ type s = TYPE_HOST ∧
    last (sent s) = Some (Response Joined).
Proof.
  apply (opened_key_joins "my.test" (onConnection (onConnection initial))
           0 1 "x.my.test" "k1").
  - done.
  - vm_compute; reflexivity.
  - vm_compute; eauto.
Defined.

(** ** After the last exposer has gone *)

Lemma keyToHost_forward o dests st :
  keyToHost (forward o dests st) = keyToHost st.
Proof.
  pose proof (registry_forward o dests st) as H. unfold registry in H.
  congruence.
Qed.

Lemma step_ended_last (domain : string) st i s h hs :
  sockets st !! i = Some s →
  host s = Some h → h ≠ EmptyString → type s = TYPE_HOST →
  hosts st !! h = Some hs → filter (λ j, j ≠ id s) hs = [] →
  ∃ st',
    step domain (Ended i) st = Ok st' ∧
    hosts st' !! h = None ∧
    ∀ k, keyToHost st !! k = Some h → keyToHost st' !! k = None.
Proof.
  intros Hs Hhost Hne Hty Hhs Hleft. cbn [step].
  rewrite (onSocketEnd_exposer st i s h hs Hs Hhost Hne Hty Hhs), Hleft.
  rewrite closeCouloirIfEmpty_empty by (cbn; by rewrite lookup_insert_eq).
  cbn [mbind Result_bind]. eexists. split; [reflexivity|].
  split.
  - rewrite hosts_forward. cbn. by rewrite lookup_delete_eq.
  - intros k Hk. rewrite keyToHost_forward.
    cbn. apply map_lookup_filter_None. right. intros h' Hk'. cbn.
    rewrite Hk in Hk'. injection Hk' as <-. by intros [].
Qed.

(** X8 — When the last exposer socket of a couloir ends, the couloir is out
    of reach at once: a join with a key that led to it is answered with the
    invalid-key error and changes nothing in the registry, and a client
    whose head, ASCII text, names its host gets the 404 reply.  The host and
    the key name no member of [Object.prototype]: for such a name the
    handler throws. *)
Theorem closed_couloir_is_out_of_reach
    (domain : string) (st : State) (i : nat) (s : RelaySocket)
    (h : string) (hs : list nat) :
  sockets st !! i = Some s →
  host s = Some h → h ≠ EmptyString → type s = TYPE_HOST →
  hosts st !! h = Some hs → filter (λ j, j ≠ id s) hs = [] →
  Js.isPrototypeKey h = false →
  ∃ st',
    step domain (Ended i) st = Ok st' ∧
    (∀ j sj k,
       keyToHost st !! k = Some h → Js.isPrototypeKey k = false →
       sockets st' !! j = Some sj →
       ∃ st'',
         step domain (JoinCouloir j k) st' = Ok st'' ∧
         registry st'' = registry st' ∧
         sentOn st'' j = sent sj ++ [Response (Error invalidKey)]) ∧
    (∀ j sj data head v,
       sockets st' !! j = Some sj → type sj = TYPE_CLIENT →
       onData sj = true → pipes sj = [] →
       headOf (requestBuffer sj +:+ data) = Some head →
       Js.isAscii head = true →
       HOST_MATCH head = Some v → stripPort v = h →
       ∃ st'',
         step domain (Data j data) st' = Ok st'' ∧
         registry st'' = registry st' ∧
         sentOn st'' j = sent sj ++ [Write notFound; End]).
Proof.
  intros Hs Hhost Hne Hty Hhs Hleft Hplain.
  destruct (step_ended_last domain st i s h hs Hs Hhost Hne Hty Hhs Hleft)
    as (st' & Hstep & Hgone & Hkeys).
  exists st'. split; [done|]. split.
  - intros j sj k Hk Hproto Hj. cbn [step]. unfold onCouloirJoin.
    cbn [keyToHost onSocket setSockets]. rewrite (Hkeys k Hk), Hproto.
    eexists. split; [reflexivity|]. split; [reflexivity|].
    unfold sentOn, sendResponse. cbn. by rewrite !lookup_alter_eq, Hj.
  - intros j sj data head v Hj Htyj Hon Hpipes Hhead _ Hv Hstrip.
    rewrite (step_data_listening domain st' j sj data Hj Hon Hpipes).
    rewrite (onSocketClientData_client st' j sj data Hj Htyj). cbn zeta.
    rewrite Hhead, Hv. cbn [fmap option_fmap option_map]. rewrite Hstrip.
    rewrite Hplain, bool_decide_eq_false_2, andb_false_r
      by (rewrite Hgone; by intros [? ?]).
    eexists. split; [reflexivity|]. by apply reply404_effect.
Qed.

Lemma closed_couloir_is_out_of_reach_witness :
  ∃ st',
    step "my.test" (Ended 1) (onConnection churned) = Ok st' ∧
    (∃ st'',
       step "my.test" (JoinCouloir 4 "k1") st' = Ok st'' ∧
       registry st'' = registry st' ∧
       sentOn st'' 4 = [Response (Error invalidKey)]) ∧
    (∃ st'',
       step "my.test" (Data 4 (request "/" "x.my.test:80")) st' = Ok st'' ∧
       registry st'' = registry st' ∧
       sentOn st'' 4 = [Write notFound; End]).
Proof.
  destruct (closed_couloir_is_out_of_reach "my.test" (onConnection churned) 1
              (default (mkRelaySocket 0 None "" TYPE_CLIENT false false [] [])
                 (sockets churned !! 1))
              "x.my.test" [1])
    as (st' & Hstep & Hjoin & Hdata); [vm_compute; reflexivity| reflexivity
      | done | reflexivity | vm_compute; reflexivity | vm_compute; reflexivity
      | vm_compute; reflexivity |].
  exists st'. split; [exact Hstep|].
  pose (s4 := mkRelaySocket 4 None "" TYPE_CLIENT false true [] []).
  assert (sockets st' !! 4 = Some s4) as H4.
  { vm_compute in Hstep. injection Hstep as <-. vm_compute; reflexivity. }
  split.
  - destruct (Hjoin 4 s4 "k1") as (st'' & Hj1 & Hj2 & Hj3);
      [vm_compute; reflexivity|vm_compute; reflexivity|exact H4|].
    exists st''. repeat split; assumption.
  - destruct (Hdata 4 s4 (request "/" "x.my.test:80")
                (Js.subarray0 (request "/" "x.my.test:80")
                   (Js.indexOf (request "/" "x.my.test:80") Js.CRLFCRLF + 2))
                "x.my.test:80") as (st'' & Hd1 & Hd2 & Hd3);
      [exact H4|reflexivity..|vm_compute; reflexivity|vm_compute; reflexivity
      |vm_compute; reflexivity|vm_compute; reflexivity|].
    exists st''. repeat split; assumption.
Defined.

(** ** Busy sockets stay busy *)

Lemma busyKept_refl st : busyKept st st.
Proof. by split. Qed.

Lemma busyKept_trans st1 st2 st3 :
  busyKept st1 st2 → busyKept st2 st3 → busyKept st1 st3.
Proof.
  intros [Hc Hb] [Hc' Hb']. split; [lia|].
  intros x Hx Hbusy. apply Hb'; [lia|]. by apply Hb.
Qed.

Lemma busyKept_onSocket i f st :
  (∀ s, busy s = true → busy (f s) = true) → busyKept st (onSocket i f st).
Proof.
  intros Hf. split; [done|]. intros x _. unfold isBusy. cbn.
  destruct (decide (i = x)) as [<-|Hne].
  - rewrite lookup_alter_eq. destruct (sockets st !! i); cbn; [apply Hf|done].
  - by rewrite lookup_alter_ne.
Qed.

Lemma busyKept_registry st st' :
  socketCounter st' = socketCounter st → sockets st' = sockets st →
  busyKept st st'.
Proof.
  intros Hc Hs. split; [lia|]. intros x _. unfold isBusy. by rewrite Hs.
Qed.

Lemma busyKept_setClients m st : busyKept st (setClients m st).
Proof. by apply busyKept_registry. Qed.

Lemma busyKept_setHosts m st : busyKept st (setHosts m st).
Proof. by apply busyKept_registry. Qed.

Lemma busyKept_setKeyToHost m st : busyKept st (setKeyToHost m st).
Proof. by apply busyKept_registry. Qed.

Lemma busyKept_setCouloirCounter n st : busyKept st (setCouloirCounter n st).
Proof. by apply busyKept_registry. Qed.

Lemma busyKept_splice c e st : busyKept st (splice c e st).
Proof.
  unfold splice.
  repeat (eapply busyKept_trans; [|apply busyKept_onSocket; by intros []]).
  apply busyKept_refl.
Qed.

Lemma busyKept_bindFuel fuel :
  (∀ h st st', bindNextSocketsFuel fuel h st = Ok st' → busyKept st st') ∧
  (∀ h p st st', bindLoop fuel h p st = Ok st' → busyKept st st').
Proof.
  induction fuel as [|fuel [IHbind IHloop]]; [split; intros; discriminate|].
  split.
  - intros h st st'. cbn [bindNextSocketsFuel].
    destruct (hosts st !! h) as [hs|]; [|done]. cbn.
    destruct (clients st !! h) as [cs|]; [|done]. cbn. apply IHloop.
  - intros h p st st'. cbn [bindLoop].
    destruct (clients st !! h) as [cs|]; [|done]. cbn.
    destruct cs as [|c cs]; [intros [= <-]; apply busyKept_refl|].
    destruct p as [|e rest]; [intros [= <-]; apply busyKept_refl|].
    set (st1 := splice c e (setClients (<[h := cs]> (clients st)) st)).
    destruct (bindNextSocketsFuel fuel h st1) as [st2| |] eqn:Hbind; [|done..].
    cbn. intros Hloop.
    eapply busyKept_trans; [|eapply busyKept_trans;
                              [by eapply IHbind|by eapply IHloop]].
    eapply busyKept_trans; [|apply busyKept_splice].
    by apply busyKept_registry.
Qed.

Lemma busyKept_bind h st st' : bindNextSockets h st = Ok st' → busyKept st st'.
Proof. apply busyKept_bindFuel. Qed.

Lemma busyKept_forward o dests st : busyKept st (forward o dests st).
Proof.
  unfold forward. revert st. induction dests as [|d dests IH]; intros st.
  - apply busyKept_refl.
  - cbn [foldl]. eapply busyKept_trans; [|apply IH].
    by apply busyKept_onSocket.
Qed.

Lemma busyKept_onConnection st : busyKept st (onConnection st).
Proof.
  split; [cbn; lia|]. intros x Hx. unfold isBusy, onConnection. cbn.
  rewrite lookup_insert_ne by lia. done.
Qed.

Lemma busyKept_step (domain : string) e st st' :
  step domain e st = Ok st' → busyKept st st'.
Proof.
  destruct e as [|i h k|i k|i data|i]; cbn [step].
  - intros [= <-]. apply busyKept_onConnection.
  - intros [= <-]. unfold onCouloirOpen. rewrite chosenHost_setType.
    cbn [hosts onSocket setSockets].
    destruct (hosts st !! chosenHost domain st h).
    + unfold sendResponse.
      eapply busyKept_trans; apply busyKept_onSocket; by intros [].
    + unfold sendResponse.
      eapply busyKept_trans; [|apply busyKept_onSocket; by intros []].
      eapply busyKept_trans; [|apply busyKept_setClients].
      eapply busyKept_trans; [|apply busyKept_setHosts].
      eapply busyKept_trans; [|apply busyKept_setKeyToHost].
      eapply busyKept_trans; [|apply busyKept_onSocket; by intros []].
      eapply busyKept_trans; [|apply busyKept_setCouloirCounter].
      apply busyKept_onSocket; by intros [].
  - unfold onCouloirJoin. cbn [keyToHost hosts onSocket setSockets].
    destruct (keyToHost st !! k) as [h|].
    2:{ destruct (Js.isPrototypeKey k); [done|].
        intros [= <-]. unfold sendResponse.
        eapply busyKept_trans; apply busyKept_onSocket; by intros []. }
    destruct (String.eqb h "").
    { intros [= <-]. unfold sendResponse.
      eapply busyKept_trans; apply busyKept_onSocket; by intros []. }
    destruct (hosts st !! h) as [hs|]; [|done].
    cbn -[bindNextSockets]. intros Hbind%busyKept_bind.
    eapply busyKept_trans; [|exact Hbind]. unfold sendResponse.
    eapply busyKept_trans; [|apply busyKept_onSocket; by intros []].
    eapply busyKept_trans; [|apply busyKept_setHosts].
    eapply busyKept_trans; apply busyKept_onSocket; by intros [].
  - assert (∀ st1, onSocketClientData i data st = Ok st1 → busyKept st st1)
      as Hdata.
    { intros st1. unfold onSocketClientData.
      destruct (sockets st !! i) as [s|]; [|intros [= <-]; apply busyKept_refl].
      case_bool_decide;
        [intros [= <-]; apply busyKept_onSocket; by intros []|]. cbn zeta.
      case_bool_decide;
        [intros [= <-]; apply busyKept_onSocket; by intros []|].
      assert (∀ b, busyKept st (reply404 i (onSocket i (setRequestBuffer b) st)))
        as H404.
      { intros b. unfold reply404.
        eapply busyKept_trans; [|apply busyKept_onSocket; by intros []].
        eapply busyKept_trans; apply busyKept_onSocket; by intros []. }
      destruct (stripPort <$> HOST_MATCH _) as [h|]; [|intros [= <-]; apply H404].
      destruct (negb _ && (bool_decide _ || _)); [|intros [= <-]; apply H404].
      cbn -[bindNextSockets]. destruct (clients st !! h) as [cs|]; [|done].
      cbn -[bindNextSockets].
      destruct (bindNextSockets h _) as [st2| |] eqn:Hbind; [|done..].
      cbn. intros [= <-]. apply busyKept_bind in Hbind.
      eapply busyKept_trans; [|apply busyKept_onSocket; by intros []].
      eapply busyKept_trans; [|exact Hbind].
      eapply busyKept_trans; [|apply busyKept_setClients].
      eapply busyKept_trans; apply busyKept_onSocket; by intros []. }
    destruct (match sockets st !! i with Some s => onData s | None => false end);
      [destruct (onSocketClientData i data st) as [st1| |]; [|done..]|];
      cbn; intros [= <-].
    + eapply busyKept_trans; [by apply Hdata|apply busyKept_forward].
    + apply busyKept_forward.
  - destruct (onSocketEnd i st) as [st1| |] eqn:Hend; [|done..].
    cbn. intros [= <-].
    eapply busyKept_trans; [|apply busyKept_forward].
    unfold onSocketEnd in Hend.
    destruct (sockets st !! i) as [s|]; [|injection Hend as <-; apply busyKept_refl].
    destruct (host s) as [h|]; [|injection Hend as <-; apply busyKept_refl].
    destruct (negb _ && bool_decide _);
      [|injection Hend as <-; apply busyKept_refl].
    destruct (hosts st !! h) as [hs|];
      [|injection Hend as <-; apply busyKept_refl].
    unfold closeCouloirIfEmpty in Hend. cbn in Hend.
    rewrite lookup_insert_eq in Hend. cbn in Hend.
    revert Hend. case_bool_decide; intros [= <-]; by apply busyKept_registry.
Qed.

Lemma busyKept_run (domain : string) es st st' :
  run domain es st = Ok st' → busyKept st st'.
Proof.
  revert st. induction es as [|e es IH]; intros st; cbn [run].
  - intros [= <-]. apply busyKept_refl.
  - destruct (step domain e st) as [st1| |] eqn:Hstep; [|done..].
    cbn. intros Hrun. eapply busyKept_trans; [|by apply IH].
    by eapply busyKept_step.
Qed.

(** X9 — A socket that is busy stays busy: no event of the relay clears the
    flag that [bindNextSockets] sets when it splices a socket.  An exposer
    socket that has served a client is never idle again, so it is never
    among the [pendingHosts] of a later pairing, for any couloir. *)
Theorem busy_is_never_cleared
    (domain : string) (es : list Event) (st st' : State) (i : nat) :
  run domain es st = Ok st' →
  i < socketCounter st → isBusy st i = true →
  isBusy st' i = true ∧ ∀ h, i ∉ idleExposers st' h.
Proof.
  intros [_ Hkept]%busyKept_run Hi Hbusy.
  assert (isBusy st' i = true) as Hbusy' by by apply Hkept.
  split; [done|]. intros h [Hidle _]%list_elem_of_filter. congruence.
Qed.

Lemma busy_is_never_cleared_witness :
  isBusy churned 1 = true ∧ ∀ h, 1 ∉ idleExposers churned h.
Proof.
  apply (busy_is_never_cleared "my.test"
           [Ended 2; Connection; Data 3 (request "/" "x.my.test")]
           (match run "my.test"
                    [Connection; OpenCouloir 0 "x.my.test" "k1";
                     Connection; JoinCouloir 1 "k1";
                     Connection; Data 2 (request "/" "x.my.test")] initial with
            | Ok st => st
            | _ => initial
            end)
           churned 1).
  - vm_compute; reflexivity.
  - vm_compute; lia.
  - vm_compute; reflexivity.
Defined.

End RelayExtras.

(** * The head parsers of [src/http.js] *)

Module HttpProofs.
Import Http RequestFacts.

(** ** Splitting *)

Lemma append_empty (s : string) : s +:+ "" = s.
Proof. induction s as [|c s IH]; cbn; [done|]. by rewrite IH. Qed.

Lemma splitFrom_skip sep x s :
  splitFrom sep (String.length x) (x +:+ s) = splitFrom sep 0 s.
Proof. induction x as [|c x IH]; [done|]. cbn. by destruct x. Qed.

Lemma split_sep c sep s :
  split (String c sep +:+ s) (String c sep) = "" :: split s (String c sep).
Proof.
  unfold split. cbn [String.append splitFrom].
  change (String c (sep +:+ s)) with (String c sep +:+ s).
  rewrite startsWith_app.
  replace (String.length (String c sep) - 1) with (String.length sep)
    by (cbn [String.length]; lia).
  by rewrite splitFrom_skip.
Qed.

Lemma split_cons_ne c s sep p ps :
  Js.startsWith (String c s) sep = false →
  split s sep = p :: ps → split (String c s) sep = String c p :: ps.
Proof. unfold split. cbn [splitFrom]. by intros -> ->. Qed.

(** A piece that holds no first character of the separator. *)
Lemma split_avoids c sep a s :
  Relay.avoids c a = true →
  split (a +:+ String c sep +:+ s) (String c sep) = a :: split s (String c sep).
Proof.
  induction a as [|x a IH]; [intros _; apply split_sep|].
  intros [Hx Ha]%avoids_cons. cbn [String.append].
  apply split_cons_ne; [by apply startsWith_cons_ne|by apply IH].
Qed.

Lemma split_avoids_end c sep a :
  Relay.avoids c a = true → split a (String c sep) = [a].
Proof.
  induction a as [|x a IH]; [done|].
  intros [Hx Ha]%avoids_cons.
  apply split_cons_ne; [by apply startsWith_cons_ne|by apply IH].
Qed.

Lemma split_line a :
  Relay.avoids Js.CR a = true → split a Js.CRLF = [a].
Proof. apply (split_avoids_end Js.CR (String Js.LF "")). Qed.

Lemma includes_cons c a sep :
  Js.includes (String c a) sep = false →
  Js.startsWith (String c a) sep = false ∧ Js.includes a sep = false.
Proof. cbn [Js.includes]. by intros [? ?]%orb_false_iff. Qed.

(** A piece that does not hold the separator, which is made of two
    distinct characters. *)
Lemma split_without c1 c2 a s :
  c1 ≠ c2 → Js.includes a (String c1 (String c2 "")) = false →
  split (a +:+ String c1 (String c2 "") +:+ s) (String c1 (String c2 ""))
  = a :: split s (String c1 (String c2 "")).
Proof.
  intros Hne. induction a as [|x a IH]; [intros _; apply split_sep|].
  intros [Hstart Hin]%includes_cons. cbn [String.append].
  apply split_cons_ne; [|by apply IH].
  destruct (decide (x = c1)) as [->|Hx]; [|by apply startsWith_cons_ne].
  rewrite startsWith_cons_eq. rewrite startsWith_cons_eq in Hstart.
  destruct a as [|y a]; cbn [String.append].
  - by apply startsWith_cons_ne.
  - destruct (decide (y = c2)) as [->|Hy]; [|by apply startsWith_cons_ne].
    rewrite startsWith_cons_eq in *.
    by destruct a.
Qed.

Lemma split_without_end sep a :
  Js.includes a sep = false → split a sep = [a].
Proof.
  induction a as [|x a IH].
  - intros Hin. unfold split. done.
  - intros [Hstart Hin]%includes_cons.
    apply split_cons_ne; [done|by apply IH].
Qed.

(** ** Heads on the wire *)

Lemma wireHead_app a b fields :
  wireHead (a +:+ b) fields = a +:+ wireHead b fields.
Proof.
  unfold wireHead. revert b. induction fields as [|kv fields IH]; intros b; [done|].
  cbn [foldl]. by rewrite append_assoc, IH.
Qed.

Lemma wireHead_cons line kv fields :
  wireHead line (kv :: fields) =
    line +:+ Js.CRLF +:+ wireHead (headerLine kv) fields.
Proof.
  change (wireHead line (kv :: fields))
    with (wireHead (line +:+ Js.CRLF +:+ headerLine kv) fields).
  by rewrite !wireHead_app.
Qed.

Lemma split_wireHead line fields :
  Relay.avoids Js.CR line = true →
  Forall (λ kv, Relay.avoids Js.CR (headerLine kv) = true) fields →
  split (wireHead line fields) Js.CRLF = line :: (headerLine <$> fields).
Proof.
  intros Hline Hfields. revert line Hline.
  induction Hfields as [|kv fields Hkv _ IH]; intros line Hline.
  - by apply split_avoids_end.
  - rewrite wireHead_cons.
    rewrite (split_avoids Js.CR (String Js.LF "") line _ Hline).
    by rewrite IH.
Qed.

Lemma avoids_app c a b :
  Relay.avoids c (a +:+ b) = Relay.avoids c a && Relay.avoids c b.
Proof.
  induction a as [|x a IH]; [done|]. cbn. by rewrite IH, andb_assoc.
Qed.

Lemma split_headerLine k x :
  Relay.avoids ":" k = true → Js.includes x ": " = false →
  split (headerLine (k, x)) ": " = [k; x].
Proof.
  intros Hk Hx. unfold headerLine. cbn [fst snd].
  rewrite (split_avoids ":" " " k x Hk). by rewrite split_without_end.
Qed.

(** ** Objects *)

Lemma getOwn_None {A} k (o : Obj A) : k ∉ keys o → getOwn k o = None.
Proof.
  induction o as [|[k' v] o IH]; [done|].
  intros [Hne Ho]%not_elem_of_cons. cbn.
  destruct (String.eqb k' k) eqn:Heq; [|by apply IH].
  apply String.eqb_eq in Heq. by destruct Hne.
Qed.

Lemma getOwn_Some {A} k v (o : Obj A) :
  NoDup (keys o) → (k, v) ∈ o → getOwn k o = Some v.
Proof.
  induction o as [|[k' v'] o IH]; [by intros _ ?%elem_of_nil|].
  intros [Hk' Ho]%NoDup_cons [[= -> ->]|Hin]%elem_of_cons; cbn.
  - by rewrite String.eqb_refl.
  - destruct (String.eqb k' k) eqn:Heq; [|by apply IH].
    apply String.eqb_eq in Heq as ->. destruct Hk'.
    apply list_elem_of_fmap. by exists (k, v).
Qed.

(** ** Parsing the lines of well-formed fields *)

Lemma parseHeader_field (o : Headers) k x :
  fieldName k = true → fieldValue x = true → k ∉ keys o →
  parseHeader o (headerLine (k, x)) = Ok (o ++ [(k, [Some x])]).
Proof.
  unfold fieldName, fieldValue.
  intros (((Hcolon & _)%andb_true_iff & Hproto%negb_true_iff)%andb_true_iff
          & Hindex%bool_decide_eq_true)%andb_true_iff
         (Hsep%negb_true_iff & _)%andb_true_iff Hfresh.
  unfold parseHeader. rewrite (split_headerLine k x Hcolon Hsep).
  cbn [lookup list_lookup interpolated]. unfold member.
  rewrite (getOwn_None k o Hfresh), Hproto.
  unfold defineOwn. by rewrite Hindex.
Qed.

Lemma parseHeadersFrom_fields (o : Headers) fields :
  Forall (λ kv, fieldName kv.1 = true ∧ fieldValue kv.2 = true) fields →
  NoDup (keys o ++ fields.*1) →
  parseHeadersFrom o (headerLine <$> fields) = Ok (o ++ properties fields).
Proof.
  intros Hfields. revert o.
  induction Hfields as [|[k x] fields [Hk Hx] _ IH]; intros o Hdup.
  { cbn. by rewrite app_nil_r. }
  cbn [fmap list_fmap parseHeadersFrom].
  change (list_fmap _ _ headerLine fields) with (headerLine <$> fields).
  cbn [fst snd] in *.
  apply NoDup_app in Hdup as (Ho & Hdisj & Hdup).
  rewrite parseHeader_field; [|done..|].
  2:{ intros Hin. apply (Hdisj k Hin). by left. }
  cbn [mbind Result_bind]. rewrite IH.
  - unfold properties. cbn [fmap list_fmap]. by rewrite <- app_assoc.
  - unfold keys. rewrite fmap_app. cbn [fmap list_fmap fst].
    rewrite <- app_assoc. cbn [app].
    apply NoDup_app. split; [done|]. split; [|done].
    intros k' Hin. by apply Hdisj.
Qed.

Lemma parseHeaders_fields fields :
  Forall (λ kv, fieldName kv.1 = true ∧ fieldValue kv.2 = true) fields →
  NoDup fields.*1 →
  parseHeaders (headerLine <$> fields) = Ok (properties fields).
Proof. intros Hfields Hdup. by apply (parseHeadersFrom_fields []). Qed.

Lemma fields_avoid_CR fields :
  Forall (λ kv, fieldName kv.1 = true ∧ fieldValue kv.2 = true) fields →
  Forall (λ kv, Relay.avoids Js.CR (headerLine kv) = true) fields.
Proof.
  intros Hfields. eapply Forall_impl; [exact Hfields|].
  intros [k x]. unfold fieldName, fieldValue, headerLine.
  cbn [fst snd].
  intros [(((_ & Hk)%andb_true_iff & _)%andb_true_iff & _)%andb_true_iff
          (_ & Hx)%andb_true_iff].
  rewrite !avoids_app, Hk, Hx. done.
Qed.

Lemma split_three a b c :
  Relay.avoids " " a = true → Relay.avoids " " b = true →
  Relay.avoids " " c = true →
  split (a +:+ " " +:+ b +:+ " " +:+ c) " " = [a; b; c].
Proof.
  intros Ha Hb Hc.
  rewrite (split_avoids " " "" a _ Ha), (split_avoids " " "" b _ Hb).
  by rewrite (split_avoids_end " " "" c Hc).
Qed.

Lemma serialize_properties line fields :
  foldl (λ head '(key, values),
           foldl (λ head value,
                    head +:+ Js.CRLF +:+ key +:+ ": " +:+ interpolated value)
                 head values)
        line (properties fields)
  = wireHead line fields.
Proof.
  unfold wireHead, properties. revert line.
  induction fields as [|[k x] fields IH]; intros line; [done|].
  cbn [fmap list_fmap foldl fst snd]. apply IH.
Qed.

Lemma split_wireHead_more line fields rest :
  Relay.avoids Js.CR line = true →
  Forall (λ kv, Relay.avoids Js.CR (headerLine kv) = true) fields →
  split (wireHead line fields +:+ Js.CRLF +:+ rest) Js.CRLF
  = line :: (headerLine <$> fields) ++ split rest Js.CRLF.
Proof.
  intros Hline Hfields. revert line Hline.
  induction Hfields as [|kv fields Hkv _ IH]; intros line Hline.
  - by apply (split_avoids Js.CR (String Js.LF "")).
  - rewrite wireHead_cons, !append_assoc.
    rewrite (split_avoids Js.CR (String Js.LF "") line _ Hline).
    by rewrite IH.
Qed.

Lemma parseHeadersFrom_app o lines more :
  parseHeadersFrom o (lines ++ more) =
    (o' ← parseHeadersFrom o lines; parseHeadersFrom o' more).
Proof.
  revert o. induction lines as [|l lines IH]; intros o; [done|].
  cbn [app parseHeadersFrom]. destruct (parseHeader o l); cbn; [apply IH|done..].
Qed.

Lemma token_inv t :
  token t = true → Relay.avoids " " t = true ∧ Relay.avoids Js.CR t = true.
Proof. unfold token. by intros [? ?]%andb_true_iff. Qed.

Lemma line_avoids_CR a b c :
  token a = true → token b = true → Relay.avoids Js.CR c = true →
  Relay.avoids Js.CR (a +:+ " " +:+ b +:+ " " +:+ c) = true.
Proof.
  intros [_ Ha]%token_inv [_ Hb]%token_inv Hc.
  by rewrite !avoids_app, Ha, Hb, Hc.
Qed.

(** X10 — A head of three words and well-formed fields with distinct names is
    parsed into exactly these, and serialising what was parsed gives the
    head back. *)
Theorem request_head_round_trip
    (m p v : string) (fields : list (string * string)) :
  token m = true → token p = true → token v = true →
  Forall (λ kv, fieldName kv.1 = true ∧ fieldValue kv.2 = true) fields →
  NoDup fields.*1 →
  let head := wireHead (m +:+ " " +:+ p +:+ " " +:+ v) fields in
  let r := mkReqHead (Some v) (Some m) (Some p) (properties fields) in
  parseReqHead head = Ok r ∧ serializeReqHead r = head.
Proof.
  intros Hm Hp Hv Hfields Hdup head r. split.
  - unfold parseReqHead. subst head.
    rewrite split_wireHead;
      [|apply line_avoids_CR; [done..|by apply token_inv]
       |by apply fields_avoid_CR].
    cbn [lookup list_lookup defined mbind Result_bind drop].
    rewrite drop_0, (parseHeaders_fields fields Hfields Hdup).
    cbn [mbind Result_bind].
    apply token_inv in Hm as [Hm _], Hp as [Hp _], Hv as [Hv _].
    by rewrite (split_three m p v Hm Hp Hv).
  - unfold serializeReqHead. subst r head. cbn [method path version headers join joinItem].
    apply serialize_properties.
Qed.

Lemma request_head_round_trip_witness :
  parseReqHead ("GET /a HTTP/1.1" +:+ Js.CRLF +:+ "Host: x.my.test:80"
                  +:+ Js.CRLF +:+ "Accept: */*")
  = Ok (mkReqHead (Some "HTTP/1.1") (Some "GET") (Some "/a")
          [("Host", [Some "x.my.test:80"]); ("Accept", [Some "*/*"])]) ∧
  serializeReqHead
    (mkReqHead (Some "HTTP/1.1") (Some "GET") (Some "/a")
       [("Host", [Some "x.my.test:80"]); ("Accept", [Some "*/*"])])
  = "GET /a HTTP/1.1" +:+ Js.CRLF +:+ "Host: x.my.test:80"
      +:+ Js.CRLF +:+ "Accept: */*".
Proof.
  apply (request_head_round_trip "GET" "/a" "HTTP/1.1"
           [("Host", "x.my.test:80"); ("Accept", "*/*")]);
    try reflexivity.
  - repeat constructor.
  - apply NoDup_cons. split; [|apply NoDup_singleton].
    by intros ?%list_elem_of_singleton.
Defined.

(** ** Lines that are not well-formed fields *)

Lemma split_nonempty s sep : ∃ p ps, split s sep = p :: ps.
Proof.
  unfold split. generalize 0 as skip.
  induction s as [|c s IH]; intros skip; cbn [splitFrom]; [by eauto|].
  destruct skip as [|k]; [|apply IH].
  destruct (Js.startsWith _ _); [by eauto|].
  destruct (IH 0) as (p & ps & ->). by eauto.
Qed.

Lemma split_avoids_prefix c sep a s p ps :
  Relay.avoids c a = true → split s (String c sep) = p :: ps →
  split (a +:+ s) (String c sep) = (a +:+ p) :: ps.
Proof.
  intros Ha Hs. induction a as [|x a IH]; [done|].
  apply avoids_cons in Ha as [Hx Ha]. cbn [String.append].
  apply split_cons_ne; [by apply startsWith_cons_ne|by apply IH].
Qed.

Lemma fieldName_inv k :
  fieldName k = true →
  Relay.avoids ":" k = true ∧ Relay.avoids Js.CR k = true ∧
  isPrototypeKey k = false ∧ arrayIndex k = None.
Proof.
  unfold fieldName.
  intros (((? & ?)%andb_true_iff & ?%negb_true_iff)%andb_true_iff
          & ?%bool_decide_eq_true)%andb_true_iff.
  done.
Qed.

Lemma keys_properties fields : keys (properties fields) = fields.*1.
Proof.
  unfold keys, properties. rewrite <- list_fmap_compose.
  by apply list_fmap_ext.
Qed.

(** What [parseReqHead] does with a head that goes on after well-formed
    fields. *)
Lemma parseReqHead_more m p v fields rest :
  token m = true → token p = true → token v = true →
  Forall (λ kv, fieldName kv.1 = true ∧ fieldValue kv.2 = true) fields →
  NoDup fields.*1 →
  parseReqHead (wireHead (m +:+ " " +:+ p +:+ " " +:+ v) fields
                  +:+ Js.CRLF +:+ rest)
  = (headers ← parseHeadersFrom (properties fields) (split rest Js.CRLF);
     Ok (mkReqHead (Some v) (Some m) (Some p) headers)).
Proof.
  intros Hm Hp Hv Hfields Hdup. unfold parseReqHead.
  rewrite split_wireHead_more;
    [|apply line_avoids_CR; [done..|by apply token_inv]
     |by apply fields_avoid_CR].
  cbn [lookup list_lookup defined mbind Result_bind drop]. rewrite drop_0.
  unfold parseHeaders. rewrite parseHeadersFrom_app.
  pose proof (parseHeaders_fields fields Hfields Hdup) as Hparsed.
  unfold parseHeaders in Hparsed. rewrite Hparsed. cbn [mbind Result_bind].
  apply token_inv in Hm as [Hm _], Hp as [Hp _], Hv as [Hv _].
  by rewrite (split_three m p v Hm Hp Hv).
Qed.

Lemma parseHeader_new (o : Headers) line k rest :
  split line ": " = k :: rest → k ∉ keys o →
  isPrototypeKey k = false → arrayIndex k = None →
  parseHeader o line = Ok (o ++ [(k, [rest !! 0])]).
Proof.
  intros Hsplit Hfresh Hproto Hindex. unfold parseHeader. rewrite Hsplit.
  cbn [lookup list_lookup interpolated]. unfold member.
  rewrite (getOwn_None k o Hfresh), Hproto.
  unfold defineOwn. by rewrite Hindex.
Qed.

Lemma fields_app_inv fields k a :
  Forall (λ kv, fieldName kv.1 = true ∧ fieldValue kv.2 = true)
         (fields ++ [(k, a)]) →
  NoDup (fields ++ [(k, a)]).*1 →
  Forall (λ kv, fieldName kv.1 = true ∧ fieldValue kv.2 = true) fields ∧
  NoDup fields.*1 ∧ fieldName k = true ∧ fieldValue a = true ∧
  k ∉ keys (properties fields).
Proof.
  intros [Hfields [[Hk Ha] _]%Forall_cons]%Forall_app Hdup.
  rewrite fmap_app in Hdup. apply NoDup_app in Hdup as (Hdup & Hdisj & _).
  repeat (split; [done|]). rewrite keys_properties.
  intros Hin. apply (Hdisj k Hin). by left.
Qed.

(** X11 — Of a header line with a second [": "], only what stands between
    the first and the second is kept as the value: the head is parsed as if
    the line stopped there. *)
Theorem header_value_is_cut_at_its_second_separator
    (m p v : string) (fields : list (string * string)) (k a b : string) :
  token m = true → token p = true → token v = true →
  Forall (λ kv, fieldName kv.1 = true ∧ fieldValue kv.2 = true)
         (fields ++ [(k, a)]) →
  NoDup (fields ++ [(k, a)]).*1 →
  Relay.avoids Js.CR b = true →
  parseReqHead (wireHead (m +:+ " " +:+ p +:+ " " +:+ v) fields
                  +:+ Js.CRLF +:+ k +:+ ": " +:+ a +:+ ": " +:+ b)
  = Ok (mkReqHead (Some v) (Some m) (Some p) (properties (fields ++ [(k, a)]))).
Proof.
  intros Hm Hp Hv Hall Hdup Hb.
  destruct (fields_app_inv _ _ _ Hall Hdup) as (Hfields & Hdup' & Hk & Ha & Hfresh).
  apply fieldName_inv in Hk as (Hcolon & HkCR & Hproto & Hindex).
  unfold fieldValue in Ha.
  apply andb_true_iff in Ha as [Hsep%negb_true_iff HaCR].
  rewrite (parseReqHead_more m p v fields _ Hm Hp Hv Hfields Hdup').
  rewrite split_line by (by rewrite !avoids_app, HkCR, HaCR, Hb).
  cbn [parseHeadersFrom].
  rewrite (parseHeader_new _ _ k (a :: split b ": ")); [|..|done|done|done].
  - unfold properties. by rewrite fmap_app.
  - rewrite (split_avoids ":" " " k _ Hcolon).
    by rewrite (split_without ":" " " a b).
Qed.

Lemma header_value_is_cut_at_its_second_separator_witness :
  parseReqHead ("GET / HTTP/1.1" +:+ Js.CRLF +:+ "Host: x.my.test"
                  +:+ Js.CRLF +:+ "Note: to: whom")
  = Ok (mkReqHead (Some "HTTP/1.1") (Some "GET") (Some "/")
          [("Host", [Some "x.my.test"]); ("Note", [Some "to"])]).
Proof.
  apply (header_value_is_cut_at_its_second_separator "GET" "/" "HTTP/1.1"
           [("Host", "x.my.test")] "Note" "to" "whom");
    try reflexivity.
  - repeat constructor.
  - apply NoDup_cons. split; [|apply NoDup_singleton].
    by intros ?%list_elem_of_singleton.
Defined.

Lemma serialize_more line o k value :
  foldl (λ head '(key, values),
           foldl (λ head value,
                    head +:+ Js.CRLF +:+ key +:+ ": " +:+ interpolated value)
                 head values)
        line (o ++ [(k, [value])])
  = foldl (λ head '(key, values),
             foldl (λ head value,
                      head +:+ Js.CRLF +:+ key +:+ ": " +:+ interpolated value)
                   head values)
          line o
    +:+ Js.CRLF +:+ k +:+ ": " +:+ interpolated value.
Proof. by rewrite foldl_app. Qed.

(** X12 — A header line without [": "] is kept whole as a name whose value
    is [undefined]; serialised again, it comes out with [": undefined"]
    added.  The empty line that a trailing CRLF leaves is such a line. *)
Theorem header_line_without_separator
    (m p v : string) (fields : list (string * string)) (line : string) :
  token m = true → token p = true → token v = true →
  Forall (λ kv, fieldName kv.1 = true ∧ fieldValue kv.2 = true) fields →
  NoDup (fields.*1 ++ [line]) →
  Js.includes line ": " = false → Relay.avoids Js.CR line = true →
  isPrototypeKey line = false → arrayIndex line = None →
  let head := wireHead (m +:+ " " +:+ p +:+ " " +:+ v) fields in
  let r := mkReqHead (Some v) (Some m) (Some p)
             (properties fields ++ [(line, [None])]) in
  parseReqHead (head +:+ Js.CRLF +:+ line) = Ok r ∧
  serializeReqHead r = head +:+ Js.CRLF +:+ line +:+ ": undefined".
Proof.
  intros Hm Hp Hv Hfields Hdup Hsep Hline Hproto Hindex head r.
  apply NoDup_app in Hdup as (Hdup & Hdisj & _). split.
  - subst head. rewrite (parseReqHead_more m p v fields _ Hm Hp Hv Hfields Hdup).
    rewrite (split_line line Hline).
    cbn [parseHeadersFrom].
    rewrite (parseHeader_new _ _ line []); [done|..|done|done].
    + by apply split_without_end.
    + rewrite keys_properties. intros Hin. apply (Hdisj line Hin). by left.
  - unfold serializeReqHead. subst r head.
    cbn [method path version headers join joinItem].
    by rewrite serialize_more, serialize_properties.
Qed.

Lemma header_line_without_separator_witness :
  parseReqHead ("GET / HTTP/1.1" +:+ Js.CRLF +:+ "Host: x.my.test"
                  +:+ Js.CRLF +:+ "X-Empty:")
  = Ok (mkReqHead (Some "HTTP/1.1") (Some "GET") (Some "/")
          [("Host", [Some "x.my.test"]); ("X-Empty:", [None])]) ∧
  serializeReqHead
    (mkReqHead (Some "HTTP/1.1") (Some "GET") (Some "/")
       [("Host", [Some "x.my.test"]); ("X-Empty:", [None])])
  = "GET / HTTP/1.1" +:+ Js.CRLF +:+ "Host: x.my.test"
      +:+ Js.CRLF +:+ "X-Empty:" +:+ ": undefined".
Proof.
  apply (header_line_without_separator "GET" "/" "HTTP/1.1"
           [("Host", "x.my.test")] "X-Empty:");
    try reflexivity.
  - repeat constructor.
  - apply NoDup_cons. split; [|apply NoDup_singleton].
    by intros ?%list_elem_of_singleton.
Defined.

(** ** Names found on [Object.prototype] *)

Lemma prototypeKey_inv k :
  isPrototypeKey k = true →
  Relay.avoids ":" k = true ∧ Relay.avoids Js.CR k = true.
Proof.
  unfold isPrototypeKey, prototypeKeys. intros Hk%bool_decide_eq_true.
  repeat (apply elem_of_cons in Hk as [->|Hk]; [by split|]).
  by apply elem_of_nil in Hk.
Qed.

(** X13 — A header named like a property of [Object.prototype] makes the
    parser throw: [headers[key]] finds the inherited member, so no array is
    made, and [push] is not a function of that member.  Whatever follows the
    name plays no part. *)
Theorem header_named_like_a_prototype_member_throws
    (m p v : string) (fields : list (string * string)) (k rest : string) :
  token m = true → token p = true → token v = true →
  Forall (λ kv, fieldName kv.1 = true ∧ fieldValue kv.2 = true) fields →
  NoDup fields.*1 →
  isPrototypeKey k = true →
  parseReqHead (wireHead (m +:+ " " +:+ p +:+ " " +:+ v) fields
                  +:+ Js.CRLF +:+ k +:+ ": " +:+ rest)
  = TypeError.
Proof.
  intros Hm Hp Hv Hfields Hdup Hk.
  destruct (prototypeKey_inv k Hk) as [Hcolon HkCR].
  rewrite (parseReqHead_more m p v fields _ Hm Hp Hv Hfields Hdup).
  destruct (split_nonempty rest Js.CRLF) as (l & ls & Hrest).
  rewrite <- (append_assoc k ": " rest).
  rewrite (split_avoids_prefix Js.CR (String Js.LF "") (k +:+ ": ") rest l ls
           : _ → _ → split _ Js.CRLF = _);
    [|by rewrite avoids_app, HkCR|done].
  cbn [parseHeadersFrom].
  assert (parseHeader (properties fields) ((k +:+ ": ") +:+ l) = TypeError) as ->;
    [|done].
  unfold parseHeader. rewrite append_assoc.
  rewrite (split_avoids ":" " " k l Hcolon).
  cbn [lookup list_lookup interpolated]. unfold member.
  rewrite getOwn_None, Hk; [done|].
  rewrite keys_properties. intros ((k' & x) & -> & Hin)%list_elem_of_fmap.
  eapply Forall_forall in Hfields; [|exact Hin].
  destruct Hfields as [(_ & _ & Hplain & _)%fieldName_inv _].
  cbn [fst] in *. congruence.
Qed.

Lemma header_named_like_a_prototype_member_throws_witness :
  parseReqHead ("GET / HTTP/1.1" +:+ Js.CRLF +:+ "Host: x.my.test"
                  +:+ Js.CRLF +:+ "constructor: x" +:+ Js.CRLF +:+ "Accept: */*")
  = TypeError.
Proof.
  apply (header_named_like_a_prototype_member_throws "GET" "/" "HTTP/1.1"
           [("Host", "x.my.test")] "constructor"
           ("x" +:+ Js.CRLF +:+ "Accept: */*"));
    try reflexivity.
  - repeat constructor.
  - apply NoDup_singleton.
Defined.

(** ** Names that are array indices *)

Lemma digitsFrom_avoids c acc s n :
  digit c = None → digitsFrom acc s = Some n → Relay.avoids c s = true.
Proof.
  intros Hc. revert acc. induction s as [|x s IH]; intros acc; [done|].
  cbn [digitsFrom Relay.avoids]. destruct (digit x) as [d|] eqn:Hx; [|done].
  intros Hs%IH. rewrite Hs, andb_true_r. apply negb_true_iff, Ascii.eqb_neq.
  intros ->. congruence.
Qed.

Lemma arrayIndex_inv k n :
  arrayIndex k = Some n →
  Relay.avoids ":" k = true ∧ Relay.avoids Js.CR k = true ∧
  isPrototypeKey k = false.
Proof.
  intros Hk. split; [|split].
  - unfold arrayIndex in Hk. destruct k as [|c r]; [done|].
    destruct (digitsFrom 0 (String c r)) eqn:Hd; [|done].
    by eapply digitsFrom_avoids.
  - unfold arrayIndex in Hk. destruct k as [|c r]; [done|].
    destruct (digitsFrom 0 (String c r)) eqn:Hd; [|done].
    by eapply digitsFrom_avoids.
  - apply bool_decide_eq_false. unfold prototypeKeys. intros Hin.
    repeat (apply elem_of_cons in Hin as [->|Hin]; [by vm_compute in Hk|]).
    by apply elem_of_nil in Hin.
Qed.

Lemma defineOwn_index k n (v : list (option string)) fields :
  arrayIndex k = Some n →
  Forall (λ kv, fieldName kv.1 = true ∧ fieldValue kv.2 = true) fields →
  defineOwn k v (properties fields) = (k, v) :: properties fields.
Proof.
  intros Hk Hfields. unfold defineOwn. rewrite Hk.
  destruct Hfields as [|[k' x'] fields [Hk' _] _]; [done|].
  apply fieldName_inv in Hk' as (_ & _ & _ & Hindex). cbn [fst] in Hindex.
  cbn. by rewrite Hindex.
Qed.

(** X14 — A header whose name is an array index (a canonical number such as
    [7]) becomes a property that [Object.keys] lists before the names that
    are not: serialised again, its line has moved from the end of the head
    to the front of the header lines. *)
Theorem numeric_header_name_moves_to_the_front
    (m p v : string) (fields : list (string * string)) (k x : string) (n : N) :
  token m = true → token p = true → token v = true →
  Forall (λ kv, fieldName kv.1 = true ∧ fieldValue kv.2 = true) fields →
  NoDup fields.*1 →
  arrayIndex k = Some n → fieldValue x = true →
  let line := m +:+ " " +:+ p +:+ " " +:+ v in
  let r := mkReqHead (Some v) (Some m) (Some p)
             ((k, [Some x]) :: properties fields) in
  parseReqHead (wireHead line fields +:+ Js.CRLF +:+ k +:+ ": " +:+ x) = Ok r ∧
  serializeReqHead r = wireHead line ((k, x) :: fields).
Proof.
  intros Hm Hp Hv Hfields Hdup Hk Hx line r.
  destruct (arrayIndex_inv k n Hk) as (Hcolon & HkCR & Hproto).
  unfold fieldValue in Hx. apply andb_true_iff in Hx as [Hsep%negb_true_iff HxCR].
  split.
  - subst line. rewrite (parseReqHead_more m p v fields _ Hm Hp Hv Hfields Hdup).
    rewrite split_line by (by rewrite !avoids_app, HkCR, HxCR).
    cbn [parseHeadersFrom]. unfold parseHeader.
    rewrite (split_avoids ":" " " k x Hcolon), split_without_end by done.
    cbn [lookup list_lookup interpolated]. unfold member.
    rewrite getOwn_None, Hproto.
    + by rewrite (defineOwn_index k n _ fields Hk Hfields).
    + rewrite keys_properties. intros ((k' & x') & -> & Hin)%list_elem_of_fmap.
      eapply Forall_forall in Hfields; [|exact Hin].
      destruct Hfields as [(_ & _ & _ & Hindex)%fieldName_inv _].
      cbn [fst] in *. congruence.
  - unfold serializeReqHead. subst r.
    cbn [method path version headers join joinItem].
    change ((k, [Some x]) :: properties fields)
      with (properties ((k, x) :: fields)).
    apply serialize_properties.
Qed.

Lemma numeric_header_name_moves_to_the_front_witness :
  parseReqHead ("GET / HTTP/1.1" +:+ Js.CRLF +:+ "Host: x.my.test"
                  +:+ Js.CRLF +:+ "7: seven")
  = Ok (mkReqHead (Some "HTTP/1.1") (Some "GET") (Some "/")
          [("7", [Some "seven"]); ("Host", [Some "x.my.test"])]) ∧
  serializeReqHead
    (mkReqHead (Some "HTTP/1.1") (Some "GET") (Some "/")
       [("7", [Some "seven"]); ("Host", [Some "x.my.test"])])
  = "GET / HTTP/1.1" +:+ Js.CRLF +:+ "7: seven"
      +:+ Js.CRLF +:+ "Host: x.my.test".
Proof.
  apply (numeric_header_name_moves_to_the_front "GET" "/" "HTTP/1.1"
           [("Host", "x.my.test")] "7" "seven" 7%N);
    try reflexivity.
  - repeat constructor.
  - apply NoDup_singleton.
Defined.

(** ** Response heads *)

(** X15 — Of a status line, [parseResHead] keeps the version, the status
    code and the first word of the reason phrase: what follows that word is
    not part of [statusMessage]. *)
Theorem reason_phrase_is_cut_at_its_first_space
    (ver code word more : string) (fields : list (string * string)) :
  token ver = true → token code = true → token word = true →
  Relay.avoids Js.CR more = true →
  Forall (λ kv, fieldName kv.1 = true ∧ fieldValue kv.2 = true) fields →
  NoDup fields.*1 →
  parseResHead
    (wireHead (ver +:+ " " +:+ code +:+ " " +:+ word +:+ " " +:+ more) fields)
  = Ok (mkResHead (Some ver) (Some code) (Some word) (properties fields)).
Proof.
  intros Hver Hcode Hword Hmore Hfields Hdup. unfold parseResHead.
  pose proof Hword as [Hsp HwCR]%token_inv.
  rewrite split_wireHead;
    [|apply line_avoids_CR; [done..|by rewrite !avoids_app, HwCR, Hmore]
     |by apply fields_avoid_CR].
  cbn [lookup list_lookup defined mbind Result_bind drop].
  rewrite drop_0, (parseHeaders_fields fields Hfields Hdup).
  cbn [mbind Result_bind].
  apply token_inv in Hver as [Hver _], Hcode as [Hcode _].
  rewrite (split_avoids " " "" ver _ Hver), (split_avoids " " "" code _ Hcode).
  by rewrite (split_avoids " " "" word _ Hsp).
Qed.

Lemma reason_phrase_is_cut_at_its_first_space_witness :
  parseResHead ("HTTP/1.1 404 Not Found" +:+ Js.CRLF +:+ "Content-Length: 0")
  = Ok (mkResHead (Some "HTTP/1.1") (Some "404") (Some "Not")
          [("Content-Length", [Some "0"])]).
Proof.
  apply (reason_phrase_is_cut_at_its_first_space "HTTP/1.1" "404" "Not" "Found"
           [("Content-Length", "0")]);
    try reflexivity.
  - repeat constructor.
  - apply NoDup_singleton.
Defined.

(** ** [pipeHttpRequest] *)

Lemma startsWith_length s p :
  Js.startsWith s p = true → String.length p ≤ String.length s.
Proof.
  revert s. induction p as [|x p IH]; intros s; [cbn; lia|].
  destruct s as [|c s]; [done|].
  destruct (decide (c = x)) as [->|Hne].
  - rewrite startsWith_cons_eq. intros ?%IH. cbn. lia.
  - by rewrite startsWith_cons_ne.
Qed.

Lemma startsWith_app_l s d p :
  Js.startsWith s p = true → Js.startsWith (s +:+ d) p = true.
Proof.
  revert s. induction p as [|x p IH]; intros s; [by destruct s, d|].
  destruct s as [|c s]; [done|].
  destruct (decide (c = x)) as [->|Hne].
  - cbn [String.append]. rewrite !startsWith_cons_eq. apply IH.
  - by rewrite startsWith_cons_ne.
Qed.

Lemma startsWith_app_long s d p :
  String.length p ≤ String.length s →
  Js.startsWith (s +:+ d) p = Js.startsWith s p.
Proof.
  revert s. induction p as [|x p IH]; intros s Hlen; [by destruct s, d|].
  destruct s as [|c s]; [cbn in Hlen; lia|].
  cbn [String.append]. destruct (decide (c = x)) as [->|Hne].
  - rewrite !startsWith_cons_eq. apply IH. cbn in Hlen. lia.
  - by rewrite !startsWith_cons_ne.
Qed.

Lemma indexOfFrom_found needle s i :
  Js.indexOfFrom needle s i ≠ (-1)%Z → (0 ≤ i)%Z →
  String.length needle ≤ String.length s ∧
  (i ≤ Js.indexOfFrom needle s i ≤ i + Z.of_nat (String.length s))%Z.
Proof.
  revert i. induction s as [|c s IH]; intros i; cbn [Js.indexOfFrom].
  - destruct (Js.startsWith "" needle) eqn:Hs; [|done].
    intros _ Hi. apply startsWith_length in Hs. cbn in *. lia.
  - destruct (Js.startsWith (String c s) needle) eqn:Hs.
    + intros _ Hi. apply startsWith_length in Hs. cbn [String.length] in *. lia.
    + intros Hfound Hi. destruct (IH (i + 1)%Z Hfound) as [Hlen Hr]; [lia|].
      cbn [String.length]. lia.
Qed.

Lemma indexOfFrom_app needle s d i :
  Js.indexOfFrom needle s i ≠ (-1)%Z → (0 ≤ i)%Z →
  Js.indexOfFrom needle (s +:+ d) i = Js.indexOfFrom needle s i.
Proof.
  revert i. induction s as [|c s IH]; intros i Hfound Hi.
  - cbn [Js.indexOfFrom] in Hfound.
    destruct (Js.startsWith "" needle) eqn:Hs; [|done].
    destruct needle; [|done]. by destruct d.
  - pose proof (indexOfFrom_found _ _ _ Hfound Hi) as [Hlen _].
    cbn [String.append Js.indexOfFrom] in *.
    change (String c (s +:+ d)) with (String c s +:+ d).
    rewrite (startsWith_app_long _ d _ Hlen).
    destruct (Js.startsWith (String c s) needle); [done|].
    apply IH; [done|lia].
Qed.

Lemma indexOf_app buf d needle :
  Js.indexOf buf needle ≠ (-1)%Z →
  Js.indexOf (buf +:+ d) needle = Js.indexOf buf needle.
Proof. intros Hfound. by apply indexOfFrom_app. Qed.

Lemma indexOf_range buf needle :
  Js.indexOf buf needle = (-1)%Z ∨
  (0 ≤ Js.indexOf buf needle ≤ Z.of_nat (String.length buf))%Z.
Proof.
  destruct (decide (Js.indexOf buf needle = (-1)%Z)) as [|Hfound]; [by left|].
  right. destruct (indexOfFrom_found needle buf 0%Z Hfound ltac:(lia)) as [_ ?].
  unfold Js.indexOf. lia.
Qed.

Lemma substring_app n s d :
  n ≤ String.length s → substring 0 n (s +:+ d) = substring 0 n s.
Proof.
  revert s. induction n as [|n IH]; intros s Hlen; [by destruct s, d|].
  destruct s as [|c s]; [cbn in Hlen; lia|].
  cbn. rewrite IH; [done|]. cbn in Hlen. lia.
Qed.

Lemma dropChars_app n s d :
  n ≤ String.length s → Js.dropChars n (s +:+ d) = Js.dropChars n s +:+ d.
Proof.
  revert s. induction n as [|n IH]; intros s Hlen; [by destruct s|].
  destruct s as [|c s]; [cbn in Hlen; lia|].
  cbn. apply IH. cbn in Hlen. lia.
Qed.

Lemma bytes_app a b : bytes (a ++ b) = bytes a +:+ bytes b.
Proof.
  induction a as [|x a IH]; [done|].
  cbn [app bytes foldr]. fold (bytes (a ++ b)). fold (bytes a).
  by rewrite IH, append_assoc.
Qed.

(** What the target holds once the chunks fed so far hold the end of a
    head, and what the closure holds before that. *)
Lemma feed_spec (onHead : string → string) chunks :
  let buf := bytes chunks in
  let q := Js.indexOf buf Js.CRLFCRLF in
  let p := feed onHead chunks start in
  ended p = false ∧
  if (0 <=? q)%Z then
    headDone p = true ∧
    output p = onHead (Js.subarray0 buf q) +:+ Js.dropChars (Z.to_nat q) buf
  else
    headDone p = false ∧ written p = [] ∧
    match headBuffer p with Some b => b | None => EmptyString end = buf.
Proof.
  induction chunks as [|d chunks IH] using rev_ind; [by vm_compute|].
  cbn zeta in *. unfold feed in *. rewrite foldl_app, bytes_app. cbn [foldl].
  replace (bytes [d]) with d by (cbn; by rewrite append_empty).
  set (p := foldl _ start chunks) in *. set (buf := bytes chunks) in *.
  destruct IH as [Hended IH].
  destruct (0 <=? Js.indexOf buf Js.CRLFCRLF)%Z eqn:Hq.
  - destruct IH as [Hdone Hout]. apply Z.leb_le in Hq.
    assert (Js.indexOf buf Js.CRLFCRLF ≠ (-1)%Z) as Hfound by lia.
    destruct (indexOf_range buf Js.CRLFCRLF) as [|Hrange]; [done|].
    rewrite (indexOf_app buf d _ Hfound).
    apply Z.leb_le in Hq as Hq'. rewrite Hq'.
    unfold onData. rewrite Hdone. cbn [negb ended headDone written].
    split; [done|]. split; [done|].
    unfold output in *. cbn [written]. rewrite bytes_app, Hout.
    replace (bytes [d]) with d by (cbn; by rewrite append_empty).
    unfold Js.subarray0. rewrite substring_app, dropChars_app by lia.
    by rewrite append_assoc.
  - destruct IH as (Hdone & Hwritten & Hbuf).
    unfold onData. rewrite Hdone, Hwritten. cbn [negb].
    assert (match headBuffer p with Some b => b +:+ d | None => d end = buf +:+ d)
      as -> by (rewrite <- Hbuf; by destruct (headBuffer p)).
    destruct (0 <=? Js.indexOf (buf +:+ d) Js.CRLFCRLF)%Z;
      cbn [ended headDone written headBuffer app]; [|done].
    split; [done|]. split; [done|].
    unfold output. cbn [written bytes foldr]. by rewrite append_empty.
Qed.

(** X16 — What [pipeHttpRequest] gives its target depends on the bytes of
    the source alone, not on how they are cut into chunks.  When the bytes
    hold [\r\n\r\n], the target gets what [onHead] makes of the bytes before
    its first occurrence, then the bytes from that occurrence on.  When they
    do not, the target gets nothing at all: the buffered bytes are dropped
    when the source ends. *)
Theorem pipeHttpRequest_output (onHead : string → string) (chunks : list string) :
  let buf := bytes chunks in
  let bodySeparator := Js.indexOf buf Js.CRLFCRLF in
  ended (pipeHttpRequest onHead chunks) = true ∧
  output (pipeHttpRequest onHead chunks) =
    if (0 <=? bodySeparator)%Z
    then onHead (Js.subarray0 buf bodySeparator)
         +:+ Js.dropChars (Z.to_nat bodySeparator) buf
    else EmptyString.
Proof.
  intros buf q. split; [done|].
  pose proof (feed_spec onHead chunks) as [_ Hfeed]. cbn zeta in Hfeed.
  fold buf in Hfeed. fold q in Hfeed.
  unfold pipeHttpRequest, onEnd, output in *. cbn [written].
  destruct (0 <=? q)%Z.
  - by destruct Hfeed as [_ ->].
  - by destruct Hfeed as (_ & -> & _).
Qed.

End HttpProofs.

(** * More on the socket class *)

Module RelaySocketExtras.
Import RelaySocket.

Section Wiring.

Variables domain exposeCommand : string.
Variable logo : string → option bool → string.
Variable htmlResponse : Headers → string → option string → string.

#[local] Abbreviation step := (step domain exposeCommand logo htmlResponse).
#[local] Abbreviation onRequest := (onRequest domain exposeCommand logo htmlResponse).

(** The sockets after [proxy], when the two are distinct. *)
Lemma proxy_sockets c e st sc se r :
  c ≠ e → sockets st !! c = Some sc → sockets st !! e = Some se →
  req sc = Some r →
  ∃ st',
    proxy c e st = Ok st' ∧
    couloirs st' = couloirs st ∧
    effects st' = effects st ++ [Sent e (SendMessage COULOIR_STREAM);
                                 Sent e (Write (raw r))] ∧
    sockets st' !! c =
      Some (addEnd e (addReqPipe e (setBound true sc))) ∧
    sockets st' !! e = Some (addPipe c (setBound true se)).
Proof.
  intros Hne Hc He Hreq. unfold proxy. rewrite Hc. cbn [defined mbind Result_bind].
  rewrite Hreq. cbn [defined mbind Result_bind].
  eexists. split; [reflexivity|]. split; [reflexivity|].
  split; [cbn; by rewrite <- app_assoc|].
  cbn. split.
  - rewrite !lookup_alter_eq, lookup_alter_ne, lookup_alter_eq by done.
    rewrite lookup_alter_ne by done. by rewrite Hc.
  - rewrite !lookup_alter_ne, lookup_alter_eq by done.
    rewrite lookup_alter_ne, lookup_alter_eq by done. by rewrite He.
Qed.

(** X17 — Once [proxy] has spliced a client socket that holds its request
    with an exposer socket, neither piped anywhere before, the exposer has
    been sent [STREAM] and then the bytes of the request; from then on what
    one socket receives is written to the other, and the end of either ends
    the other. *)
Theorem proxy_wires_both_ways
    (c e : nat) (st : State) (sc se : RelaySocket) (r : HttpRequest) :
  c ≠ e → sockets st !! c = Some sc → sockets st !! e = Some se →
  req sc = Some r →
  pipes sc = [] → reqPipes sc = [] → ends sc = [] →
  pipes se = [] → reqPipes se = [] → ends se = [] →
  ∃ st',
    proxy c e st = Ok st' ∧
    effects st' = effects st ++ [Sent e (SendMessage COULOIR_STREAM);
                                 Sent e (Write (raw r))] ∧
    (∀ data, step (Data e data) st' = Ok (emit (Sent c (Write data)) st')) ∧
    (∀ data, step (Data c data) st' = Ok (emit (Sent e (Write data)) st')) ∧
    step (Ended c) st' = Ok (emit (Sent e End) st') ∧
    step (Ended e) st' = Ok (emit (Sent c End) st').
Proof.
  intros Hne Hc He Hreq Hp Hrp Hends Hp' Hrp' Hends'.
  destruct (proxy_sockets c e st sc se r Hne Hc He Hreq)
    as (st' & Hproxy & _ & Heff & Hc' & He').
  exists st'. split; [done|]. split; [done|].
  cbn [RelaySocket.step]. rewrite Hc', He'. cbn.
  by rewrite Hp, Hrp, Hends, Hp', Hrp', Hends'.
Qed.

(** X18 — [proxy] throws when the client socket holds no request, or is not
    a socket of the relay; when it returns, both sockets are bound, so that
    [end()] leaves them open and only [end({ force: true })] ends them. *)
Theorem bound_sockets_end_only_by_force (c e : nat) (st st' : State) :
  proxy c e st = Ok st' → is_Some (sockets st !! e) →
  (∃ sc r, sockets st !! c = Some sc ∧ req sc = Some r) ∧
  endSocket false c st' = st' ∧ endSocket false e st' = st' ∧
  endSocket true c st' = emit (Sent c End) st' ∧
  endSocket true e st' = emit (Sent e End) st'.
Proof.
  unfold proxy. destruct (sockets st !! c) as [sc|] eqn:Hc; [|done].
  cbn [defined mbind Result_bind].
  destruct (req sc) as [r|] eqn:Hreq; [|done].
  cbn [defined mbind Result_bind]. intros [= <-] [se He].
  split; [by eauto|]. unfold endSocket. cbn [sockets onSocket emit].
  rewrite !lookup_alter_eq.
  destruct (decide (c = e)) as [->|Hne].
  - rewrite !lookup_alter_eq, Hc. cbn. done.
  - rewrite !(lookup_alter_ne _ _ e c), !(lookup_alter_ne _ _ c e) by done.
    rewrite !lookup_alter_eq.
    rewrite !(lookup_alter_ne _ _ e c), !(lookup_alter_ne _ _ c e) by done.
    rewrite !lookup_alter_eq.
    rewrite ?(lookup_alter_ne _ _ e c), ?(lookup_alter_ne _ _ c e) by done.
    rewrite Hc, He. cbn. done.
Qed.


End Wiring.

Lemma proxy_wires_both_ways_witness :
  ∃ st',
    proxy 1 2 beforeJoin = Ok st' ∧
    effects st' = effects beforeJoin ++
                  [Sent 2 (SendMessage COULOIR_STREAM);
                   Sent 2 (Write (raw (requestFor "x.my.test:443")))] ∧
    (∀ data, step "my.test" exampleCommand plainLogo plainHtmlResponse
               (Data 2 data) st' = Ok (emit (Sent 1 (Write data)) st')) ∧
    (∀ data, step "my.test" exampleCommand plainLogo plainHtmlResponse
               (Data 1 data) st' = Ok (emit (Sent 2 (Write data)) st')) ∧
    step "my.test" exampleCommand plainLogo plainHtmlResponse (Ended 1) st'
      = Ok (emit (Sent 2 End) st') ∧
    step "my.test" exampleCommand plainLogo plainHtmlResponse (Ended 2) st'
      = Ok (emit (Sent 1 End) st').
Proof.
  apply (proxy_wires_both_ways "my.test" exampleCommand plainLogo
           plainHtmlResponse 1 2 beforeJoin
           (mkRelaySocket None (Some TYPE_CLIENT) false
              (Some (requestFor "x.my.test:443")) [] [] [])
           (mkRelaySocket None None false None [] [] []));
    first [done | vm_compute; reflexivity].
Defined.

Lemma bound_sockets_end_only_by_force_witness :
  ∃ st',
    proxy 1 2 beforeJoin = Ok st' ∧
    endSocket false 1 st' = st' ∧ endSocket false 2 st' = st' ∧
    endSocket true 1 st' = emit (Sent 1 End) st' ∧
    endSocket true 2 st' = emit (Sent 2 End) st'.
Proof.
  pose (st' := match proxy 1 2 beforeJoin with Ok st => st | _ => beforeJoin end).
  exists st'.
  assert (proxy 1 2 beforeJoin = Ok st') as Hproxy by (vm_compute; reflexivity).
  split; [exact Hproxy|].
  apply (bound_sockets_end_only_by_force 1 2 beforeJoin st' Hproxy).
  vm_compute; eauto.
Defined.


End RelaySocketExtras.
